(** * State-space search: BreadthFirstSearch, DepthFirstSearch,
      UniformCostSearch, AStarSearch and BestFirstSearch

    A shallow embedding of [Assignment 1 - Search/search.py].

    - A [Problem] is the record of the four operations the search functions
      call on it; states are compared and hashed, so the state type carries
      decidable equality and is countable, and Python's [set] of states is a
      [gset].
    - The operations of a problem and the heuristic are pure functions:
      the same arguments give the same result.  Step costs and heuristic
      values are integers ([Z]).
    - Every [while frontier:] loop is a step function iterated with fuel;
      an [outcome] is either [Return]ed by the Python function or still
      [Running] when the fuel is spent.
    - Each loop state carries the list of [get_actions]/[get_successor]
      calls made so far, so that statements about which states were expanded
      can be made.
    - [heapq] is modelled by its contract: [heappush] adds an item and
      [heappop] removes the smallest item under Python's tuple comparison.
      Every tuple pushed by the search functions holds a fresh value of
      [itertools.count()] in its second place, so a comparison is always
      decided by the first two components. *)

From Stdlib Require Import ZArith List Lia.
From stdpp Require Import base decidable list sorting gmap sets.

Local Open Scope Z_scope.

(** ** Loops *)

Section Loops.
Context {Call St : Type}.

(** What a search function has done after some iterations of its loop:
    it has returned [r] (having made the calls [calls]), or it is still
    looping in state [st]. *)
Inductive outcome (R : Type) :=
| Return (r : R) (calls : list Call)
| Running (st : St).

Context {R : Type}.

(** [while] loop: [step] is one evaluation of the loop test followed by
    the body. *)
Fixpoint iterate (step : St -> outcome R) (fuel : nat) (st : St)
  : outcome R :=
  match fuel with
  | O => Running R st
  | Datatypes.S fuel' =>
      match step st with
      | Return _ r calls => Return R r calls
      | Running _ st' => iterate step fuel' st'
      end
  end.

(** [for x in xs:] whose body may [return]. *)
Fixpoint for_each {X E : Type} (body : X -> St -> E + St)
         (xs : list X) (st : St) : E + St :=
  match xs with
  | [] => inr st
  | x :: xs' =>
      match body x st with
      | inl r => inl r
      | inr st' => for_each body xs' st'
      end
  end.

(** [for x in xs:] whose body never returns. *)
Fixpoint for_all {X : Type} (body : X -> St -> St)
         (xs : list X) (st : St) : St :=
  match xs with
  | [] => st
  | x :: xs' => for_all body xs' (body x st)
  end.
End Loops.

(** The calls made so far, whether the function has returned or not. *)
Definition outcome_calls {Call St R : Type} (calls_of : St -> list Call)
           (o : @outcome Call St R) : list Call :=
  match o with
  | Return _ _ calls => calls
  | Running _ st => calls_of st
  end.

(** The outcome seen through a change of loop state. *)
Definition outcome_map {Call St St' R : Type} (f : St -> St')
           (o : @outcome Call St R) : @outcome Call St' R :=
  match o with
  | Return _ r calls => Return _ r calls
  | Running _ st => Running _ (f st)
  end.

Arguments outcome : clear implicits.
Arguments Return {Call St R} r calls.
Arguments Running {Call St R} st.

(** ** heapq *)

Section Heapq.
Context {E : Type}.
(** The first two components of a heap item: the priority and the value
    of the counter. *)
Variable priority : E -> Z.
Variable ticket : E -> nat.

(** Python's [<] on two tuples whose second components differ. *)
Definition item_ltb (x y : E) : bool :=
  Z.ltb (priority x) (priority y)
  || (Z.eqb (priority x) (priority y) && Nat.ltb (ticket x) (ticket y)).

Fixpoint heap_min (m : E) (h : list E) : E :=
  match h with
  | [] => m
  | x :: h' => heap_min (if item_ltb x m then x else m) h'
  end.

Fixpoint heap_remove (c : nat) (h : list E) : list E :=
  match h with
  | [] => []
  | x :: h' => if Nat.eqb (ticket x) c then h' else x :: heap_remove c h'
  end.

Definition heappush (h : list E) (x : E) : list E := h ++ [x].

Definition heappop (h : list E) : option (E * list E) :=
  match h with
  | [] => None
  | x :: h' =>
      let m := heap_min x h' in Some (m, heap_remove (ticket m) h)
  end.

(** [m] is an item of the heap [h] with the least priority and, among the
    items with that priority, the least counter. *)
Definition popped_first (h : list E) (m : E) : Prop :=
  m ∈ h
  /\ forall x, x ∈ h ->
       priority m <= priority x
       /\ (priority x = priority m -> x <> m -> (ticket m < ticket x)%nat).

(** The counters of the heap strictly increase in insertion order and lie
    below the next value [count] of the counter. *)
Definition insertion_numbered (count : nat) (h : list E) : Prop :=
  StronglySorted lt (ticket <$> h)
  /\ forall x, x ∈ h -> (ticket x < count)%nat.
End Heapq.

(** ** The search functions *)

Section Search.
Context {State Action : Type} `{Countable State}.

(** The operations of [problem.Problem] used by the search functions. *)
Record Problem := {
  is_goal : State -> bool;
  get_actions : State -> list Action;
  get_successor : State -> Action -> State;
  get_cost : State -> Action -> Z
}.

Definition HeuristicFunction := Problem -> State -> Z.

(** [Solution]: a list of actions, or [None]. *)
Definition Solution := option (list Action).

Inductive call :=
| GetActions (s : State)
| GetSuccessor (s : State) (a : Action).

Variable problem : Problem.

(** *** BreadthFirstSearch *)

Record bfs_state := {
  bfs_frontier : list (State * list Action);   (* deque, front first *)
  bfs_explored : gset State;
  bfs_calls : list call
}.

Definition bfs_body (state : State) (actions : list Action)
           (action : Action) (st : bfs_state)
  : (list Action * list call) + bfs_state :=
  let child := get_successor problem state action in
  let calls := bfs_calls st ++ [GetSuccessor state action] in
  if decide (child ∉ bfs_explored st) then
    let new_actions := actions ++ [action] in
    if is_goal problem child then inl (new_actions, calls)
    else inr {| bfs_frontier := bfs_frontier st ++ [(child, new_actions)];
                bfs_explored := bfs_explored st ∪ {[ child ]};
                bfs_calls := calls |}
  else inr {| bfs_frontier := bfs_frontier st;
              bfs_explored := bfs_explored st;
              bfs_calls := calls |}.

Definition bfs_step (st : bfs_state) : outcome call bfs_state Solution :=
  match bfs_frontier st with
  | [] => Return None (bfs_calls st)
  | (state, actions) :: rest =>
      match for_each (bfs_body state actions) (get_actions problem state)
              {| bfs_frontier := rest;
                 bfs_explored := bfs_explored st;
                 bfs_calls := bfs_calls st ++ [GetActions state] |}
      with
      | inl (new_actions, calls) => Return (Some new_actions) calls
      | inr st' => Running st'
      end
  end.

Definition bfs_init (initial_state : State) : bfs_state :=
  {| bfs_frontier := [(initial_state, [])];
     bfs_explored := {[ initial_state ]};
     bfs_calls := [] |}.

Definition BreadthFirstSearch (initial_state : State) (fuel : nat)
  : outcome call bfs_state Solution :=
  if is_goal problem initial_state then Return (Some []) []
  else iterate bfs_step fuel (bfs_init initial_state).

(** *** DepthFirstSearch

    The Python list used as a stack is kept with its top first:
    [append] is a cons and [pop()] takes the head. *)

Record dfs_state := {
  dfs_frontier : list (State * list Action);   (* stack, top first *)
  dfs_explored : gset State;
  dfs_calls : list call
}.

Definition dfs_body (state : State) (actions : list Action)
           (action : Action) (st : dfs_state) : dfs_state :=
  let child := get_successor problem state action in
  let calls := dfs_calls st ++ [GetSuccessor state action] in
  if decide ((child ∉ dfs_explored st)
             ∧ (child ∉ fst <$> dfs_frontier st)) then
    let new_actions := actions ++ [action] in
    {| dfs_frontier := (child, new_actions) :: dfs_frontier st;
       dfs_explored := dfs_explored st;
       dfs_calls := calls |}
  else {| dfs_frontier := dfs_frontier st;
          dfs_explored := dfs_explored st;
          dfs_calls := calls |}.

Definition dfs_step (st : dfs_state) : outcome call dfs_state Solution :=
  match dfs_frontier st with
  | [] => Return None (dfs_calls st)
  | (state, actions) :: rest =>
      let explored := dfs_explored st ∪ {[ state ]} in
      if is_goal problem state then Return (Some actions) (dfs_calls st)
      else Running
             (for_all (dfs_body state actions) (get_actions problem state)
                {| dfs_frontier := rest;
                   dfs_explored := explored;
                   dfs_calls := dfs_calls st ++ [GetActions state] |})
  end.

Definition dfs_init (initial_state : State) : dfs_state :=
  {| dfs_frontier := [(initial_state, [])];
     dfs_explored := ∅;
     dfs_calls := [] |}.

Definition DepthFirstSearch (initial_state : State) (fuel : nat)
  : outcome call dfs_state Solution :=
  if is_goal problem initial_state then Return (Some []) []
  else iterate dfs_step fuel (dfs_init initial_state).

(** *** UniformCostSearch

    Heap items are [(cost, counter, state, actions)]. *)

Definition ucs_item : Type := Z * nat * State * list Action.
Definition ucs_priority (x : ucs_item) : Z := x.1.1.1.
Definition ucs_ticket (x : ucs_item) : nat := x.1.1.2.

Record ucs_state := {
  ucs_frontier : list ucs_item;
  ucs_explored : gset State;
  ucs_count : nat;                             (* next(count) *)
  ucs_calls : list call
}.

Definition ucs_body (cost : Z) (state : State) (actions : list Action)
           (action : Action) (st : ucs_state) : ucs_state :=
  let child := get_successor problem state action in
  let new_cost := cost + get_cost problem state action in
  let new_actions := actions ++ [action] in
  {| ucs_frontier :=
       heappush (ucs_frontier st)
         (new_cost, ucs_count st, child, new_actions);
     ucs_explored := ucs_explored st;
     ucs_count := Datatypes.S (ucs_count st);
     ucs_calls := ucs_calls st ++ [GetSuccessor state action] |}.

Definition ucs_step (st : ucs_state) : outcome call ucs_state Solution :=
  match heappop ucs_priority ucs_ticket (ucs_frontier st) with
  | None => Return None (ucs_calls st)
  | Some ((cost, _, state, actions), rest) =>
      if is_goal problem state then Return (Some actions) (ucs_calls st)
      else if decide (state ∉ ucs_explored st) then
        Running
          (for_all (ucs_body cost state actions)
             (get_actions problem state)
             {| ucs_frontier := rest;
                ucs_explored := ucs_explored st ∪ {[ state ]};
                ucs_count := ucs_count st;
                ucs_calls := ucs_calls st ++ [GetActions state] |})
      else
        Running {| ucs_frontier := rest;
                   ucs_explored := ucs_explored st;
                   ucs_count := ucs_count st;
                   ucs_calls := ucs_calls st |}
  end.

Definition ucs_init (initial_state : State) : ucs_state :=
  {| ucs_frontier := heappush [] (0, O, initial_state, []);
     ucs_explored := ∅;
     ucs_count := 1%nat;
     ucs_calls := [] |}.

Definition UniformCostSearch (initial_state : State) (fuel : nat)
  : outcome call ucs_state Solution :=
  iterate ucs_step fuel (ucs_init initial_state).

(** *** AStarSearch

    Heap items are [(f_value, counter, cost, state, actions)]. *)

Variable heuristic : HeuristicFunction.

Definition astar_item : Type := Z * nat * Z * State * list Action.
Definition astar_priority (x : astar_item) : Z := x.1.1.1.1.
Definition astar_ticket (x : astar_item) : nat := x.1.1.1.2.

Record astar_state := {
  astar_frontier : list astar_item;
  astar_explored : gset State;
  astar_count : nat;
  astar_calls : list call
}.

Definition astar_body (cost : Z) (state : State) (actions : list Action)
           (action : Action) (st : astar_state) : astar_state :=
  let child := get_successor problem state action in
  let new_cost := cost + get_cost problem state action in
  let calls := astar_calls st ++ [GetSuccessor state action] in
  if decide (child ∉ astar_explored st) then
    let new_actions := actions ++ [action] in
    let f_value := new_cost + heuristic problem child in
    {| astar_frontier :=
         heappush (astar_frontier st)
           (f_value, astar_count st, new_cost, child, new_actions);
       astar_explored := astar_explored st;
       astar_count := Datatypes.S (astar_count st);
       astar_calls := calls |}
  else {| astar_frontier := astar_frontier st;
          astar_explored := astar_explored st;
          astar_count := astar_count st;
          astar_calls := calls |}.

Definition astar_step (st : astar_state)
  : outcome call astar_state Solution :=
  match heappop astar_priority astar_ticket (astar_frontier st) with
  | None => Return None (astar_calls st)
  | Some ((_, _, cost, state, actions), rest) =>
      if is_goal problem state then Return (Some actions) (astar_calls st)
      else if decide (state ∉ astar_explored st) then
        Running
          (for_all (astar_body cost state actions)
             (get_actions problem state)
             {| astar_frontier := rest;
                astar_explored := astar_explored st ∪ {[ state ]};
                astar_count := astar_count st;
                astar_calls := astar_calls st ++ [GetActions state] |})
      else
        Running {| astar_frontier := rest;
                   astar_explored := astar_explored st;
                   astar_count := astar_count st;
                   astar_calls := astar_calls st |}
  end.

Definition astar_init (initial_state : State) : astar_state :=
  {| astar_frontier :=
       heappush [] (heuristic problem initial_state, O, 0,
                    initial_state, []);
     astar_explored := ∅;
     astar_count := 1%nat;
     astar_calls := [] |}.

Definition AStarSearch (initial_state : State) (fuel : nat)
  : outcome call astar_state Solution :=
  if is_goal problem initial_state then Return (Some []) []
  else iterate astar_step fuel (astar_init initial_state).

(** *** BestFirstSearch

    Heap items are [(heuristic, counter, state, actions)]. *)

Definition gbfs_item : Type := Z * nat * State * list Action.
Definition gbfs_priority (x : gbfs_item) : Z := x.1.1.1.
Definition gbfs_ticket (x : gbfs_item) : nat := x.1.1.2.

Record gbfs_state := {
  gbfs_frontier : list gbfs_item;
  gbfs_explored : gset State;
  gbfs_count : nat;
  gbfs_calls : list call
}.

Definition gbfs_body (state : State) (actions : list Action)
           (action : Action) (st : gbfs_state) : gbfs_state :=
  let child := get_successor problem state action in
  let calls := gbfs_calls st ++ [GetSuccessor state action] in
  if decide (child ∉ gbfs_explored st) then
    let new_actions := actions ++ [action] in
    {| gbfs_frontier :=
         heappush (gbfs_frontier st)
           (heuristic problem child, gbfs_count st, child, new_actions);
       gbfs_explored := gbfs_explored st;
       gbfs_count := Datatypes.S (gbfs_count st);
       gbfs_calls := calls |}
  else {| gbfs_frontier := gbfs_frontier st;
          gbfs_explored := gbfs_explored st;
          gbfs_count := gbfs_count st;
          gbfs_calls := calls |}.

Definition gbfs_step (st : gbfs_state)
  : outcome call gbfs_state Solution :=
  match heappop gbfs_priority gbfs_ticket (gbfs_frontier st) with
  | None => Return None (gbfs_calls st)
  | Some ((_, _, state, actions), rest) =>
      if is_goal problem state then Return (Some actions) (gbfs_calls st)
      else if decide (state ∉ gbfs_explored st) then
        Running
          (for_all (gbfs_body state actions)
             (get_actions problem state)
             {| gbfs_frontier := rest;
                gbfs_explored := gbfs_explored st ∪ {[ state ]};
                gbfs_count := gbfs_count st;
                gbfs_calls := gbfs_calls st ++ [GetActions state] |})
      else
        Running {| gbfs_frontier := rest;
                   gbfs_explored := gbfs_explored st;
                   gbfs_count := gbfs_count st;
                   gbfs_calls := gbfs_calls st |}
  end.

Definition gbfs_init (initial_state : State) : gbfs_state :=
  {| gbfs_frontier :=
       heappush [] (heuristic problem initial_state, O,
                    initial_state, []);
     gbfs_explored := ∅;
     gbfs_count := 1%nat;
     gbfs_calls := [] |}.

Definition BestFirstSearch (initial_state : State) (fuel : nat)
  : outcome call gbfs_state Solution :=
  if is_goal problem initial_state then Return (Some []) []
  else iterate gbfs_step fuel (gbfs_init initial_state).

(** ** Priority search

    The loop that UniformCostSearch, AStarSearch and BestFirstSearch
    have in common, used to reason about the three at once: a heap of
    [(priority, counter, cost, state, actions)], the priority of a node
    being [node_priority cost state]; with [prune] set, a successor that
    is already explored is not pushed. *)

Variable node_priority : Z -> State -> Z.
Variable prune : bool.

Definition ps_item : Type := Z * nat * Z * State * list Action.
Definition ps_priority (x : ps_item) : Z := x.1.1.1.1.
Definition ps_ticket (x : ps_item) : nat := x.1.1.1.2.
Definition ps_cost (x : ps_item) : Z := x.1.1.2.
Definition ps_node (x : ps_item) : State := x.1.2.
Definition ps_actions (x : ps_item) : list Action := x.2.

Record ps_state := {
  ps_frontier : list ps_item;
  ps_explored : gset State;
  ps_count : nat;
  ps_calls : list call
}.

Definition ps_body (cost : Z) (state : State) (actions : list Action)
           (action : Action) (st : ps_state) : ps_state :=
  let child := get_successor problem state action in
  let new_cost := cost + get_cost problem state action in
  let calls := ps_calls st ++ [GetSuccessor state action] in
  if prune && bool_decide (child ∈ ps_explored st) then
    {| ps_frontier := ps_frontier st;
       ps_explored := ps_explored st;
       ps_count := ps_count st;
       ps_calls := calls |}
  else
    {| ps_frontier :=
         heappush (ps_frontier st)
           (node_priority new_cost child, ps_count st, new_cost, child,
            actions ++ [action]);
       ps_explored := ps_explored st;
       ps_count := Datatypes.S (ps_count st);
       ps_calls := calls |}.

Definition ps_step (st : ps_state) : outcome call ps_state Solution :=
  match heappop ps_priority ps_ticket (ps_frontier st) with
  | None => Return None (ps_calls st)
  | Some ((_, _, cost, state, actions), rest) =>
      if is_goal problem state then Return (Some actions) (ps_calls st)
      else if decide (state ∉ ps_explored st) then
        Running
          (for_all (ps_body cost state actions)
             (get_actions problem state)
             {| ps_frontier := rest;
                ps_explored := ps_explored st ∪ {[ state ]};
                ps_count := ps_count st;
                ps_calls := ps_calls st ++ [GetActions state] |})
      else
        Running {| ps_frontier := rest;
                   ps_explored := ps_explored st;
                   ps_count := ps_count st;
                   ps_calls := ps_calls st |}
  end.

Definition ps_init (initial_state : State) : ps_state :=
  {| ps_frontier :=
       heappush [] (node_priority 0 initial_state, O, 0,
                    initial_state, []);
     ps_explored := ∅;
     ps_count := 1%nat;
     ps_calls := [] |}.

(** The three searches as instances of the priority search.  A node of
    UniformCostSearch has its cost as priority; a node of BestFirstSearch
    does not record its cost, which is that of its path from [init]. *)

Definition ucs_abs_item (x : ucs_item) : ps_item :=
  (x.1.1.1, x.1.1.2, x.1.1.1, x.1.2, x.2).

Definition ucs_abs (st : ucs_state) : ps_state :=
  {| ps_frontier := ucs_abs_item <$> ucs_frontier st;
     ps_explored := ucs_explored st;
     ps_count := ucs_count st;
     ps_calls := ucs_calls st |}.

Definition astar_abs (st : astar_state) : ps_state :=
  {| ps_frontier := astar_frontier st;
     ps_explored := astar_explored st;
     ps_count := astar_count st;
     ps_calls := astar_calls st |}.

(** ** Paths *)

(** The state reached from [s] by the action list [acts]. *)
Fixpoint exec (s : State) (acts : list Action) : State :=
  match acts with
  | [] => s
  | a :: acts' => exec (get_successor problem s a) acts'
  end.

(** Every action of [acts] is offered by [get_actions] in the state
    where it is taken. *)
Fixpoint valid (s : State) (acts : list Action) : Prop :=
  match acts with
  | [] => True
  | a :: acts' =>
      a ∈ get_actions problem s ∧ valid (get_successor problem s a) acts'
  end.

(** The sum of the step costs along [acts]. *)
Fixpoint path_cost (s : State) (acts : list Action) : Z :=
  match acts with
  | [] => 0
  | a :: acts' =>
      get_cost problem s a + path_cost (get_successor problem s a) acts'
  end.

(** [acts] leads from [s] to a goal. *)
Definition solves (s : State) (acts : list Action) : Prop :=
  valid s acts ∧ is_goal problem (exec s acts) = true.

Definition reachable (s t : State) : Prop :=
  ∃ acts, valid s acts ∧ exec s acts = t.

(** The states on which [get_actions] was called, in call order. *)
Fixpoint expansions (calls : list call) : list State :=
  match calls with
  | [] => []
  | GetActions s :: calls' => s :: expansions calls'
  | GetSuccessor _ _ :: calls' => expansions calls'
  end.

Definition gbfs_abs_item (init : State) (x : gbfs_item) : ps_item :=
  (x.1.1.1, x.1.1.2, path_cost init x.2, x.1.2, x.2).

Definition gbfs_abs (init : State) (st : gbfs_state) : ps_state :=
  {| ps_frontier := gbfs_abs_item init <$> gbfs_frontier st;
     ps_explored := gbfs_explored st;
     ps_count := gbfs_count st;
     ps_calls := gbfs_calls st |}.

(** ** Invariants and measures used in the proofs *)

(** The number of successors still to be generated for the states of
    [L] outside [X]. *)
Fixpoint pending_work (X : gset State) (L : list State) : nat :=
  match L with
  | [] => O
  | s :: L' =>
      ((if decide (s ∈ X) then O else length (get_actions problem s))
       + pending_work X L')%nat
  end.

(** The three ways an iteration of the priority search can continue:
    the state in which the [for] loop of an expansion starts, the state
    in which it ends, and the state after a node was discarded. *)
Definition ps_popped (st : ps_state) (x : ps_item) (rest : list ps_item)
  : ps_state :=
  {| ps_frontier := rest;
     ps_explored := ps_explored st ∪ {[ ps_node x ]};
     ps_count := ps_count st;
     ps_calls := ps_calls st ++ [GetActions (ps_node x)] |}.

Definition ps_expanded (st : ps_state) (x : ps_item) (rest : list ps_item)
  : ps_state :=
  for_all (ps_body (ps_cost x) (ps_node x) (ps_actions x))
    (get_actions problem (ps_node x)) (ps_popped st x rest).

Definition ps_discarded (st : ps_state) (rest : list ps_item) : ps_state :=
  {| ps_frontier := rest;
     ps_explored := ps_explored st;
     ps_count := ps_count st;
     ps_calls := ps_calls st |}.

(** Invariant of the priority search started in [init]: every heap item
    records a valid path to its state with its cost and priority, the
    counters of the heap strictly increase in insertion order and lie
    below the next counter, and the explored set holds exactly the states
    expanded so far, each once, none of them a goal. *)
Record ps_inv (init : State) (st : ps_state) : Prop := {
  pi_items : forall x, x ∈ ps_frontier st ->
    valid init (ps_actions x)
    /\ exec init (ps_actions x) = ps_node x
    /\ path_cost init (ps_actions x) = ps_cost x
    /\ ps_priority x = node_priority (ps_cost x) (ps_node x)
    /\ (ps_ticket x < ps_count st)%nat;
  pi_sorted : StronglySorted lt (ps_ticket <$> ps_frontier st);
  pi_explored : forall s, s ∈ ps_explored st ->
    is_goal problem s = false /\ reachable init s;
  pi_expanded : forall s, s ∈ ps_explored st <-> s ∈ expansions (ps_calls st);
  pi_nodup : NoDup (expansions (ps_calls st))
}.

Definition ps_measure (L : list State) (st : ps_state) : nat :=
  (length (ps_frontier st) + pending_work (ps_explored st) L)%nat.

(** The path [q] from [init] ends in an explored state, or the heap holds
    a node for its end state that costs no more than [q]. *)
Definition ps_covered (init : State) (st : ps_state) (q : list Action)
  : Prop :=
  exec init q ∈ ps_explored st
  \/ exists x, x ∈ ps_frontier st /\ ps_node x = exec init q
               /\ ps_cost x <= path_cost init q.

(** Every path that leaves the explored set is covered where it leaves. *)
Definition ps_boundary (init : State) (st : ps_state) : Prop :=
  ps_covered init st []
  /\ forall q a, valid init (q ++ [a]) -> exec init q ∈ ps_explored st ->
                ps_covered init st (q ++ [a]).

(** Invariant of BreadthFirstSearch started in [init].  The frontier
    is [F1 ++ F2], the nodes of [F1] at depth [d] and those of [F2] at
    depth [d + 1]; explored states are expanded or in the frontier and
    none is a goal; the successors of the pairs in [cl] are explored;
    every state within [d] actions of [init] is expanded or in [F1]; no
    state is expanded or queued twice. *)
Record bfs_inv (init : State) (cl : State -> Action -> Prop) (d : nat)
       (F1 F2 : list (State * list Action)) (st : bfs_state) : Prop := {
  bi_frontier : bfs_frontier st = F1 ++ F2;
  bi_F1 : forall x, x ∈ F1 -> length x.2 = d;
  bi_F2 : forall x, x ∈ F2 -> length x.2 = Datatypes.S d;
  bi_path : forall x, x ∈ bfs_frontier st ->
    valid init x.2 /\ exec init x.2 = x.1;
  bi_explored : forall s, s ∈ bfs_explored st ->
    is_goal problem s = false
    /\ (s ∈ expansions (bfs_calls st) \/ s ∈ fst <$> bfs_frontier st)
    /\ exists p, valid init p /\ exec init p = s
                /\ (length p <= Datatypes.S d)%nat;
  bi_sub : forall s,
    s ∈ expansions (bfs_calls st) \/ s ∈ fst <$> bfs_frontier st ->
    s ∈ bfs_explored st;
  bi_closed : forall t a, cl t a ->
    get_successor problem t a ∈ bfs_explored st;
  bi_near : forall q, valid init q -> (length q <= d)%nat ->
    exec init q ∈ expansions (bfs_calls st) \/ exec init q ∈ fst <$> F1;
  bi_nodup : NoDup (expansions (bfs_calls st) ++ (fst <$> bfs_frontier st))
}.

(** The successors of every expanded state have been generated. *)
Definition bfs_closed (st : bfs_state) (t : State) (a : Action) : Prop :=
  t ∈ expansions (bfs_calls st) /\ a ∈ get_actions problem t.

Definition bfs_Inv (init : State) (st : bfs_state) : Prop :=
  exists d F1 F2, bfs_inv init (bfs_closed st) d F1 F2 st.

Definition bfs_measure (L : list State) (st : bfs_state) : nat :=
  (length (bfs_frontier st)
   + pending_work (list_to_set (expansions (bfs_calls st))) L)%nat.

(** The states within [n] actions of [s]. *)
Fixpoint reach_le (n : nat) (s : State) : list State :=
  match n with
  | O => [s]
  | Datatypes.S n' =>
      s :: flat_map (fun a => reach_le n' (get_successor problem s a))
             (get_actions problem s)
  end.

(** Invariant of DepthFirstSearch started in [init]: every node of the
    stack records a valid path to its state, the states of the stack are
    pairwise distinct and unexplored, and the explored set holds exactly
    the states expanded so far, each once. *)
Record dfs_inv (init : State) (st : dfs_state) : Prop := {
  di_path : forall x, x ∈ dfs_frontier st ->
    valid init x.2 /\ exec init x.2 = x.1;
  di_nodup : NoDup (fst <$> dfs_frontier st);
  di_fresh : forall x, x ∈ dfs_frontier st -> x.1 ∉ dfs_explored st;
  di_expanded : forall s,
    s ∈ dfs_explored st <-> s ∈ expansions (dfs_calls st);
  di_nodup_expanded : NoDup (expansions (dfs_calls st))
}.

Definition dfs_measure (L : list State) (st : dfs_state) : nat :=
  (length (dfs_frontier st) + pending_work (dfs_explored st) L)%nat.

(** The actions of [acts] whose successor DepthFirstSearch pushes when
    it expands [s], the states in [seen] being on the stack. *)
Fixpoint dfs_pushed (explored : gset State) (seen : list State)
         (s : State) (acts : list Action) : list Action :=
  match acts with
  | [] => []
  | a :: acts' =>
      let child := get_successor problem s a in
      if decide ((child ∉ explored) ∧ (child ∉ seen))
      then a :: dfs_pushed explored (child :: seen) s acts'
      else dfs_pushed explored seen s acts'
  end.

(** ** Conditions on problems and heuristics *)

(** All states reachable from [init] are in the list [L]. *)
Definition finite_reach (init : State) (L : list State) : Prop :=
  forall s, reachable init s -> s ∈ L.

Definition nonneg_costs : Prop :=
  forall s a, a ∈ get_actions problem s -> 0 <= get_cost problem s a.

(** The triangle inequality across edges. *)
Definition consistent (h : HeuristicFunction) : Prop :=
  forall s a, a ∈ get_actions problem s ->
    h problem s <= get_cost problem s a + h problem (get_successor problem s a).

Definition nonneg_heuristic (h : HeuristicFunction) : Prop :=
  forall s, 0 <= h problem s.

Definition zero_on_goals (h : HeuristicFunction) : Prop :=
  forall s, is_goal problem s = true -> h problem s = 0.

(** [L] contains [init] and the successors of its states. *)
Definition closedb (init : State) (L : list State) : bool :=
  bool_decide (init ∈ L)
  && forallb (fun s =>
                forallb (fun a => bool_decide (get_successor problem s a ∈ L))
                  (get_actions problem s)) L.

End Search.

Arguments Problem : clear implicits.
Arguments HeuristicFunction State Action : clear implicits.
Arguments call : clear implicits.

(** ** Example problems

    States are numbers and an action names the state it leads to. *)

Definition graph_problem (adj : nat -> list nat) (cost : nat -> nat -> Z)
           (goal : nat -> bool) : Problem nat nat :=
  {| is_goal := goal;
     get_actions := adj;
     get_successor := fun _ a => a;
     get_cost := cost |}.

(** Three goals next to state 0: state 2 is reached at cost 1, states 1
    and 3 at cost 10. *)
Definition fan_problem : Problem nat nat :=
  graph_problem
    (fun s => match s with O => [1; 2; 3]%nat | _ => [] end)
    (fun _ a => match a with 2%nat => 1 | _ => 10 end)
    (fun s => negb (Nat.eqb s 0)).

(** An estimate for [fan_problem] that satisfies the triangle inequality
    and is not zero on the goal 2. *)
Definition fan_estimate : HeuristicFunction nat nat :=
  fun _ s => match s with 2%nat => 100 | _ => 0 end.

Definition zero_estimate : HeuristicFunction nat nat := fun _ _ => 0.

(** A cycle between states 0 and 1, and a dead end 2 that is a goal or not:
    0 -> 1, 1 -> 2, 1 -> 0. *)
Definition loop_problem (goal : nat -> bool) : Problem nat nat :=
  graph_problem
    (fun s => match s with
              | O => [1]%nat
              | 1%nat => [2; 0]%nat
              | _ => []
              end)
    (fun _ _ => 1)
    goal.

(** An endless chain 0 -> 2 -> 4 -> ... of steps of cost 0 and a goal 1
    next to state 0, at cost 1. *)
Definition detour_problem : Problem nat nat :=
  graph_problem
    (fun s => match s with
              | O => [2; 1]%nat
              | _ => if Nat.even s then [Datatypes.S (Datatypes.S s)] else []
              end)
    (fun _ a => match a with 1%nat => 1 | _ => 0 end)
    (fun s => Nat.eqb s 1).

(** ** Closure invariants of the searches *)

Section Closure.
Context {State Action : Type} `{Countable State}.
Variable problem : Problem State Action.

(** The state [s] is explored or has a node in the heap. *)
Definition ps_seen (st : ps_state (State := State) (Action := Action)) (s : State) : Prop :=
  s ∈ ps_explored st \/ exists x, x ∈ ps_frontier st /\ ps_node x = s.

(** The initial state and the successors of the explored states are
    explored or in the heap. *)
Definition ps_closed (init : State) (st : ps_state (State := State) (Action := Action)) : Prop :=
  ps_seen st init
  /\ forall s a, s ∈ ps_explored st -> a ∈ get_actions problem s ->
       ps_seen st (get_successor problem s a).

(** The state [s] is explored or on the stack. *)
Definition dfs_seen (st : dfs_state (State := State) (Action := Action)) (s : State) : Prop :=
  s ∈ dfs_explored st \/ s ∈ fst <$> dfs_frontier st.

(** The initial state and the successors of the explored states are
    explored or on the stack; the explored states are reachable and none is
    a goal. *)
Record dfs_closed (init : State) (st : dfs_state (State := State) (Action := Action)) : Prop := {
  dc_init : dfs_seen st init;
  dc_succ : forall s a, s ∈ dfs_explored st -> a ∈ get_actions problem s ->
    dfs_seen st (get_successor problem s a);
  dc_explored : forall s, s ∈ dfs_explored st ->
    is_goal problem s = false /\ reachable problem init s
}.
End Closure.

(** * The parking problem

    A shallow embedding of [Assignment 1 - Search/parking.py], the problem
    the search functions are run on.  A [Point] is a pair of integers; the
    enumeration [Direction] (declared in [mathutils], which is not among
    the sources) has the four members the file names, and the order in
    which [for direction in Direction] visits them is the parameter
    [directions].  [get_successor] assigns to [self.cars], so a method that
    may do so returns the problem object along with its result.  Python's
    [IndexError] and [KeyError] are values of [error]. *)

Module Parking.

Inductive Direction := RIGHT | UP | LEFT | DOWN.

Definition Point : Type := Z * Z.
Definition ParkingState : Type := list Point.
Definition ParkingAction : Type := Z * Direction.

Inductive error := IndexError | KeyError.

Record ParkingProblem := {
  passages : gset Point;
  cars : list Point;
  ranks : gmap Z Z;
  slots : gmap Point Z;
  width : Z;
  height : Z
}.

(** The position in [l] that Python's [l[i]] denotes: indices from the
    end are negative. *)
Definition py_index {X : Type} (l : list X) (i : Z) : option nat :=
  if (0 <=? i) && (i <? Z.of_nat (length l)) then Some (Z.to_nat i)
  else if (- Z.of_nat (length l) <=? i) && (i <? 0)
       then Some (Z.to_nat (Z.of_nat (length l) + i))
       else None.

(** [enumerate(l)], counting from [i]. *)
Fixpoint enumerate {X : Type} (i : Z) (l : list X) : list (Z * X) :=
  match l with
  | [] => []
  | x :: l' => (i, x) :: enumerate (i + 1) l'
  end.

Definition get_initial_state (self : ParkingProblem) : ParkingState :=
  cars self.

Definition is_goal (self : ParkingProblem) (state : ParkingState) : bool :=
  forallb (fun '(i, car) =>
             match slots self !! car with
             | None => false
             | Some j => Z.eqb j i
             end)
    (enumerate 0 state).

Definition move (car : Point) (direction : Direction) : Point :=
  match direction with
  | UP => (car.1, car.2 - 1)
  | DOWN => (car.1, car.2 + 1)
  | LEFT => (car.1 - 1, car.2)
  | RIGHT => (car.1 + 1, car.2)
  end.

Definition can_move (self : ParkingProblem) (car : Point)
           (direction : Direction) : bool :=
  let new_car := move car direction in
  if decide (new_car ∉ passages self) then false
  else negb (existsb (fun other_car =>
                        bool_decide (other_car <> car)
                        && bool_decide (new_car = other_car))
               (cars self)).

Definition get_actions (directions : list Direction)
           (self : ParkingProblem) (state : ParkingState)
  : list ParkingAction :=
  flat_map (fun '(i, car) =>
              flat_map (fun direction =>
                          if can_move self car direction
                          then [(i, direction)] else [])
                directions)
    (enumerate 0 state).

Definition get_successor (self : ParkingProblem) (state : ParkingState)
           (action : ParkingAction)
  : error + (ParkingProblem * ParkingState) :=
  let '(i, direction) := action in
  match py_index state i with
  | None => inl IndexError
  | Some k =>
      match state !! k with
      | None => inl IndexError
      | Some car =>
          let new_car := move car direction in
          let new_state := <[k := new_car]> state in
          inr ({| passages := passages self;
                  cars := new_state;
                  ranks := ranks self;
                  slots := slots self;
                  width := width self;
                  height := height self |},
               new_state)
      end
  end.

Definition get_cost (self : ParkingProblem) (state : ParkingState)
           (action : ParkingAction) : error + Z :=
  let '(i, direction) := action in
  match py_index state i with
  | None => inl IndexError
  | Some k =>
      match state !! k with
      | None => inl IndexError
      | Some car =>
          let new_car := move car direction in
          match ranks self !! i with
          | None => inl KeyError
          | Some cost =>
              match slots self !! new_car with
              | Some j => if negb (Z.eqb j i) then inr (cost + 100)
                          else inr cost
              | None => inr cost
              end
          end
      end
  end.

End Parking.

(** ** The game searches (Assignment 2 - CSP & Games/search.py)

    Game values and heuristic values are Python floats that the searches
    only compare ([<], [>], [>=], [max], [min]) and initialise with
    [float('-inf')] and [float('inf')].  They are modelled by integers
    extended with the two infinities; NaN is not modelled.  A search result
    is a value, one of the two exceptions the code can raise, or
    [OutOfFuel] when the recursion is deeper than the fuel given: with
    [max_depth = -1] the recursion of the source is bounded by the game
    only. *)

Module Games.

Inductive ext := NegInf | Fin (z : Z) | PosInf.

Definition ext_ltb (x y : ext) : bool :=
  match x, y with
  | NegInf, NegInf => false
  | NegInf, _ => true
  | Fin a, Fin b => Z.ltb a b
  | Fin _, PosInf => true
  | Fin _, NegInf => false
  | PosInf, _ => false
  end.

(** [x >= y] of the source is [ext_leb y x]. *)
Definition ext_leb (x y : ext) : bool := negb (ext_ltb y x).

Definition ext_eqb (x y : ext) : bool := ext_leb x y && ext_leb y x.

(** Python's [max(x, y)] and [min(x, y)] return [x] unless [y] is strictly
    better. *)
Definition ext_max (x y : ext) : ext := if ext_ltb x y then y else x.
Definition ext_min (x y : ext) : ext := if ext_ltb y x then y else x.

Inductive res (T : Type) :=
| Value (x : T)
| IndexError
| ValueError
| OutOfFuel.
Arguments Value {T} x.
Arguments IndexError {T}.
Arguments ValueError {T}.
Arguments OutOfFuel {T}.

(** [list.sort(key=...)] is a stable sort; [insert_by] places an element
    before the first element it is not after, so that elements with equal
    keys keep their order. *)
Fixpoint insert_by {X : Type} (leb : X -> X -> bool) (x : X) (l : list X)
  : list X :=
  match l with
  | [] => [x]
  | y :: l' => if leb x y then x :: y :: l' else y :: insert_by leb x l'
  end.

Definition stable_sort {X : Type} (leb : X -> X -> bool) (l : list X)
  : list X :=
  foldr (insert_by leb) [] l.

Section Games.
Context {State Action : Type}.

Record Game := {
  get_turn : State -> nat;
  is_terminal : State -> bool * list ext;
  get_actions : State -> list Action;
  get_successor : State -> Action -> State
}.

Definition HeuristicFunction : Type := Game -> State -> nat -> ext.

Definition Result : Type := res (ext * option Action).

(** [[(action, game.get_successor(state, action)) for action in
    game.get_actions(state)]] *)
Definition actions_states (game : Game) (state : State)
  : list (Action * State) :=
  map (fun action => (action, get_successor game state action))
      (get_actions game state).

(** [max((heuristic(game, state, agent), -index, action) for ...)]: the
    tuples are compared by value, then by [-index]; the indices differ, so
    the actions are never compared.  [max] keeps the first of the greatest
    items and raises [ValueError] on an empty sequence. *)
Definition tuple_ltb (x y : ext * Z * Action) : bool :=
  let '(v1, i1, _) := x in
  let '(v2, i2, _) := y in
  ext_ltb v1 v2 || (ext_eqb v1 v2 && Z.ltb i1 i2).

Fixpoint py_max (best : ext * Z * Action) (l : list (ext * Z * Action))
  : ext * Z * Action :=
  match l with
  | [] => best
  | item :: l' => py_max (if tuple_ltb best item then item else best) l'
  end.

Fixpoint greedy_tuples (game : Game) (heuristic : HeuristicFunction)
         (agent : nat) (index : Z) (l : list (Action * State))
  : list (ext * Z * Action) :=
  match l with
  | [] => []
  | (action, state) :: l' =>
      (heuristic game state agent, - index, action)
        :: greedy_tuples game heuristic agent (index + 1) l'
  end.

Definition greedy (game : Game) (state : State)
           (heuristic : HeuristicFunction) (max_depth : Z) : Result :=
  let agent := get_turn game state in
  let '(terminal, values) := is_terminal game state in
  if terminal then
    match values !! agent with
    | Some v => Value (v, None)
    | None => IndexError
    end
  else
    match greedy_tuples game heuristic agent 0 (actions_states game state) with
    | [] => ValueError
    | first :: rest =>
        let '(value, _, action) := py_max first rest in
        Value (value, Some action)
    end.

(** The loops of [max_value] and [min_value]; [rec] is the recursive call
    [minimax_decision(state, depth - 1)]. *)
Fixpoint max_loop (rec : State -> Result) (l : list (Action * State))
         (max_value : ext) (best_action : option Action) : Result :=
  match l with
  | [] => Value (max_value, best_action)
  | (action, state) :: rest =>
      match rec state with
      | Value (value, _) =>
          if ext_ltb max_value value
          then max_loop rec rest value (Some action)
          else max_loop rec rest max_value best_action
      | e => e
      end
  end.

Fixpoint min_loop (rec : State -> Result) (l : list (Action * State))
         (min_value : ext) (best_action : option Action) : Result :=
  match l with
  | [] => Value (min_value, best_action)
  | (action, state) :: rest =>
      match rec state with
      | Value (value, _) =>
          if ext_ltb value min_value
          then min_loop rec rest value (Some action)
          else min_loop rec rest min_value best_action
      | e => e
      end
  end.

Fixpoint minimax_decision (game : Game) (heuristic : HeuristicFunction)
         (fuel : nat) (state : State) (depth : Z) : Result :=
  match fuel with
  | O => OutOfFuel
  | S fuel' =>
      let '(terminal, values) := is_terminal game state in
      if terminal then
        match values with
        | v :: _ => Value (v, None)
        | [] => IndexError
        end
      else if Z.eqb depth 0 then Value (heuristic game state 0%nat, None)
      else
        let agent := get_turn game state in
        if Nat.eqb agent 0
        then max_loop
               (fun s => minimax_decision game heuristic fuel' s (depth - 1))
               (actions_states game state) NegInf None
        else min_loop
               (fun s => minimax_decision game heuristic fuel' s (depth - 1))
               (actions_states game state) PosInf None
  end.

Definition minimax (game : Game) (fuel : nat) (state : State)
           (heuristic : HeuristicFunction) (max_depth : Z) : Result :=
  minimax_decision game heuristic fuel state max_depth.

(** The loops of [max_value] and [min_value] with pruning; [rec] is the
    recursive call [alphabeta_decision(state, depth - 1, alpha, beta)]. *)
Fixpoint ab_max_loop (rec : State -> ext -> ext -> Result)
         (l : list (Action * State)) (max_value : ext)
         (best_action : option Action) (alpha beta : ext) : Result :=
  match l with
  | [] => Value (max_value, best_action)
  | (action, state) :: rest =>
      match rec state alpha beta with
      | Value (value, _) =>
          let '(max_value, best_action) :=
            if ext_ltb max_value value then (value, Some action)
            else (max_value, best_action) in
          let alpha := ext_max alpha max_value in
          if ext_leb beta alpha then Value (max_value, best_action)
          else ab_max_loop rec rest max_value best_action alpha beta
      | e => e
      end
  end.

Fixpoint ab_min_loop (rec : State -> ext -> ext -> Result)
         (l : list (Action * State)) (min_value : ext)
         (best_action : option Action) (alpha beta : ext) : Result :=
  match l with
  | [] => Value (min_value, best_action)
  | (action, state) :: rest =>
      match rec state alpha beta with
      | Value (value, _) =>
          let '(min_value, best_action) :=
            if ext_ltb value min_value then (value, Some action)
            else (min_value, best_action) in
          let beta := ext_min beta min_value in
          if ext_leb beta alpha then Value (min_value, best_action)
          else ab_min_loop rec rest min_value best_action alpha beta
      | e => e
      end
  end.

Fixpoint alphabeta_decision (game : Game) (heuristic : HeuristicFunction)
         (fuel : nat) (state : State) (depth : Z) (alpha beta : ext)
  : Result :=
  match fuel with
  | O => OutOfFuel
  | S fuel' =>
      let '(terminal, values) := is_terminal game state in
      if terminal then
        match values with
        | v :: _ => Value (v, None)
        | [] => IndexError
        end
      else if Z.eqb depth 0 then Value (heuristic game state 0%nat, None)
      else
        let agent := get_turn game state in
        if Nat.eqb agent 0
        then ab_max_loop
               (fun s => alphabeta_decision game heuristic fuel' s (depth - 1))
               (actions_states game state) NegInf None alpha beta
        else ab_min_loop
               (fun s => alphabeta_decision game heuristic fuel' s (depth - 1))
               (actions_states game state) PosInf None alpha beta
  end.

Definition alphabeta (game : Game) (fuel : nat) (state : State)
           (heuristic : HeuristicFunction) (max_depth : Z) : Result :=
  alphabeta_decision game heuristic fuel state max_depth NegInf PosInf.

(** [actions_states.sort(key=lambda x: heuristic(game, x[1], 0),
    reverse=True)] and the same without [reverse]. *)
Definition sort_descending (game : Game) (heuristic : HeuristicFunction)
           (l : list (Action * State)) : list (Action * State) :=
  stable_sort (fun x y => ext_leb (heuristic game (snd y) 0%nat)
                                  (heuristic game (snd x) 0%nat)) l.

Definition sort_ascending (game : Game) (heuristic : HeuristicFunction)
           (l : list (Action * State)) : list (Action * State) :=
  stable_sort (fun x y => ext_leb (heuristic game (snd x) 0%nat)
                                  (heuristic game (snd y) 0%nat)) l.

Fixpoint alphabeta_ordered_decision (game : Game)
         (heuristic : HeuristicFunction)
         (fuel : nat) (state : State) (depth : Z) (alpha beta : ext)
  : Result :=
  match fuel with
  | O => OutOfFuel
  | S fuel' =>
      let '(terminal, values) := is_terminal game state in
      if terminal then
        match values with
        | v :: _ => Value (v, None)
        | [] => IndexError
        end
      else if Z.eqb depth 0 then Value (heuristic game state 0%nat, None)
      else
        let agent := get_turn game state in
        if Nat.eqb agent 0
        then ab_max_loop
               (fun s =>
                  alphabeta_ordered_decision game heuristic fuel' s (depth - 1))
               (sort_descending game heuristic (actions_states game state))
               NegInf None alpha beta
        else ab_min_loop
               (fun s =>
                  alphabeta_ordered_decision game heuristic fuel' s (depth - 1))
               (sort_ascending game heuristic (actions_states game state))
               PosInf None alpha beta
  end.

Definition alphabeta_with_move_ordering (game : Game) (fuel : nat)
           (state : State) (heuristic : HeuristicFunction) (max_depth : Z)
  : Result :=
  alphabeta_ordered_decision game heuristic fuel state max_depth NegInf PosInf.

End Games.

Arguments Game : clear implicits.
Arguments HeuristicFunction : clear implicits.
Arguments Result : clear implicits.

(** The order on values as propositions. *)
Definition ext_lt (x y : ext) : Prop := ext_ltb x y = true.
Definition ext_le (x y : ext) : Prop := ext_ltb y x = false.

End Games.


(** [window v v' alpha beta]: what a search with the window
    [(alpha, beta)] may answer, [v'], when the full search answers [v]. *)
Definition window (v v' alpha beta : Games.ext) : Prop :=
  (Games.ext_le v alpha -> Games.ext_le v' alpha)
  /\ (Games.ext_le beta v -> Games.ext_le beta v')
  /\ (Games.ext_lt alpha v -> Games.ext_lt v beta -> v' = v).

(** The loop states of [max_value] in [minimax] ([m], [b]) and in
    [alphabeta] ([m'], [b'], [alpha']) after the same successors: either
    they agree, or both values are at most the [alpha] the loop started
    with. *)
Definition max_related {Action : Type} (alpha m : Games.ext)
           (b : option Action) (m' : Games.ext) (b' : option Action)
           (alpha' : Games.ext) : Prop :=
  (m' = m /\ b' = b /\ alpha' = Games.ext_max alpha m)
  \/ (Games.ext_le m alpha /\ Games.ext_le m' alpha /\ alpha' = alpha
      /\ alpha <> Games.NegInf).

Definition min_related {Action : Type} (beta m : Games.ext)
           (b : option Action) (m' : Games.ext) (b' : option Action)
           (beta' : Games.ext) : Prop :=
  (m' = m /\ b' = b /\ beta' = Games.ext_min beta m)
  \/ (Games.ext_le beta m /\ Games.ext_le beta m' /\ beta' = beta
      /\ beta <> Games.PosInf).

(** Where the window does not cut the answer [v]. *)
Definition inside (v alpha beta : Games.ext) : Prop :=
  (Games.ext_lt alpha v \/ alpha = Games.NegInf)
  /\ (Games.ext_lt v beta \/ beta = Games.PosInf).


(** A two-ply game tree: state 0 is a max node, states 1 and 2 are min
    nodes, states 3 to 6 are leaves. *)
Definition tree_game : Games.Game nat nat :=
  {| Games.get_turn := fun s => if Nat.eqb s 0 then 0%nat else 1%nat;
     Games.is_terminal := fun s =>
       if Nat.ltb s 3 then (false, [])
       else (true, [Games.Fin (match s with
                               | 3%nat => 3
                               | 4%nat => 5
                               | 5%nat => 2
                               | _ => 9
                               end)]);
     Games.get_actions := fun s => if Nat.ltb s 3 then [1%nat; 2%nat] else [];
     Games.get_successor := fun s a => (2 * s + a)%nat |}.

Definition tree_heuristic : Games.HeuristicFunction nat nat :=
  fun _ s _ => Games.Fin (Z.of_nat s).


(** ** Assignment 0: palindrome check and Caesar decipher

    A Python string is modelled by the list of its code points.
    [palindrome_check] recurses on [string[1:-1]], one stack frame for
    every two characters; the model carries the number of frames that the
    recursion limit leaves. *)

Module Strings.

(** What a call of [palindrome_check] does: it returns a boolean, or it
    raises [RecursionError] because the interpreter's recursion limit
    leaves it no stack frame. *)
Inductive result := Returns (b : bool) | RecursionError.

(** [frames] is the number of stack frames that the recursion limit of the
    interpreter (1000 by default, less the frames in use) leaves to the
    call: every nested call takes one, and a call for which none is left
    raises.  [string[0] == string[-1]] and [string[1:-1]] are written for
    a non-empty string. *)
Fixpoint palindrome_check (frames : nat) (string : list Z) : result :=
  match frames with
  | O => RecursionError
  | Datatypes.S frames' =>
      match string with
      | [] => Returns true
      | first :: _ =>
          if Z.eqb first (List.last string first)
          then palindrome_check frames' (removelast (tail string))
          else Returns false
      end
  end.

(** The code points for which [str.isspace] holds; [str.split()] splits at
    runs of them. *)
Definition is_space (c : Z) : bool :=
  ((9 <=? c) && (c <=? 13)) || ((28 <=? c) && (c <=? 32))
  || (c =? 133) || (c =? 160) || (c =? 5760)
  || ((8192 <=? c) && (c <=? 8202))
  || (c =? 8232) || (c =? 8233) || (c =? 8239) || (c =? 8287)
  || (c =? 12288).

(** [text.split()]: [word] is the current word, reversed. *)
Fixpoint split_from (word : list Z) (text : list Z) : list (list Z) :=
  match text with
  | [] => match word with [] => [] | _ => [rev word] end
  | c :: text' =>
      if is_space c
      then match word with
           | [] => split_from [] text'
           | _ => rev word :: split_from [] text'
           end
      else split_from (c :: word) text'
  end.

Definition split (text : list Z) : list (list Z) := split_from [] text.

(** The body of the inner loop: [' '] is 32 and ['a'] is 97. *)
Definition decipher_char (shift : Z) (char : Z) : Z :=
  if negb (Z.eqb char 32) then 97 + (char - 97 - shift) mod 26 else char.

Definition decipher (ciphered : list Z) (shift : Z) : list Z :=
  map (decipher_char shift) ciphered.

(** [sum(1 for word in deciphered_text.split() if word not in dict_set)] *)
Definition count_not_in_dict (dictionary : list (list Z))
           (deciphered_text : list Z) : Z :=
  Z.of_nat (length (filter (fun word => word ∉ dictionary)
                           (split deciphered_text))).

Definition DechiperResult : Type := list Z * Z * Z.

Definition caesar_step (ciphered : list Z) (dictionary : list (list Z))
           (best : DechiperResult) (shift : Z) : DechiperResult :=
  let '(best_deciphered_text, best_shift, best_num_not_in_dict) := best in
  let deciphered_text := decipher ciphered shift in
  let num_not_in_dict := count_not_in_dict dictionary deciphered_text in
  if Z.ltb num_not_in_dict best_num_not_in_dict
  then (deciphered_text, shift, num_not_in_dict)
  else best.

(** [range(1, 26)] *)
Definition shifts : list Z := map Z.of_nat (seq 1 25).

Definition caesar_dechiper (ciphered : list Z) (dictionary : list (list Z))
  : DechiperResult :=
  fold_left (caesar_step ciphered dictionary) shifts
            ([], 0, Z.of_nat (length (split ciphered))).

End Strings.


(** ** The Sokoban heuristics (Assignment 1 - Search/sokoban_heuristic.py)

    The modules [mathutils] and [sokoban] are not part of the sources; the
    model takes from their names that a [Point] is a pair of integers added
    componentwise, that [manhattan_distance] is the sum of the absolute
    differences of the coordinates, and that a state has a player, crates
    and a layout with walkable cells and goals.  The crates and the goals
    are listed in the order in which the code iterates over them. *)

Module Sokoban.

Definition Point : Type := Z * Z.

Definition point_add (p q : Point) : Point := (fst p + fst q, snd p + snd q).

Definition manhattan_distance (p q : Point) : Z :=
  Z.abs (fst p - fst q) + Z.abs (snd p - snd q).

Record SokobanLayout := {
  walkable : gset Point;
  goals : list Point
}.

Record SokobanState := {
  layout : SokobanLayout;
  player : Point;
  crates : list Point
}.

Inductive error := ValueError | UnboundLocalError.

(** [float('inf')] or an integer. *)
Inductive value := Inf | Num (z : Z).

(** [min(...)] of integers; it raises [ValueError] on an empty sequence. *)
Definition py_min (l : list Z) : option Z :=
  match l with
  | [] => None
  | x :: l' => Some (fold_left Z.min l' x)
  end.

Definition weak_heuristic {Problem : Type} (problem : Problem)
           (state : SokobanState) : error + Z :=
  match py_min (map (manhattan_distance (player state)) (crates state)) with
  | None => inl ValueError
  | Some m => inr (m - 1)
  end.

Definition is_corner (crate : Point) (state : SokobanState) : bool :=
  let corners := [(1, 1); (-1, 1); (1, -1); (-1, -1)] in
  forallb (fun corner =>
             bool_decide (point_add crate corner ∉ walkable (layout state)))
          corners.

(** The loop that looks for the nearest goal: [nearest_distance] starts at
    infinity ([None]) and [nearest_goal] is unbound ([None]) until the first
    goal is seen. *)
Definition nearest_step (crate : Point) (st : option Z * option Point)
           (goal : Point) : option Z * option Point :=
  let m_distance := manhattan_distance crate goal in
  match fst st with
  | None => (Some m_distance, Some goal)
  | Some nearest_distance =>
      if Z.ltb m_distance nearest_distance
      then (Some m_distance, Some goal)
      else st
  end.

Definition nearest (crate : Point) (state : SokobanState)
  : option Z * option Point :=
  fold_left (nearest_step crate) (goals (layout state)) (None, None).

(** One of the four [if]s: reading [nearest_goal] raises when it is unbound. *)
Definition wall_check (wall : bool) (nearest_goal : option Point)
           (away : Point -> bool) (rest : error + bool) : error + bool :=
  if wall then
    match nearest_goal with
    | None => inl UnboundLocalError
    | Some goal => if away goal then inr true else rest
    end
  else rest.

Definition is_adjacent_to_wall_and_not_to_goal (crate : Point)
           (state : SokobanState) : error + bool :=
  let nearest_goal := snd (nearest crate state) in
  let wall d := bool_decide (point_add crate d ∉ walkable (layout state)) in
  wall_check (wall (1, 0)) nearest_goal (fun g => Z.ltb (fst g) (fst crate))
    (wall_check (wall (-1, 0)) nearest_goal
       (fun g => Z.ltb (fst crate) (fst g))
       (wall_check (wall (0, 1)) nearest_goal
          (fun g => Z.ltb (snd g) (snd crate))
          (wall_check (wall (0, -1)) nearest_goal
             (fun g => Z.ltb (snd crate) (snd g))
             (inr false)))).

Definition squares (crate : Point) : list (list Point) :=
  let '(x, y) := crate in
  [ [(x, y); (x + 1, y); (x, y + 1); (x + 1, y + 1)];
    [(x - 1, y); (x, y); (x - 1, y + 1); (x, y + 1)];
    [(x, y - 1); (x + 1, y - 1); (x, y); (x + 1, y)];
    [(x - 1, y - 1); (x, y - 1); (x - 1, y); (x, y)] ].

(** [count_crates + count_walls] after the inner loop over a square. *)
Definition count_blocked (state : SokobanState) (s : list Point) : Z :=
  fold_left (fun count point =>
               if bool_decide (point ∈ crates state) then count + 1
               else if bool_decide (point ∉ walkable (layout state))
                    then count + 1
                    else count)
            s 0.

Definition is_blocked_by_crates_or_wall (crate : Point)
           (state : SokobanState) : bool :=
  existsb (fun s => Z.eqb (count_blocked state s) 4) (squares crate).

Fixpoint is_deadlock_from (state : SokobanState) (l : list Point)
  : error + bool :=
  match l with
  | [] => inr false
  | crate :: rest =>
      if bool_decide (crate ∈ goals (layout state))
      then is_deadlock_from state rest
      else if is_corner crate state then inr true
      else match is_adjacent_to_wall_and_not_to_goal crate state with
           | inl e => inl e
           | inr true => inr true
           | inr false =>
               if is_blocked_by_crates_or_wall crate state then inr true
               else is_deadlock_from state rest
           end
  end.

Definition is_deadlock (state : SokobanState) : error + bool :=
  is_deadlock_from state (crates state).

(** [for crate in state.crates: result += min(...)] *)
Fixpoint sum_nearest_goal (state : SokobanState) (l : list Point)
         (result : Z) : error + Z :=
  match l with
  | [] => inr result
  | crate :: rest =>
      match py_min (map (manhattan_distance crate) (goals (layout state))) with
      | None => inl ValueError
      | Some m => sum_nearest_goal state rest (result + m)
      end
  end.

Definition strong_heuristic {Problem : Type} (problem : Problem)
           (state : SokobanState) : error + value :=
  match is_deadlock state with
  | inl e => inl e
  | inr true => inr Inf
  | inr false =>
      match sum_nearest_goal state (crates state) 0 with
      | inl e => inl e
      | inr result =>
          match py_min (map (manhattan_distance (player state))
                            (crates state)) with
          | None => inl ValueError
          | Some m => inr (Num (result + (m - 1)))
          end
      end
  end.

End Sokoban.

(** A room of five by five walkable cells with one goal. *)
Definition room_layout : Sokoban.SokobanLayout :=
  {| Sokoban.walkable :=
       list_to_set (x ← seqZ 0 5; y ← seqZ 0 5; [(x, y)]);
     Sokoban.goals := [(3, 2)] |}.

Definition room_state (crate : Sokoban.Point) : Sokoban.SokobanState :=
  {| Sokoban.layout := room_layout;
     Sokoban.player := (1, 2);
     Sokoban.crates := [crate] |}.


(** ** The snake environment (Assignment 3 - Reinforcement Learning/snake.py)

    [step], [reset] and [generate_random_apple] update the environment
    object; the model passes the environment in and returns the updated
    one.  The random generator of [helpers.mt19937] is not part of the
    sources: it is a parameter, [seed] and [choice], and [choice] returns
    [None] where the generator raises.  [None] as a result of a function
    of the model stands for an exception ([IndexError] on an empty snake,
    [ZeroDivisionError] on an empty grid, or one raised by [choice]). *)

Module Snake.

Inductive Direction := RIGHT | UP | LEFT | DOWN | NONE.

Definition Point : Type := Z * Z.

Record SnakeObservation := {
  obs_snake : list Point;
  obs_direction : Direction;
  obs_apple : option Point
}.

Section Snake.
Context {Rng : Type}.
Context (seed : Rng -> Z -> Rng).
Context (choice : Rng -> list Point -> option (Point * Rng)).

Record SnakeEnv := {
  rng : Rng;
  width : Z;
  height : Z;
  snake : list Point;
  direction : Direction;
  apple : option Point
}.

Definition observe (self : SnakeEnv) : SnakeObservation :=
  {| obs_snake := snake self;
     obs_direction := direction self;
     obs_apple := apple self |}.

(** [range(n)] *)
Definition range (n : Z) : list Z := seqZ 0 n.

Definition possible_points (self : SnakeEnv) : list Point :=
  x ← range (width self);
  y ← range (height self);
  if bool_decide ((x, y) ∉ snake self) then [(x, y)] else [].

Definition generate_random_apple (self : SnakeEnv)
  : option (SnakeEnv * Point) :=
  match choice (rng self) (possible_points self) with
  | None => None
  | Some (point, rng') =>
      Some ({| rng := rng'; width := width self; height := height self;
               snake := snake self; direction := direction self;
               apple := apple self |}, point)
  end.

Definition reset (self : SnakeEnv) (seed_value : option Z)
  : option (SnakeEnv * SnakeObservation) :=
  let rng1 := match seed_value with
              | Some s => seed (rng self) s
              | None => rng self
              end in
  let x := width self / 2 in
  let y := height self / 2 in
  let self1 := {| rng := rng1; width := width self; height := height self;
                  snake := [(x, y)]; direction := LEFT;
                  apple := apple self |} in
  match generate_random_apple self1 with
  | None => None
  | Some (self2, point) =>
      let self3 := {| rng := rng self2; width := width self2;
                      height := height self2; snake := snake self2;
                      direction := direction self2;
                      apple := Some point |} in
      Some (self3, observe self3)
  end.

Definition actions (self : SnakeEnv) : list Direction :=
  match direction self with
  | UP | DOWN => [NONE; LEFT; RIGHT]
  | _ => [NONE; UP; DOWN]
  end.

(** [%] raises [ZeroDivisionError] when the divisor is 0. *)
Definition py_mod (a b : Z) : option Z :=
  if Z.eqb b 0 then None else Some (a mod b).

Definition move_to (self : SnakeEnv) (head : Point) (d : Direction)
  : option Point :=
  match d with
  | RIGHT => x ← py_mod (fst head + 1) (width self); Some (x, snd head)
  | UP => y ← py_mod (snd head - 1) (height self); Some (fst head, y)
  | LEFT | NONE => x ← py_mod (fst head - 1) (width self); Some (x, snd head)
  | DOWN => y ← py_mod (snd head + 1) (height self); Some (fst head, y)
  end.

Definition move_snake (self : SnakeEnv) (action : Direction)
  : option Point :=
  match snake self with
  | [] => None
  | head :: _ =>
      match action with
      | NONE => move_to self head (direction self)
      | _ => move_to self head action
      end
  end.

Definition set_direction (self : SnakeEnv) (action : Direction) : SnakeEnv :=
  match action with
  | NONE => self
  | _ => {| rng := rng self; width := width self; height := height self;
            snake := snake self; direction := action;
            apple := apple self |}
  end.

Definition step (self : SnakeEnv) (action : Direction)
  : option (SnakeEnv * (SnakeObservation * Z * bool)) :=
  match move_snake self action with
  | None => None
  | Some new_head =>
      if bool_decide (new_head ∈ tail (snake self)) then
        let self' := set_direction self action in
        Some (self', (observe self', -100, true))
      else
        let snake1 := new_head :: snake self in
        let done := Z.eqb (Z.of_nat (length snake1))
                          (width self * height self) in
        let reward := if done then 0 + 100 else 0 in
        if bool_decide (Some new_head = apple self) then
          let self1 := {| rng := rng self; width := width self;
                          height := height self; snake := snake1;
                          direction := direction self;
                          apple := apple self |} in
          if negb done then
            match generate_random_apple self1 with
            | None => None
            | Some (self2, point) =>
                let self3 := {| rng := rng self2; width := width self2;
                                height := height self2;
                                snake := snake self2;
                                direction := direction self2;
                                apple := Some point |} in
                let self' := set_direction self3 action in
                Some (self', (observe self', reward + 1, done))
            end
          else
            let self' := set_direction self1 action in
            Some (self', (observe self', reward + 1, done))
        else
          let self1 := {| rng := rng self; width := width self;
                          height := height self;
                          snake := removelast snake1;
                          direction := direction self;
                          apple := apple self |} in
          let self' := set_direction self1 action in
          Some (self', (observe self', reward, done))
  end.

End Snake.

Arguments SnakeEnv : clear implicits.

(** The cells of the grid. *)
Definition in_grid {Rng : Type} (self : SnakeEnv Rng) (p : Point) : Prop :=
  0 <= fst p < width self /\ 0 <= snd p < height self.

(** What [reset] establishes and [step] keeps while the game is on. *)
Record snake_ok {Rng : Type} (self : SnakeEnv Rng) : Prop := {
  ok_width : 2 <= width self;
  ok_height : 2 <= height self;
  ok_nonempty : snake self <> [];
  ok_nodup : NoDup (snake self);
  ok_in_grid : forall p, p ∈ snake self -> in_grid self p
}.

Definition apple_ok {Rng : Type} (self : SnakeEnv Rng) : Prop :=
  exists a, apple self = Some a /\ a ∉ snake self /\ in_grid self a.

(** All the cells of a grid. *)
Definition cells (w h : Z) : list Point :=
  x ← seqZ 0 w; y ← seqZ 0 h; [(x, y)].

(** A generator that always picks the first of the points. *)
Definition first_choice (r : unit) (l : list Point)
  : option (Point * unit) :=
  match l with
  | [] => None
  | p :: _ => Some (p, r)
  end.

End Snake.

(** A three by three grid with a snake of one cell next to the apple. *)
Definition small_snake : Snake.SnakeEnv unit :=
  {| Snake.rng := tt; Snake.width := 3; Snake.height := 3;
     Snake.snake := [(1, 1)]; Snake.direction := Snake.LEFT;
     Snake.apple := Some (0, 1) |}.


(** ** What an iteration of a priority search does with the heap *)

(** [h'] is the heap [h] without its item [m], followed by the items
    [pushed] since, whose counters start at [count]. *)
Definition popped_and_pushed {E : Type} (ticket : E -> nat) (count : nat)
           (h h' : list E) (m : E) : Prop :=
  exists pushed,
    h' = heap_remove ticket (ticket m) h ++ pushed
    /\ forall x, x ∈ pushed -> (count <= ticket x)%nat.

(** The outcome [o] of an iteration started in the loop state [st]: on an
    empty heap it returns [None]; otherwise it takes the item [m] of the
    heap that [popped_first] describes, and either returns the actions of
    [m], whose state is a goal, or continues with the heap without [m] and
    with the nodes pushed in this iteration. *)
Definition takes_first {State Action St E : Type}
           (problem : Problem State Action)
           (priority : E -> Z) (ticket : E -> nat)
           (node : E -> State) (actions : E -> list Action)
           (frontier : St -> list E) (count : St -> nat) (st : St)
           (o : outcome (call State Action) St (@Solution Action)) : Prop :=
  match o with
  | Return None _ => frontier st = []
  | Return (Some p) _ =>
      exists m,
        popped_first priority ticket (frontier st) m
        /\ is_goal problem (node m) = true
        /\ p = actions m
  | Running st' =>
      exists m,
        popped_first priority ticket (frontier st) m
        /\ is_goal problem (node m) = false
        /\ popped_and_pushed ticket (count st) (frontier st) (frontier st') m
  end.


(** ** Facts about loops *)

Section LoopFacts.
Context {Call St R : Type}.
Variable step : St -> outcome Call St R.
Variable Inv : St -> Prop.
Hypothesis Inv_step : forall st st', Inv st -> step st = Running st' -> Inv st'.

Lemma iterate_invariant fuel st0 st :
  Inv st0 -> iterate step fuel st0 = Running st -> Inv st.
Proof.
  revert st0. induction fuel as [|fuel IH]; intros st0 H0 Hrun; simpl in Hrun.
  - congruence.
  - destruct (step st0) as [r c|st1] eqn:Hs; [discriminate|]. eauto.
Qed.

Lemma iterate_return fuel st0 r calls :
  Inv st0 -> iterate step fuel st0 = Return r calls ->
  exists st, Inv st /\ step st = Return r calls.
Proof.
  revert st0. induction fuel as [|fuel IH]; intros st0 H0 Hrun; simpl in Hrun.
  - discriminate.
  - destruct (step st0) as [r' c'|st1] eqn:Hs.
    + exists st0. split; [done|congruence].
    + eauto.
Qed.

Lemma iterate_more fuel fuel' st0 r calls :
  iterate step fuel st0 = Return r calls -> (fuel <= fuel')%nat ->
  iterate step fuel' st0 = Return r calls.
Proof.
  revert fuel' st0. induction fuel as [|fuel IH]; intros fuel' st0 Hrun Hle;
    simpl in Hrun; [discriminate|].
  destruct fuel' as [|fuel']; [lia|]. simpl.
  destruct (step st0) as [r' c'|st1]; [done|]. apply IH; [done|lia].
Qed.

Lemma iterate_add n m st0 :
  iterate step (n + m) st0
  = match iterate step n st0 with
    | Return r calls => Return r calls
    | Running st => iterate step m st
    end.
Proof.
  revert st0. induction n as [|n IH]; intros st0; simpl; [done|].
  destruct (step st0) as [r c|st1]; [done|]. apply IH.
Qed.

Lemma iterate_never_returns (J : St -> Prop) fuel st0 :
  (forall st, J st -> exists st', step st = Running st' /\ J st') ->
  J st0 -> exists st, iterate step fuel st0 = Running st /\ J st.
Proof.
  intros HJ. revert st0. induction fuel as [|fuel IH]; intros st0 H0; simpl.
  - by exists st0.
  - destruct (HJ st0 H0) as (st1 & -> & H1). by apply IH.
Qed.

(** A measure that decreases at every iteration bounds the number of
    iterations. *)
Variable measure : St -> nat.
Hypothesis measure_step :
  forall st st', Inv st -> step st = Running st' -> (measure st' < measure st)%nat.

Lemma iterate_terminates fuel st0 :
  Inv st0 -> (measure st0 < fuel)%nat ->
  exists r calls, iterate step fuel st0 = Return r calls.
Proof.
  revert st0. induction fuel as [|fuel IH]; intros st0 H0 Hlt; [lia|].
  simpl. destruct (step st0) as [r c|st1] eqn:Hs; [by eauto|].
  apply IH; [by eauto|]. specialize (measure_step _ _ H0 Hs). lia.
Qed.
End LoopFacts.

Section LoopMap.
Context {Call St St' R X : Type}.
Variable abs : St -> St'.

Lemma for_all_abs (body : X -> St -> St) (body' : X -> St' -> St') xs st :
  (forall x st, body' x (abs st) = abs (body x st)) ->
  for_all body' xs (abs st) = abs (for_all body xs st).
Proof.
  intros Hbody. revert st. induction xs as [|x xs IH]; intros st; [done|].
  simpl. by rewrite Hbody, IH.
Qed.

Variable step : St -> outcome Call St R.
Variable step' : St' -> outcome Call St' R.
Variable Inv : St' -> Prop.
Hypothesis Inv_step :
  forall st st', Inv st -> step' st = Running st' -> Inv st'.
Hypothesis step_abs :
  forall st, Inv (abs st) -> step' (abs st) = outcome_map abs (step st).

Lemma iterate_abs fuel st :
  Inv (abs st) ->
  iterate step' fuel (abs st) = outcome_map abs (iterate step fuel st).
Proof.
  revert st. induction fuel as [|fuel IH]; intros st Hinv; [done|].
  simpl. pose proof (step_abs st Hinv) as Hs.
  destruct (step st) as [r c|st1]; simpl in Hs; rewrite Hs; [done|].
  apply IH. by apply (Inv_step (abs st)).
Qed.
End LoopMap.

Section ForFacts.
Context {St X : Type}.

Lemma for_all_ind (P : list X -> St -> Prop) (body : X -> St -> St) xs st :
  P [] st ->
  (forall pre x st', x ∈ xs -> P pre st' -> P (pre ++ [x]) (body x st')) ->
  P xs (for_all body xs st).
Proof.
  intros H0 Hstep.
  enough (forall post pre st', pre ++ post = xs -> P pre st' ->
            P xs (for_all body post st')) as Hgen by (by apply (Hgen xs [] st)).
  induction post as [|x post IH]; intros pre st' Heq HP; simpl.
  - rewrite app_nil_r in Heq. by subst.
  - apply (IH (pre ++ [x])).
    + by rewrite <- app_assoc.
    + apply Hstep; [|done]. subst xs.
      rewrite elem_of_app, elem_of_cons. auto.
Qed.

Lemma for_each_ind {E} (P : list X -> St -> Prop) (Q : E -> Prop)
      (body : X -> St -> E + St) xs st :
  P [] st ->
  (forall pre x st', x ∈ xs -> P pre st' ->
     match body x st' with inl r => Q r | inr st'' => P (pre ++ [x]) st'' end) ->
  match for_each body xs st with inl r => Q r | inr st' => P xs st' end.
Proof.
  intros H0 Hstep.
  enough (forall post pre st', pre ++ post = xs -> P pre st' ->
            match for_each body post st' with
            | inl r => Q r | inr st'' => P xs st'' end) as Hgen
      by (by apply (Hgen xs [] st)).
  induction post as [|x post IH]; intros pre st' Heq HP; simpl.
  - rewrite app_nil_r in Heq. by subst.
  - assert (x ∈ xs) as Hin
        by (subst xs; rewrite elem_of_app, elem_of_cons; auto).
    specialize (Hstep pre x st' Hin HP).
    destruct (body x st') as [r|st'']; [done|].
    apply (IH (pre ++ [x])); [by rewrite <- app_assoc|done].
Qed.
End ForFacts.

(** ** Facts about the heap *)

Section HeapFacts.
Context {E : Type}.
Variable priority : E -> Z.
Variable ticket : E -> nat.

Abbreviation ltb := (item_ltb priority ticket).

Lemma item_ltb_false x y :
  ltb x y = false <->
  priority y < priority x
  \/ (priority y = priority x /\ (ticket y <= ticket x)%nat).
Proof.
  unfold item_ltb.
  destruct (Z.ltb_spec (priority x) (priority y)),
    (Z.eqb_spec (priority x) (priority y)),
    (Nat.ltb_spec (ticket x) (ticket y)); simpl; split; intros; try done; lia.
Qed.

Lemma item_ltb_true x y :
  ltb x y = true <->
  priority x < priority y
  \/ (priority x = priority y /\ (ticket x < ticket y)%nat).
Proof.
  unfold item_ltb.
  destruct (Z.ltb_spec (priority x) (priority y)),
    (Z.eqb_spec (priority x) (priority y)),
    (Nat.ltb_spec (ticket x) (ticket y)); simpl; split; intros; try done; lia.
Qed.

Lemma heap_min_spec m h :
  let r := heap_min priority ticket m h in
  (r = m \/ r ∈ h) /\ ltb m r = false /\ forall x, x ∈ h -> ltb x r = false.
Proof.
  revert m. induction h as [|y h IH]; intros m; simpl.
  - split; [by left|]. split; [|by intros x Hx; inversion Hx].
    apply item_ltb_false. lia.
  - destruct (IH (if ltb y m then y else m)) as (Hin & Hle & Hall).
    set (r := heap_min priority ticket (if ltb y m then y else m) h) in *.
    destruct (ltb y m) eqn:Hym.
    + split; [destruct Hin as [->|Hin]; right; by constructor|].
      apply item_ltb_true in Hym. apply item_ltb_false in Hle.
      split; [apply item_ltb_false; lia|].
      intros x Hx. apply elem_of_cons in Hx as [->|Hx]; [|by auto].
      apply item_ltb_false; lia.
    + split; [destruct Hin as [->|Hin]; [by left|right; by constructor]|].
      split; [done|].
      apply item_ltb_false in Hym. apply item_ltb_false in Hle.
      intros x Hx. apply elem_of_cons in Hx as [->|Hx]; [|by auto].
      apply item_ltb_false; lia.
Qed.

Lemma heap_remove_elem_of c h x :
  x ∈ heap_remove ticket c h -> x ∈ h.
Proof.
  induction h as [|y h IH]; simpl; [done|].
  destruct (Nat.eqb (ticket y) c); [by constructor|].
  intros [->|Hx]%elem_of_cons; [by left|right; auto].
Qed.

Lemma heap_remove_keeps c h x :
  x ∈ h -> ticket x <> c -> x ∈ heap_remove ticket c h.
Proof.
  induction h as [|y h IH]; simpl; [done|].
  intros [->|Hx]%elem_of_cons Hne.
  - destruct (Nat.eqb_spec (ticket y) c); [done|by left].
  - destruct (Nat.eqb (ticket y) c); [done|right; auto].
Qed.

Lemma heap_remove_length c h x :
  x ∈ h -> ticket x = c ->
  (length (heap_remove ticket c h) + 1 = length h)%nat.
Proof.
  induction h as [|y h IH]; simpl; [by inversion 1|].
  intros [->|Hx]%elem_of_cons Hc.
  - rewrite <- Hc, Nat.eqb_refl. lia.
  - destruct (Nat.eqb (ticket y) c); [lia|]. simpl. rewrite <- IH; [lia|done..].
Qed.

Lemma heap_remove_sorted (R : relation nat) c h :
  StronglySorted R (ticket <$> h) ->
  StronglySorted R (ticket <$> heap_remove ticket c h).
Proof.
  induction h as [|y h IH]; [done|].
  rewrite fmap_cons. intros [Hall Hs]%StronglySorted_cons.
  cbn [heap_remove]. destruct (Nat.eqb (ticket y) c); [done|].
  rewrite fmap_cons. apply StronglySorted_cons. split; [|by auto].
  apply Forall_forall. intros n (x & -> & Hx)%list_elem_of_fmap.
  apply heap_remove_elem_of in Hx.
  rewrite Forall_forall in Hall. apply Hall, list_elem_of_fmap. by exists x.
Qed.

Lemma sorted_tickets_inj h x y :
  StronglySorted lt (ticket <$> h) -> x ∈ h -> y ∈ h ->
  ticket x = ticket y -> x = y.
Proof.
  induction h as [|z h IH]; [by inversion 2|].
  rewrite fmap_cons. intros [Hall Hs]%StronglySorted_cons.
  rewrite Forall_forall in Hall.
  assert (forall u, u ∈ h -> (ticket z < ticket u)%nat) as Hlt
      by (intros u Hu; apply Hall, list_elem_of_fmap; by exists u).
  intros [->|Hx]%elem_of_cons [->|Hy]%elem_of_cons Heq; [done| | |by auto].
  - specialize (Hlt y Hy). lia.
  - specialize (Hlt x Hx). lia.
Qed.

Lemma heap_remove_other h x y :
  StronglySorted lt (ticket <$> h) -> x ∈ h -> y ∈ h -> y <> x ->
  y ∈ heap_remove ticket (ticket x) h.
Proof.
  intros Hs Hx Hy Hne. apply heap_remove_keeps; [done|].
  intros Heq. apply Hne. by apply (sorted_tickets_inj h).
Qed.

Lemma heappop_None h : heappop priority ticket h = None <-> h = [].
Proof. destruct h; simpl; split; done. Qed.

(** [heappop] returns an item of the heap that no item of the heap is
    smaller than, and removes it. *)
Lemma heappop_Some h m rest :
  heappop priority ticket h = Some (m, rest) ->
  m ∈ h
  /\ (forall x, x ∈ h -> ltb x m = false)
  /\ rest = heap_remove ticket (ticket m) h
  /\ (length rest + 1 = length h)%nat.
Proof.
  destruct h as [|y h]; [done|]. unfold heappop.
  intros [= <- <-].
  destruct (heap_min_spec y h) as (Hin & Hle & Hall).
  set (m := heap_min priority ticket y h) in *.
  assert (m ∈ y :: h) as Hm by (destruct Hin as [->|?]; [by left|by right]).
  split; [done|]. split.
  - intros x [->|Hx]%elem_of_cons; auto.
  - split; [done|]. by apply (heap_remove_length (ticket m) (y :: h) m).
Qed.

Lemma heappop_min_priority h m rest x :
  heappop priority ticket h = Some (m, rest) -> x ∈ h ->
  priority m <= priority x.
Proof.
  intros (_ & Hall & _)%heappop_Some Hx.
  specialize (Hall x Hx). apply item_ltb_false in Hall. lia.
Qed.

Lemma elem_of_heappush (h : list E) x y :
  y ∈ heappush h x <-> y ∈ h \/ y = x.
Proof. unfold heappush. by rewrite elem_of_app, list_elem_of_singleton. Qed.
End HeapFacts.

Section HeapMap.
Context {E E' : Type}.
Variable priority : E -> Z.
Variable ticket : E -> nat.
Variable priority' : E' -> Z.
Variable ticket' : E' -> nat.
Variable g : E -> E'.
Hypothesis g_priority : forall x, priority' (g x) = priority x.
Hypothesis g_ticket : forall x, ticket' (g x) = ticket x.

Lemma heap_min_fmap m (h : list E) :
  heap_min priority' ticket' (g m) (g <$> h)
  = g (heap_min priority ticket m h).
Proof.
  revert m. induction h as [|x h IH]; intros m; [done|].
  rewrite fmap_cons. simpl. unfold item_ltb at 1.
  rewrite !g_priority, !g_ticket. fold (item_ltb priority ticket x m).
  destruct (item_ltb priority ticket x m); apply IH.
Qed.

Lemma heap_remove_fmap c (h : list E) :
  heap_remove ticket' c (g <$> h) = g <$> heap_remove ticket c h.
Proof.
  induction h as [|x h IH]; [done|].
  rewrite fmap_cons. simpl. rewrite g_ticket.
  destruct (Nat.eqb (ticket x) c); [done|]. by rewrite fmap_cons, IH.
Qed.

Lemma heappop_fmap (h : list E) :
  heappop priority' ticket' (g <$> h)
  = prod_map g (fmap (M := list) g) <$> heappop priority ticket h.
Proof.
  destruct h as [|x h]; [done|].
  change (heappop priority' ticket' (g <$> x :: h))
    with (Some (heap_min priority' ticket' (g x) (g <$> h),
                heap_remove ticket'
                  (ticket' (heap_min priority' ticket' (g x) (g <$> h)))
                  (g <$> x :: h))).
  by rewrite heap_min_fmap, g_ticket, heap_remove_fmap.
Qed.
End HeapMap.

(** ** Facts about paths *)

Section PathFacts.
Context {State Action : Type} `{Countable State}.
Variable problem : Problem State Action.

Lemma exec_app s p q :
  exec problem s (p ++ q) = exec problem (exec problem s p) q.
Proof. revert s. induction p as [|a p IH]; intros s; simpl; auto. Qed.

Lemma valid_app s p q :
  valid problem s (p ++ q) <->
  valid problem s p /\ valid problem (exec problem s p) q.
Proof.
  revert s. induction p as [|a p IH]; intros s; simpl; [tauto|].
  rewrite IH. tauto.
Qed.

Lemma path_cost_app s p q :
  path_cost problem s (p ++ q) =
  path_cost problem s p + path_cost problem (exec problem s p) q.
Proof.
  revert s. induction p as [|a p IH]; intros s; simpl; [done|].
  rewrite IH. lia.
Qed.

Lemma exec_snoc s p a :
  exec problem s (p ++ [a]) = get_successor problem (exec problem s p) a.
Proof. by rewrite exec_app. Qed.

Lemma valid_snoc s p a :
  valid problem s (p ++ [a]) <->
  valid problem s p /\ a ∈ get_actions problem (exec problem s p).
Proof. rewrite valid_app. simpl. tauto. Qed.

Lemma path_cost_snoc s p a :
  path_cost problem s (p ++ [a]) =
  path_cost problem s p + get_cost problem (exec problem s p) a.
Proof. rewrite path_cost_app. simpl. lia. Qed.

Lemma reachable_refl s : reachable problem s s.
Proof. by exists []. Qed.

Lemma reachable_step s t a :
  reachable problem s t -> a ∈ get_actions problem t ->
  reachable problem s (get_successor problem t a).
Proof.
  intros (p & Hv & He) Ha. exists (p ++ [a]).
  rewrite valid_snoc, exec_snoc, He. done.
Qed.

Lemma expansions_app (c1 c2 : list (call State Action)) :
  expansions (c1 ++ c2) = expansions c1 ++ expansions c2.
Proof.
  induction c1 as [|[s|s a] c1 IH]; simpl; [done| |done]. by rewrite IH.
Qed.
End PathFacts.

(** ** Facts about the priority search *)

Section PsFacts.
Context {State Action : Type} `{Countable State}.
Variable problem : Problem State Action.
Variable node_priority : Z -> State -> Z.
Variable prune : bool.
Variable init : State.

Abbreviation step := (ps_step problem node_priority prune).
Abbreviation body := (ps_body problem node_priority prune).
Abbreviation inv := (ps_inv problem node_priority init).

Lemma pending_work_mono (X Y : gset State) L :
  X ⊆ Y -> (pending_work problem Y L <= pending_work problem X L)%nat.
Proof.
  intros HXY. induction L as [|s L IH]; simpl; [done|].
  destruct (decide (s ∈ X)), (decide (s ∈ Y)); try lia. set_solver.
Qed.

Lemma pending_work_insert (X : gset State) L s :
  s ∈ L -> s ∉ X ->
  (pending_work problem (X ∪ {[ s ]}) L + length (get_actions problem s)
   <= pending_work problem X L)%nat.
Proof.
  intros HL HX. induction L as [|t L IH]; [by inversion HL|]. simpl.
  apply elem_of_cons in HL as [<-|HL].
  - destruct (decide (s ∈ X)); [done|].
    destruct (decide (s ∈ X ∪ {[ s ]})); [|set_solver].
    assert (X ⊆ X ∪ {[ s ]}) as Hsub by set_solver.
    pose proof (pending_work_mono X (X ∪ {[ s ]}) L Hsub). lia.
  - specialize (IH HL).
    destruct (decide (t ∈ X)), (decide (t ∈ X ∪ {[ s ]})); try lia.
    set_solver.
Qed.

Lemma ps_inv_init : inv (ps_init node_priority init).
Proof.
  split; simpl.
  - intros x Hx. apply list_elem_of_singleton in Hx as ->.
    unfold ps_actions, ps_node, ps_cost, ps_priority, ps_ticket. simpl.
    repeat split; try done; lia.
  - repeat constructor.
  - set_solver.
  - set_solver.
  - constructor.
Qed.

(** The [for] loop over the actions of an expanded state. *)
Lemma ps_expand cost state actions st1 :
  valid problem init actions -> exec problem init actions = state ->
  path_cost problem init actions = cost -> inv st1 ->
  let st2 := for_all (body cost state actions)
               (get_actions problem state) st1 in
  inv st2
  /\ ps_explored st2 = ps_explored st1
  /\ expansions (ps_calls st2) = expansions (ps_calls st1)
  /\ (length (ps_frontier st2)
      <= length (ps_frontier st1) + length (get_actions problem state))%nat
  /\ (forall x, x ∈ ps_frontier st1 -> x ∈ ps_frontier st2)
  /\ (forall a, a ∈ get_actions problem state ->
        get_successor problem state a ∈ ps_explored st1
        \/ exists x, x ∈ ps_frontier st2
              /\ ps_node x = get_successor problem state a
              /\ ps_cost x = cost + get_cost problem state a).
Proof.
  intros Hv He Hc Hinv.
  apply (for_all_ind
    (fun pre st' =>
       inv st'
       /\ ps_explored st' = ps_explored st1
       /\ expansions (ps_calls st') = expansions (ps_calls st1)
       /\ (length (ps_frontier st')
           <= length (ps_frontier st1) + length pre)%nat
       /\ (forall x, x ∈ ps_frontier st1 -> x ∈ ps_frontier st')
       /\ (forall a, a ∈ pre ->
             get_successor problem state a ∈ ps_explored st1
             \/ exists x, x ∈ ps_frontier st'
                   /\ ps_node x = get_successor problem state a
                   /\ ps_cost x = cost + get_cost problem state a))).
  - do 5 (split; [done || (simpl; lia)|]).
    intros a Ha. by inversion Ha.
  - intros pre a st' Ha (Hi & Hex & Hcalls & Hlen & Hold & Hnew).
    unfold ps_body.
    destruct (prune && bool_decide (get_successor problem state a
                                    ∈ ps_explored st')) eqn:Hskip.
    + apply andb_true_iff in Hskip as [_ Hskip].
      apply bool_decide_eq_true in Hskip.
      split; [|split; [done|split; [|split; [|split; [done|]]]]]; simpl.
      * destruct Hi as [Hitems Hsorted Hexp Hexd Hnd].
        split; simpl; try done.
        -- intros s. rewrite expansions_app. simpl. rewrite app_nil_r. auto.
        -- rewrite expansions_app. simpl. by rewrite app_nil_r.
      * rewrite expansions_app. simpl. by rewrite app_nil_r.
      * rewrite length_app. simpl. lia.
      * intros a' [Ha'|Ha']%elem_of_app; [by auto|].
        apply list_elem_of_singleton in Ha' as ->. left. by rewrite <- Hex.
    + clear Hskip.
      split; [|split; [done|split; [|split; [|split]]]]; simpl.
      * destruct Hi as [Hitems Hsorted Hexp Hexd Hnd].
        split; simpl.
        -- intros x [Hx| ->]%elem_of_heappush.
           ++ destruct (Hitems x Hx) as (?&?&?&?&?). repeat split; try done. lia.
           ++ unfold ps_actions, ps_node, ps_cost, ps_priority, ps_ticket.
              simpl. rewrite valid_snoc, exec_snoc, path_cost_snoc, He, Hc.
              repeat split; try done. lia.
        -- unfold heappush. rewrite fmap_app. apply StronglySorted_app.
           split; [|split; [done|repeat constructor]].
           intros n1 n2 Hn1 Hn2. simpl in Hn2.
           apply list_elem_of_singleton in Hn2 as ->.
           apply list_elem_of_fmap in Hn1 as (x & -> & Hx).
           by destruct (Hitems x Hx) as (?&?&?&?&?).
        -- done.
        -- intros s. rewrite expansions_app. simpl. rewrite app_nil_r. auto.
        -- rewrite expansions_app. simpl. by rewrite app_nil_r.
      * rewrite expansions_app. simpl. by rewrite app_nil_r.
      * unfold heappush. rewrite !length_app. simpl. lia.
      * intros x Hx. apply elem_of_heappush. auto.
      * intros a' [Ha'|Ha']%elem_of_app.
        -- destruct (Hnew a' Ha') as [?|(x & Hx & ? & ?)]; [by left|].
           right. exists x. split; [|done]. apply elem_of_heappush. auto.
        -- apply list_elem_of_singleton in Ha' as ->. right.
           eexists. split; [apply elem_of_heappush; by right|]. done.
Qed.
Abbreviation expanded := (ps_expanded problem node_priority prune).

Lemma ps_step_cases st :
  (ps_frontier st = [] /\ step st = Return None (ps_calls st))
  \/ exists x rest,
      heappop ps_priority ps_ticket (ps_frontier st) = Some (x, rest)
      /\ ((is_goal problem (ps_node x) = true
           /\ step st = Return (Some (ps_actions x)) (ps_calls st))
          \/ (is_goal problem (ps_node x) = false
              /\ ps_node x ∉ ps_explored st
              /\ step st = Running (expanded st x rest))
          \/ (is_goal problem (ps_node x) = false
              /\ ps_node x ∈ ps_explored st
              /\ step st = Running (ps_discarded st rest))).
Proof.
  unfold ps_step.
  destruct (heappop ps_priority ps_ticket (ps_frontier st))
    as [[x rest]|] eqn:Hpop.
  - right. exists x, rest. split; [done|].
    destruct x as [[[[k n] g] s] p].
    unfold ps_node, ps_actions, ps_cost, ps_expanded, ps_popped. simpl.
    destruct (is_goal problem s) eqn:Hg; [by left|right].
    destruct (decide (s ∉ ps_explored st)) as [Hs|Hs]; [by left|right].
    split; [done|]. split; [|done].
    by destruct (decide (s ∈ ps_explored st)).
  - left. by apply heappop_None in Hpop.
Qed.

Lemma ps_popped_inv st x rest :
  inv st ->
  heappop ps_priority ps_ticket (ps_frontier st) = Some (x, rest) ->
  is_goal problem (ps_node x) = false -> ps_node x ∉ ps_explored st ->
  inv (ps_popped st x rest).
Proof.
  intros [Hitems Hsorted Hexp Hexd Hnd] Hpop Hg Hx.
  apply heappop_Some in Hpop as (Hin & Hmin & -> & Hlen).
  split; simpl.
  - intros y Hy%heap_remove_elem_of. auto.
  - by apply heap_remove_sorted.
  - intros s [Hs| ->%elem_of_singleton]%elem_of_union; [by auto|].
    split; [done|]. destruct (Hitems x Hin) as (?&?&_). by eexists.
  - intros s. rewrite expansions_app, elem_of_union, elem_of_app. simpl.
    rewrite elem_of_singleton, list_elem_of_singleton, Hexd. done.
  - rewrite expansions_app. simpl. apply NoDup_app.
    split; [done|]. split; [|apply NoDup_singleton].
    intros s Hs ->%list_elem_of_singleton. by apply Hx, Hexd.
Qed.

Lemma ps_step_inv st st' : inv st -> step st = Running st' -> inv st'.
Proof.
  intros Hinv Hstep.
  destruct (ps_step_cases st) as [[_ Hs]|(x & rest & Hpop & Hcase)];
    [congruence|].
  destruct Hcase as [(_ & Hs)|[(Hg & Hx & Hs)|(Hg & Hx & Hs)]];
    [congruence| |]; rewrite Hs in Hstep; injection Hstep as <-.
  - pose proof (ps_popped_inv _ _ _ Hinv Hpop Hg Hx) as Hp.
    pose proof Hpop as (Hin & _)%heappop_Some.
    destruct Hinv as [Hitems _ _ _ _].
    destruct (Hitems x Hin) as (Hv & He & Hc & _).
    by destruct (ps_expand _ _ _ _ Hv He Hc Hp) as (? & _).
  - destruct Hinv as [Hitems Hsorted Hexp Hexd Hnd].
    apply heappop_Some in Hpop as (Hin & Hmin & -> & Hlen).
    split; simpl; try done.
    + intros y Hy%heap_remove_elem_of. auto.
    + by apply heap_remove_sorted.
Qed.

Lemma ps_step_measure L st st' :
  (forall s, reachable problem init s -> s ∈ L) ->
  inv st -> step st = Running st' ->
  (ps_measure problem L st' < ps_measure problem L st)%nat.
Proof.
  intros HL Hinv Hstep. unfold ps_measure.
  destruct (ps_step_cases st) as [[_ Hs]|(x & rest & Hpop & Hcase)];
    [congruence|].
  destruct Hcase as [(_ & Hs)|[(Hg & Hx & Hs)|(Hg & Hx & Hs)]];
    [congruence| |]; rewrite Hs in Hstep; injection Hstep as <-.
  - pose proof (ps_popped_inv _ _ _ Hinv Hpop Hg Hx) as Hp.
    pose proof Hpop as (Hin & _ & _ & Hlen)%heappop_Some.
    destruct Hinv as [Hitems _ _ _ _].
    destruct (Hitems x Hin) as (Hv & He & Hc & _).
    destruct (ps_expand _ _ _ _ Hv He Hc Hp) as (_ & Hex & _ & Hle & _).
    fold (expanded st x rest) in Hex, Hle. rewrite Hex.
    simpl in *.
    assert (ps_node x ∈ L) as HxL by (apply HL; by eexists).
    pose proof (pending_work_insert (ps_explored st) L _ HxL Hx). lia.
  - apply heappop_Some in Hpop as (_ & _ & _ & Hlen). simpl. lia.
Qed.

Lemma ps_step_return st r calls :
  inv st -> step st = Return r calls ->
  calls = ps_calls st
  /\ match r with
     | None => ps_frontier st = []
     | Some p =>
         solves problem init p
         /\ exists x rest,
             heappop ps_priority ps_ticket (ps_frontier st) = Some (x, rest)
             /\ ps_actions x = p /\ is_goal problem (ps_node x) = true
     end.
Proof.
  intros Hinv Hstep.
  destruct (ps_step_cases st) as [[Hnil Hs]|(x & rest & Hpop & Hcase)].
  - rewrite Hs in Hstep. by injection Hstep as <- <-.
  - destruct Hcase as [(Hg & Hs)|[(Hg & Hx & Hs)|(Hg & Hx & Hs)]];
      [|congruence..].
    rewrite Hs in Hstep. injection Hstep as <- <-. split; [done|].
    pose proof Hpop as (Hin & _)%heappop_Some.
    destruct Hinv as [Hitems _ _ _ _].
    destruct (Hitems x Hin) as (Hv & He & Hc & _).
    split; [split; [done|by rewrite He]|]. by exists x, rest.
Qed.

(** With all reachable states in the list [L], the priority search
    returns. *)
Lemma ps_terminates L st :
  (forall s, reachable problem init s -> s ∈ L) -> inv st ->
  exists r calls,
    iterate step (Datatypes.S (ps_measure problem L st)) st
    = Return r calls.
Proof.
  intros HL Hinv.
  apply (iterate_terminates step inv ps_step_inv (ps_measure problem L));
    [|done|lia].
  intros st1 st2 H1 H2. by apply ps_step_measure.
Qed.
End PsFacts.

(** ** Optimality of the priority search

    The priority of a node is its cost plus an estimate [h] of its state
    that is consistent and zero on goals. *)

Section PsOptimal.
Context {State Action : Type} `{Countable State}.
Variable problem : Problem State Action.
Variable h : State -> Z.
Variable prune : bool.
Variable init : State.

Hypothesis h_consistent : forall s a,
  a ∈ get_actions problem s ->
  h s <= get_cost problem s a + h (get_successor problem s a).
Hypothesis h_goal : forall s, is_goal problem s = true -> h s = 0.

Abbreviation f := (fun (g : Z) (s : State) => g + h s).
Abbreviation step := (ps_step problem f prune).
Abbreviation inv := (ps_inv problem f init).
Abbreviation boundary := (ps_boundary problem init).

Lemma h_path s q :
  valid problem s q -> h s <= path_cost problem s q + h (exec problem s q).
Proof.
  revert s. induction q as [|a q IH]; intros s; simpl; [lia|].
  intros [Ha Hq]. specialize (IH _ Hq). specialize (h_consistent s a Ha). lia.
Qed.

(** A path that ends outside the explored set has a node in the heap
    whose priority is at most the cost of the path plus the estimate of
    its end. *)
Lemma boundary_item st q :
  inv st -> boundary st ->
  valid problem init q -> exec problem init q ∉ ps_explored st ->
  exists x, x ∈ ps_frontier st
       /\ ps_priority x <= path_cost problem init q + h (exec problem init q).
Proof.
  intros Hinv [H0 Hb]. induction q as [|a q IH] using rev_ind; intros Hv Hq.
  - destruct H0 as [?|(x & Hx & Hn & Hc)]; [done|]. exists x. split; [done|].
    destruct Hinv as [Hitems _ _ _ _].
    destruct (Hitems x Hx) as (_ & _ & _ & -> & _). rewrite Hn. lia.
  - pose proof Hv as [Hvq Ha]%valid_snoc.
    destruct (decide (exec problem init q ∈ ps_explored st)) as [He|He].
    + destruct (Hb q a Hv He) as [?|(x & Hx & Hn & Hc)]; [done|].
      exists x. split; [done|].
      destruct Hinv as [Hitems _ _ _ _].
      destruct (Hitems x Hx) as (_ & _ & _ & -> & _). rewrite Hn. lia.
    + destruct (IH Hvq He) as (x & Hx & Hp). exists x. split; [done|].
      rewrite path_cost_snoc, exec_snoc.
      specialize (h_consistent _ _ Ha). lia.
Qed.

(** The node popped for an unexplored state costs no more than any path
    to that state. *)
Lemma pop_optimal st x rest q :
  inv st -> boundary st ->
  heappop ps_priority ps_ticket (ps_frontier st) = Some (x, rest) ->
  ps_node x ∉ ps_explored st ->
  valid problem init q -> exec problem init q = ps_node x ->
  ps_cost x <= path_cost problem init q.
Proof.
  intros Hinv Hb Hpop Hx Hv He.
  destruct (boundary_item st q Hinv Hb Hv) as (y & Hy & Hp);
    [by rewrite He|].
  pose proof (heappop_min_priority _ _ _ _ _ y Hpop Hy) as Hmin.
  apply heappop_Some in Hpop as (Hin & _).
  destruct Hinv as [Hitems _ _ _ _].
  destruct (Hitems x Hin) as (_ & _ & _ & Hpx & _).
  rewrite Hpx in Hmin. rewrite He in Hp. lia.
Qed.

Lemma covered_rest st st' x q :
  StronglySorted lt (ps_ticket <$> ps_frontier st) ->
  x ∈ ps_frontier st ->
  ps_explored st ⊆ ps_explored st' ->
  ps_node x ∈ ps_explored st' ->
  (forall y, y ∈ heap_remove ps_ticket (ps_ticket x) (ps_frontier st) ->
             y ∈ ps_frontier st') ->
  ps_covered problem init st q -> ps_covered problem init st' q.
Proof.
  intros Hs Hx Hsub Hnx Hrest [He|(y & Hy & Hn & Hc)]; [left; set_solver|].
  destruct (decide (ps_node y = ps_node x)) as [Heq|Hne].
  - left. by rewrite <- Hn, Heq.
  - right. exists y. split; [|done]. apply Hrest.
    apply heap_remove_other; [done..|]. by intros ->.
Qed.

Lemma boundary_step st st' :
  inv st -> boundary st -> step st = Running st' -> boundary st'.
Proof.
  intros Hinv Hb Hstep.
  destruct (ps_step_cases problem f prune st)
    as [[_ Hs]|(x & rest & Hpop & Hcase)]; [congruence|].
  destruct Hcase as [(_ & Hs)|[(Hg & Hx & Hs)|(Hg & Hx & Hs)]];
    [congruence| |]; rewrite Hs in Hstep; injection Hstep as <-.
  - pose proof (ps_popped_inv problem f init st x rest Hinv Hpop Hg Hx) as Hp.
    pose proof Hpop as (Hin & _ & Hrest & _)%heappop_Some.
    pose proof Hinv as [Hitems Hsorted _ _ _].
    destruct (Hitems x Hin) as (Hv & He & Hc & _).
    destruct (ps_expand problem f prune init _ _ _ _ Hv He Hc Hp)
      as (_ & Hex & _ & _ & Hold & Hnew).
    fold (ps_expanded problem f prune st x rest) in Hex, Hold, Hnew.
    set (st' := ps_expanded problem f prune st x rest) in *.
    simpl in Hex, Hold, Hnew.
    assert (forall q, ps_covered problem init st q ->
                      ps_covered problem init st' q) as Hcov.
    { intros q. apply (covered_rest st st' x); try done.
      - rewrite Hex. set_solver.
      - rewrite Hex. set_solver.
      - intros y Hy. apply Hold. by rewrite Hrest. }
    destruct Hb as [H0 Hb]. split; [by apply Hcov|].
    intros q a Hva. rewrite Hex.
    intros [Hq|Hq%elem_of_singleton]%elem_of_union; [by apply Hcov, Hb|].
    pose proof Hva as [Hvq Ha]%valid_snoc. rewrite Hq in Ha.
    unfold ps_covered. rewrite exec_snoc, path_cost_snoc, Hq, Hex.
    destruct (Hnew a Ha) as [?|(y & Hy & Hn & Hcy)]; [by left|].
    right. exists y. split; [done|]. split; [done|].
    pose proof (pop_optimal st x rest q Hinv (conj H0 Hb) Hpop Hx Hvq Hq).
    lia.
  - pose proof Hpop as (Hin & _ & Hrest & _)%heappop_Some.
    pose proof Hinv as [_ Hsorted _ _ _].
    assert (forall q, ps_covered problem init st q ->
                      ps_covered problem init (ps_discarded st rest) q)
      as Hcov.
    { intros q. apply (covered_rest st _ x); try done.
      intros y Hy. simpl. by rewrite Hrest. }
    destruct Hb as [H0 Hb]. split; [by apply Hcov|].
    intros q a Hva Hq. by apply Hcov, Hb.
Qed.

Lemma boundary_init : boundary (ps_init f init).
Proof.
  split; [|intros q a _ Hq; simpl in Hq; set_solver].
  right. eexists. split; [simpl; by apply list_elem_of_singleton|].
  unfold ps_node, ps_cost. simpl. split; [done|lia].
Qed.

(** What the priority search returns is a cheapest solution, and it
    returns [None] only if there is no solution. *)
Lemma ps_return_optimal st r calls :
  inv st -> boundary st -> step st = Return r calls ->
  match r with
  | Some p =>
      solves problem init p
      /\ forall q, solves problem init q ->
                  path_cost problem init p <= path_cost problem init q
  | None => forall q, ~ solves problem init q
  end.
Proof.
  intros Hinv Hb Hstep.
  assert (forall q, solves problem init q ->
            exists y, y ∈ ps_frontier st
                   /\ ps_priority y <= path_cost problem init q) as Hgoal.
  { intros q [Hv Hg].
    destruct (boundary_item st q Hinv Hb Hv) as (y & Hy & Hp).
    - intros He. destruct Hinv as [_ _ Hexp _ _].
      destruct (Hexp _ He). congruence.
    - exists y. split; [done|]. rewrite (h_goal _ Hg) in Hp. lia. }
  destruct (ps_step_return problem f prune init st r calls Hinv Hstep) as [_ Hr].
  destruct r as [p|].
  - destruct Hr as (Hsol & x & rest & Hpop & Hp & Hg). split; [done|].
    intros q Hq. destruct (Hgoal q Hq) as (y & Hy & Hpy).
    pose proof (heappop_min_priority _ _ _ _ _ y Hpop Hy) as Hmin.
    apply heappop_Some in Hpop as (Hin & _).
    destruct Hinv as [Hitems _ _ _ _].
    destruct (Hitems x Hin) as (_ & _ & Hc & Hpx & _).
    rewrite Hpx, (h_goal _ Hg) in Hmin. rewrite <- Hp, Hc. lia.
  - intros q Hq. destruct (Hgoal q Hq) as (y & Hy & _).
    rewrite Hr in Hy. by inversion Hy.
Qed.

Lemma ps_search_optimal (L : list State) :
  (forall s, reachable problem init s -> s ∈ L) ->
  exists fuel r calls,
    iterate step fuel (ps_init f init) = Return r calls
    /\ match r with
       | Some p =>
           solves problem init p
           /\ forall q, solves problem init q ->
                       path_cost problem init p <= path_cost problem init q
       | None => forall q, ~ solves problem init q
       end.
Proof.
  intros HL.
  assert (inv (ps_init f init)) as Hinv0 by apply ps_inv_init.
  destruct (ps_terminates problem f prune init L (ps_init f init) HL Hinv0)
    as (r & calls & Hrun).
  eexists _, r, calls. split; [exact Hrun|].
  assert (forall st1 st2, inv st1 /\ boundary st1 -> step st1 = Running st2 ->
                          inv st2 /\ boundary st2) as Hpres.
  { intros st1 st2 [Hi Hb] Hs. split.
    - by apply (ps_step_inv problem f prune init st1).
    - by apply (boundary_step st1). }
  destruct (iterate_return step _ Hpres _ _ _ _ (conj Hinv0 boundary_init) Hrun)
    as (st & [Hi Hb] & Hs).
  by apply (ps_return_optimal st r calls).
Qed.
End PsOptimal.

(** ** The three heap-based searches are priority searches *)

Section Simulation.
Context {State Action : Type} `{Countable State}.
Variable problem : Problem State Action.
Variable heuristic : HeuristicFunction State Action.
Variable init : State.

(** *** UniformCostSearch *)

Abbreviation ucs_f := (fun (g : Z) (_ : State) => g + 0).

Lemma ucs_body_abs cost state actions a st :
  ps_body problem ucs_f false cost state actions a (ucs_abs st)
  = ucs_abs (ucs_body problem cost state actions a st).
Proof.
  unfold ps_body, ucs_body, ucs_abs. simpl. f_equal.
  unfold heappush. rewrite fmap_app. simpl. unfold ucs_abs_item. simpl.
  by rewrite Z.add_0_r.
Qed.

Lemma ucs_step_abs st :
  ps_step problem ucs_f false (ucs_abs st)
  = outcome_map ucs_abs (ucs_step problem st).
Proof.
  unfold ps_step, ucs_step. cbn [ps_frontier ucs_abs].
  rewrite (heappop_fmap ucs_priority ucs_ticket) by done.
  destruct (heappop ucs_priority ucs_ticket (ucs_frontier st))
    as [[[[[c n] s] p] rest]|]; [|done].
  cbn. destruct (is_goal problem s); [done|].
  destruct (decide (s ∉ ucs_explored st)); cbn; [|done].
  f_equal.
  match goal with
  | |- for_all ?b' ?xs _ = ?abs (for_all ?b ?xs ?st1) =>
      exact (for_all_abs abs b b' xs st1
               (fun a st' => ucs_body_abs c s p a st'))
  end.
Qed.

Lemma ucs_iterate_abs fuel :
  iterate (ps_step problem ucs_f false) fuel (ps_init ucs_f init)
  = outcome_map ucs_abs (UniformCostSearch problem init fuel).
Proof.
  unfold UniformCostSearch.
  exact (iterate_abs ucs_abs (ucs_step problem)
           (ps_step problem ucs_f false) (fun _ => True)
           (fun _ _ _ _ => I) (fun st _ => ucs_step_abs st)
           fuel (ucs_init init) I).
Qed.

(** *** AStarSearch *)

Abbreviation astar_f :=
  (fun (g : Z) (s : State) => g + heuristic problem s).

Lemma astar_body_abs cost state actions a st :
  ps_body problem astar_f true cost state actions a (astar_abs st)
  = astar_abs (astar_body problem heuristic cost state actions a st).
Proof.
  unfold ps_body, astar_body, astar_abs. simpl.
  destruct (decide (get_successor problem state a ∉ astar_explored st))
    as [Hc|Hc].
  - rewrite bool_decide_eq_false_2 by done. done.
  - rewrite bool_decide_eq_true_2; [done|].
    by destruct (decide (get_successor problem state a ∈ astar_explored st)).
Qed.

Lemma astar_step_abs st :
  ps_step problem astar_f true (astar_abs st)
  = outcome_map astar_abs (astar_step problem heuristic st).
Proof.
  unfold ps_step, astar_step. cbn [ps_frontier astar_abs].
  change (@ps_priority State Action) with (@astar_priority State Action).
  change (@ps_ticket State Action) with (@astar_ticket State Action).
  change (@ps_item State Action) with (@astar_item State Action).
  destruct (heappop astar_priority astar_ticket (astar_frontier st))
    as [[[[[[k n] c] s] p] rest]|]; [|done].
  cbn. destruct (is_goal problem s); [done|].
  destruct (decide (s ∉ astar_explored st)); cbn; [|done].
  f_equal.
  match goal with
  | |- for_all ?b' ?xs _ = ?abs (for_all ?b ?xs ?st1) =>
      exact (for_all_abs abs b b' xs st1
               (fun a st' => astar_body_abs c s p a st'))
  end.
Qed.

Lemma astar_iterate_abs fuel :
  iterate (ps_step problem astar_f true) fuel (ps_init astar_f init)
  = outcome_map astar_abs
      (iterate (astar_step problem heuristic) fuel
         (astar_init problem heuristic init)).
Proof.
  exact (iterate_abs astar_abs (astar_step problem heuristic)
           (ps_step problem astar_f true) (fun _ => True)
           (fun _ _ _ _ => I) (fun st _ => astar_step_abs st)
           fuel (astar_init problem heuristic init) I).
Qed.

(** *** BestFirstSearch *)

Abbreviation gbfs_f := (fun (_ : Z) (s : State) => heuristic problem s).

Lemma gbfs_body_abs cost state actions a st :
  path_cost problem init actions = cost ->
  exec problem init actions = state ->
  ps_body problem gbfs_f true cost state actions a (gbfs_abs problem init st)
  = gbfs_abs problem init
      (gbfs_body problem heuristic state actions a st).
Proof.
  intros Hc He. unfold ps_body, gbfs_body, gbfs_abs. simpl.
  destruct (decide (get_successor problem state a ∉ gbfs_explored st))
    as [Hx|Hx].
  - rewrite bool_decide_eq_false_2 by done. simpl. f_equal.
    unfold heappush. rewrite fmap_app. simpl. unfold gbfs_abs_item. simpl.
    by rewrite path_cost_snoc, Hc, He.
  - rewrite bool_decide_eq_true_2; [done|].
    by destruct (decide (get_successor problem state a ∈ gbfs_explored st)).
Qed.

Lemma gbfs_step_abs st :
  ps_inv problem gbfs_f init (gbfs_abs problem init st) ->
  ps_step problem gbfs_f true (gbfs_abs problem init st)
  = outcome_map (gbfs_abs problem init) (gbfs_step problem heuristic st).
Proof.
  intros Hinv. unfold ps_step, gbfs_step.
  pose proof (heappop_Some ps_priority ps_ticket
                (ps_frontier (gbfs_abs problem init st))) as Hpop.
  cbn [ps_frontier gbfs_abs] in *.
  rewrite (heappop_fmap gbfs_priority gbfs_ticket) in * by done.
  destruct (heappop gbfs_priority gbfs_ticket (gbfs_frontier st))
    as [[[[[k n] s] p] rest]|]; [|done].
  destruct (Hpop _ _ eq_refl) as (Hin & _).
  destruct Hinv as [Hitems _ _ _ _].
  destruct (Hitems _ Hin) as (_ & He & _). cbn in He.
  cbn. destruct (is_goal problem s); [done|].
  destruct (decide (s ∉ gbfs_explored st)); cbn; [|done].
  f_equal.
  match goal with
  | |- for_all ?b' ?xs _ = ?abs (for_all ?b ?xs ?st1) =>
      exact (for_all_abs abs b b' xs st1
               (fun a st' => gbfs_body_abs _ s p a st' eq_refl He))
  end.
Qed.

Lemma gbfs_iterate_abs fuel :
  iterate (ps_step problem gbfs_f true) fuel (ps_init gbfs_f init)
  = outcome_map (gbfs_abs problem init)
      (iterate (gbfs_step problem heuristic) fuel
         (gbfs_init problem heuristic init)).
Proof.
  exact (iterate_abs (gbfs_abs problem init) (gbfs_step problem heuristic)
           (ps_step problem gbfs_f true) (ps_inv problem gbfs_f init)
           (ps_step_inv problem gbfs_f true init) gbfs_step_abs
           fuel (gbfs_init problem heuristic init)
           (ps_inv_init problem gbfs_f init)).
Qed.
End Simulation.

(** ** Facts about BreadthFirstSearch *)

Section BfsFacts.
Context {State Action : Type} `{Countable State}.
Variable problem : Problem State Action.
Variable init : State.

Abbreviation step := (bfs_step problem).

Lemma reach_le_head n s : s ∈ reach_le problem n s.
Proof. destruct n; simpl; by left. Qed.

Lemma reach_le_spec n s q :
  valid problem s q -> (length q <= n)%nat ->
  exec problem s q ∈ reach_le problem n s.
Proof.
  revert n s. induction q as [|a q IH]; intros n s Hv Hn; simpl.
  - apply reach_le_head.
  - destruct n as [|n]; simpl in Hn; [lia|]. destruct Hv as [Ha Hv].
    simpl. right. apply list_elem_of_In, in_flat_map.
    exists a. split; [by apply list_elem_of_In|].
    apply list_elem_of_In, IH; [done|lia].
Qed.

Lemma bfs_inv_cl cl cl' d F1 F2 st :
  (forall t a, cl' t a -> cl t a) ->
  bfs_inv problem init cl d F1 F2 st -> bfs_inv problem init cl' d F1 F2 st.
Proof. intros Hcl []. split; auto. Qed.

Lemma expansions_snoc_successor (c : list (call State Action)) s a :
  expansions (c ++ [GetSuccessor s a]) = expansions c.
Proof. rewrite expansions_app. simpl. apply app_nil_r. Qed.

Lemma expansions_snoc_actions (c : list (call State Action)) s :
  expansions (c ++ [GetActions s]) = expansions c ++ [s].
Proof. by rewrite expansions_app. Qed.

(** The [for] loop over the actions of the node [(s, p)] taken from the
    front of the queue. *)
Lemma bfs_expand cl d s p F1 F2 st1 :
  bfs_inv problem init cl d F1 F2 st1 ->
  valid problem init p -> exec problem init p = s -> length p = d ->
  match for_each (bfs_body problem s p) (get_actions problem s) st1 with
  | inl (r, c) =>
      solves problem init r /\ length r = Datatypes.S d
      /\ expansions c = expansions (bfs_calls st1)
  | inr st' =>
      (exists F2',
          bfs_inv problem init
            (fun t a => cl t a \/ (t = s /\ a ∈ get_actions problem s))
            d F1 F2' st')
      /\ (length (bfs_frontier st')
          <= length (bfs_frontier st1) + length (get_actions problem s))%nat
      /\ expansions (bfs_calls st') = expansions (bfs_calls st1)
  end.
Proof.
  intros Hinv Hv He Hd.
  apply (for_each_ind
    (fun pre st' =>
       (exists F2',
           bfs_inv problem init
             (fun t a => cl t a \/ (t = s /\ a ∈ pre)) d F1 F2' st')
       /\ (length (bfs_frontier st')
           <= length (bfs_frontier st1) + length pre)%nat
       /\ expansions (bfs_calls st') = expansions (bfs_calls st1))
    (fun rc : list Action * list (call State Action) =>
       let (r, c) := rc in
       solves problem init r /\ length r = Datatypes.S d
       /\ expansions c = expansions (bfs_calls st1))).
  - split; [|split; [simpl; lia|done]]. exists F2.
    eapply bfs_inv_cl; [|done]. intros t a [?|[_ Ha]]; [done|by inversion Ha].
  - intros pre a st' Ha ((F2' & Hi) & Hlen & Hcalls). unfold bfs_body.
    set (child := get_successor problem s a).
    destruct (decide (child ∉ bfs_explored st')) as [Hnew|Hold].
    + destruct (is_goal problem child) eqn:Hg.
      * split; [|split].
        -- split; [apply valid_snoc; by rewrite He|by rewrite exec_snoc, He].
        -- rewrite length_app. simpl. lia.
        -- by rewrite expansions_snoc_successor.
      * destruct Hi as [Hfr HF1 HF2 Hpath Hexp Hsub Hcl Hnear Hnd].
        split; [|split].
        -- exists (F2' ++ [(child, p ++ [a])]). split; simpl.
           ++ by rewrite Hfr, app_assoc.
           ++ done.
           ++ intros x [Hx| ->%list_elem_of_singleton]%elem_of_app; [by auto|].
              simpl. rewrite length_app. simpl. lia.
           ++ intros x [Hx| ->%list_elem_of_singleton]%elem_of_app; [by auto|].
              simpl. by rewrite valid_snoc, exec_snoc, He.
           ++ rewrite expansions_snoc_successor, fmap_app.
              intros t [Ht| ->%elem_of_singleton]%elem_of_union.
              ** destruct (Hexp t Ht) as (? & [?|?] & ?).
                 --- split; [done|]. split; [by left|done].
                 --- split; [done|]. split; [right|done].
                     apply elem_of_app. by left.
              ** split; [done|]. split.
                 --- right. apply elem_of_app. right. simpl. by left.
                 --- exists (p ++ [a]).
                     rewrite valid_snoc, exec_snoc, He, length_app.
                     simpl. repeat split; try done. lia.
           ++ rewrite expansions_snoc_successor, fmap_app.
              intros t [Ht|[Ht|Ht]%elem_of_app].
              ** apply elem_of_union. left. apply Hsub. by left.
              ** apply elem_of_union. left. apply Hsub. by right.
              ** simpl in Ht. apply list_elem_of_singleton in Ht as ->.
                 apply elem_of_union. right. by apply elem_of_singleton.
           ++ intros t a' [Hc|[-> [Ha'| ->%list_elem_of_singleton]%elem_of_app]].
              ** apply elem_of_union. left. apply Hcl. by left.
              ** apply elem_of_union. left. apply Hcl. by right.
              ** apply elem_of_union. right. by apply elem_of_singleton.
           ++ by rewrite expansions_snoc_successor.
           ++ rewrite expansions_snoc_successor, fmap_app, app_assoc.
              apply NoDup_app. split; [done|]. split; [|apply NoDup_singleton].
              intros t Ht Ht2. simpl in Ht2.
              apply list_elem_of_singleton in Ht2 as ->.
              apply Hnew, Hsub. by apply elem_of_app in Ht.
        -- simpl. rewrite !length_app. simpl. lia.
        -- simpl. by rewrite expansions_snoc_successor.
    + assert (child ∈ bfs_explored st') as Hin
          by (by destruct (decide (child ∈ bfs_explored st'))).
      destruct Hi as [Hfr HF1 HF2 Hpath Hexp Hsub Hcl Hnear Hnd].
      split; [|split].
      * exists F2'. split; simpl; try done.
        -- by rewrite expansions_snoc_successor.
        -- by rewrite expansions_snoc_successor.
        -- intros t a' [Hc|[-> [Ha'| ->%list_elem_of_singleton]%elem_of_app]].
           ++ apply Hcl. by left.
           ++ apply Hcl. by right.
           ++ done.
        -- by rewrite expansions_snoc_successor.
        -- by rewrite expansions_snoc_successor.
      * simpl. rewrite length_app. simpl. lia.
      * simpl. by rewrite expansions_snoc_successor.
Qed.
Abbreviation Inv := (bfs_Inv problem init).

Lemma bfs_inv_shift d F2 st :
  bfs_inv problem init (bfs_closed problem st) d [] F2 st ->
  bfs_inv problem init (bfs_closed problem st) (Datatypes.S d) F2 [] st.
Proof.
  intros [Hfr HF1 HF2 Hpath Hexp Hsub Hcl Hnear Hnd]. simpl in Hfr.
  split; try done.
  - by rewrite app_nil_r.
  - intros x Hx. by inversion Hx.
  - intros t Ht. destruct (Hexp t Ht) as (? & ? & p & ? & ? & ?).
    split; [done|]. split; [done|]. exists p. repeat split; try done. lia.
  - intros q Hv Hlen. rewrite <- Hfr.
    destruct (decide (length q <= d)%nat) as [Hle|Hgt].
    + destruct (Hnear q Hv Hle) as [?|Hin]; [by left|by inversion Hin].
    + destruct q as [|a q _] using rev_ind; [simpl in Hgt; lia|].
      rewrite length_app in Hlen. simpl in Hlen.
      apply valid_snoc in Hv as [Hv Ha].
      destruct (Hnear q Hv) as [Hq|Hin]; [lia| |by inversion Hin].
      rewrite exec_snoc.
      by destruct (Hexp _ (Hcl _ a (conj Hq Ha))) as (_ & ? & _).
Qed.

(** One iteration of the loop of BreadthFirstSearch. *)
Lemma bfs_step_spec st :
  Inv st ->
  match bfs_frontier st with
  | [] =>
      step st = Return None (bfs_calls st)
      /\ forall q, valid problem init q ->
                  is_goal problem (exec problem init q) = false
  | (s, p) :: rest =>
      s ∉ expansions (bfs_calls st)
      /\ valid problem init p /\ exec problem init p = s
      /\ match step st with
         | Return r c =>
             expansions c = expansions (bfs_calls st) ++ [s]
             /\ exists p', r = Some p' /\ solves problem init p'
                /\ forall q, solves problem init q ->
                            (length p' <= length q)%nat
         | Running st' =>
             Inv st'
             /\ (length (bfs_frontier st')
                 <= length rest + length (get_actions problem s))%nat
             /\ expansions (bfs_calls st')
                = expansions (bfs_calls st) ++ [s]
         end
  end.
Proof.
  intros (d & F1 & F2 & Hi).
  destruct (bfs_frontier st) as [|[s p] rest] eqn:Hfrontier.
  - split; [unfold bfs_step; by rewrite Hfrontier|].
    destruct Hi as [Hfr HF1 HF2 Hpath Hexp Hsub Hcl Hnear Hnd].
    rewrite Hfrontier in *.
    assert (F1 = []) as -> by (by destruct F1).
    assert (forall q, valid problem init q ->
              exec problem init q ∈ expansions (bfs_calls st)) as Hall.
    { induction q as [|a q IH] using rev_ind; intros Hv.
      - destruct (Hnear [] Hv) as [?|Hin]; [simpl; lia|done|by inversion Hin].
      - apply valid_snoc in Hv as [Hv Ha]. rewrite exec_snoc.
        destruct (Hexp _ (Hcl _ a (conj (IH Hv) Ha))) as (_ & [?|Hin] & _);
          [done|by inversion Hin]. }
    intros q Hv. apply Hexp, Hsub. left. by apply Hall.
  - assert (exists d' F1' F2',
               bfs_inv problem init (bfs_closed problem st) d'
                 ((s, p) :: F1') F2' st) as (d' & F1' & F2' & Hi').
    { destruct F1 as [|x F1'].
      - exists (Datatypes.S d), rest, []. apply bfs_inv_shift.
        assert (F2 = (s, p) :: rest) as <-; [|done].
        destruct Hi as [Hfr _ _ _ _ _ _ _ _]. by rewrite Hfrontier in Hfr.
      - exists d, F1', F2.
        assert (x = (s, p)) as <-; [|done].
        destruct Hi as [Hfr _ _ _ _ _ _ _ _]. rewrite Hfrontier in Hfr.
        by injection Hfr. }
    clear d F1 F2 Hi.
    destruct Hi' as [Hfr HF1 HF2 Hpath Hexp Hsub Hcl Hnear Hnd].
    rewrite Hfrontier in *.
    assert (rest = F1' ++ F2') as Hrest by (by injection Hfr).
    destruct (Hpath (s, p)) as [Hv He]; [by left|]. simpl in Hv, He.
    assert (length p = d') as Hd by (apply (HF1 (s, p)); by left).
    assert (s ∉ expansions (bfs_calls st)) as Hfresh.
    { intros Hin. apply NoDup_app in Hnd as (_ & Hdis & _).
      apply (Hdis s Hin). rewrite fmap_cons. by left. }
    split; [done|]. split; [done|]. split; [done|].
    set (st1 := {| bfs_frontier := rest;
                   bfs_explored := bfs_explored st;
                   bfs_calls := bfs_calls st ++ [GetActions s] |}).
    assert (bfs_inv problem init (bfs_closed problem st) d' F1' F2' st1)
      as Hi1.
    { split; simpl; try done.
      - intros x Hx. apply HF1. by right.
      - intros x Hx. apply Hpath. by right.
      - intros t Ht. destruct (Hexp t Ht) as (? & Hor & ?).
        split; [done|]. split; [|done].
        rewrite expansions_snoc_actions, elem_of_app, list_elem_of_singleton.
        rewrite fmap_cons, elem_of_cons in Hor. simpl in Hor. tauto.
      - intros t. rewrite expansions_snoc_actions, elem_of_app,
          list_elem_of_singleton.
        intros [[?| ->]|?]; apply Hsub; [by left| |].
        + right. rewrite fmap_cons. by left.
        + right. rewrite fmap_cons. by right.
      - intros q Hq Hlen. rewrite expansions_snoc_actions, elem_of_app,
          list_elem_of_singleton.
        destruct (Hnear q Hq Hlen) as [?|Hin]; [by auto|].
        rewrite fmap_cons, elem_of_cons in Hin. simpl in Hin. tauto.
      - rewrite expansions_snoc_actions, <- app_assoc. simpl.
        by rewrite fmap_cons in Hnd. }
    pose proof (bfs_expand (bfs_closed problem st) d' s p F1' F2' st1
                  Hi1 Hv He Hd) as Hloop.
    unfold bfs_step. rewrite Hfrontier. fold st1.
    destruct (for_each (bfs_body problem s p) (get_actions problem s) st1)
      as [[r c]|st'].
    + destruct Hloop as (Hsol & Hlen & Hc). split.
      * rewrite Hc. unfold st1. simpl. apply expansions_snoc_actions.
      * exists r. split; [done|]. split; [done|].
        intros q [Hq Hg].
        destruct (decide (length q <= d')%nat) as [Hle|Hgt]; [|lia].
        assert (exec problem init q ∈ bfs_explored st) as Hin.
        { apply Hsub. destruct (Hnear q Hq Hle) as [?|Hin1]; [by left|].
          right. rewrite Hrest. rewrite fmap_cons, elem_of_cons in Hin1.
          rewrite fmap_cons, fmap_app, elem_of_cons, elem_of_app. tauto. }
        destruct (Hexp _ Hin) as (Hng & _). congruence.
    + destruct Hloop as ((F2'' & Hi2) & Hlen & Hc). split; [|split].
      * exists d', F1', F2''. eapply bfs_inv_cl; [|exact Hi2].
        intros t a [Ht Ha]. rewrite Hc in Ht. unfold st1 in Ht. simpl in Ht.
        rewrite expansions_snoc_actions, elem_of_app,
          list_elem_of_singleton in Ht.
        destruct Ht as [Ht| ->]; [by left|by right].
      * unfold st1 in Hlen. simpl in Hlen. lia.
      * rewrite Hc. unfold st1. simpl. apply expansions_snoc_actions.
Qed.
Lemma bfs_Inv_init :
  is_goal problem init = false -> Inv (bfs_init init).
Proof.
  intros Hg. exists O, [(init, [])], []. split; simpl; try done.
  - intros x ->%list_elem_of_singleton. done.
  - intros x Hx. by inversion Hx.
  - intros x ->%list_elem_of_singleton. done.
  - intros s ->%elem_of_singleton. split; [done|]. split.
    + right. by left.
    + exists []. simpl. repeat split; try done. lia.
  - intros s [Hs|Hs]; [by inversion Hs|].
    apply list_elem_of_singleton in Hs as ->. by apply elem_of_singleton.
  - intros t a [Ht _]. by inversion Ht.
  - intros q Hv Hlen. right. destruct q; [by left|simpl in Hlen; lia].
  - apply NoDup_singleton.
Qed.

Lemma bfs_step_Inv st st' : Inv st -> step st = Running st' -> Inv st'.
Proof.
  intros Hinv Hstep. pose proof (bfs_step_spec st Hinv) as Hspec.
  destruct (bfs_frontier st) as [|[s p] rest].
  - destruct Hspec as [Hs _]. congruence.
  - destruct Hspec as (_ & _ & _ & Hspec). rewrite Hstep in Hspec. tauto.
Qed.

Lemma bfs_Inv_nodup st : Inv st -> NoDup (expansions (bfs_calls st)).
Proof.
  intros (d & F1 & F2 & [_ _ _ _ _ _ _ _ Hnd]).
  by apply NoDup_app in Hnd as (? & _).
Qed.

(** What BreadthFirstSearch returns: a solution with the fewest actions,
    or [None] when there is no solution; no state was expanded twice. *)
Lemma bfs_step_return st r calls :
  Inv st -> step st = Return r calls ->
  NoDup (expansions calls)
  /\ match r with
     | Some p =>
         solves problem init p
         /\ forall q, solves problem init q -> (length p <= length q)%nat
     | None => forall q, ~ solves problem init q
     end.
Proof.
  intros Hinv Hstep. pose proof (bfs_step_spec st Hinv) as Hspec.
  pose proof (bfs_Inv_nodup st Hinv) as Hnd.
  destruct (bfs_frontier st) as [|[s p] rest].
  - destruct Hspec as [Hs Hno]. rewrite Hs in Hstep.
    injection Hstep as <- <-. split; [done|].
    intros q [Hv Hg]. specialize (Hno q Hv). congruence.
  - destruct Hspec as (Hfresh & _ & _ & Hspec). rewrite Hstep in Hspec.
    destruct Hspec as (Hc & p' & -> & Hsol & Hopt). split; [|done].
    rewrite Hc. apply NoDup_app. split; [done|].
    split; [|apply NoDup_singleton].
    intros t Ht ->%list_elem_of_singleton. done.
Qed.

Lemma bfs_step_measure (L : list State) st st' :
  Inv st -> (forall x, x ∈ bfs_frontier st -> x.1 ∈ L) ->
  step st = Running st' ->
  (bfs_measure problem L st' < bfs_measure problem L st)%nat.
Proof.
  intros Hinv HL Hstep. pose proof (bfs_step_spec st Hinv) as Hspec.
  unfold bfs_measure.
  destruct (bfs_frontier st) as [|[s p] rest].
  - destruct Hspec as [Hs _]. congruence.
  - destruct Hspec as (Hfresh & _ & _ & Hspec). rewrite Hstep in Hspec.
    destruct Hspec as (_ & Hlen & Hc). rewrite Hc.
    assert ((list_to_set (expansions (bfs_calls st) ++ [s]) : gset State)
            = list_to_set (expansions (bfs_calls st)) ∪ {[ s ]}) as ->
        by set_solver.
    assert (s ∈ L) as HsL by (apply (HL (s, p)); by left).
    assert (s ∉ (list_to_set (expansions (bfs_calls st)) : gset State))
      as Hs by (by rewrite elem_of_list_to_set).
    pose proof (pending_work_insert problem _ L s HsL Hs). simpl. lia.
Qed.

Lemma bfs_terminates (L : list State) st :
  (forall st', Inv st' -> forall x, x ∈ bfs_frontier st' -> x.1 ∈ L) ->
  Inv st ->
  exists r calls,
    iterate step (Datatypes.S (bfs_measure problem L st)) st
    = Return r calls.
Proof.
  intros HL Hinv.
  apply (iterate_terminates step Inv bfs_step_Inv (bfs_measure problem L));
    [|done|lia].
  intros st1 st2 H1 H2. apply bfs_step_measure; [done| |done].
  by apply HL.
Qed.

(** The frontier of BreadthFirstSearch stays within the states as near
    to [init] as any goal is. *)
Lemma bfs_frontier_near q0 st x :
  solves problem init q0 -> Inv st -> x ∈ bfs_frontier st ->
  x.1 ∈ reach_le problem (length q0) init.
Proof.
  intros [Hv0 Hg0] (d & F1 & F2 & Hi) Hx.
  destruct Hi as [Hfr HF1 HF2 Hpath Hexp Hsub Hcl Hnear Hnd].
  assert (d < length q0)%nat as Hd.
  { destruct (decide (length q0 <= d)%nat) as [Hle|]; [|lia].
    assert (exec problem init q0 ∈ bfs_explored st) as Hin.
    { apply Hsub. destruct (Hnear q0 Hv0 Hle) as [?|Hin1]; [by left|].
      right. rewrite Hfr, fmap_app, elem_of_app. by left. }
    destruct (Hexp _ Hin) as (Hng & _). congruence. }
  destruct (Hpath x Hx) as [Hv He]. rewrite <- He.
  apply reach_le_spec; [done|].
  rewrite Hfr in Hx. apply elem_of_app in Hx as [Hx|Hx].
  - rewrite (HF1 x Hx). lia.
  - rewrite (HF2 x Hx). lia.
Qed.

Lemma bfs_frontier_reachable st x :
  Inv st -> x ∈ bfs_frontier st -> reachable problem init x.1.
Proof.
  intros (d & F1 & F2 & Hi) Hx. destruct Hi as [_ _ _ Hpath _ _ _ _ _].
  destruct (Hpath x Hx). by eexists.
Qed.

(** BreadthFirstSearch returns whenever its frontier stays within a
    finite list of states. *)
Lemma bfs_run (L : list State) :
  (forall st, Inv st -> forall x, x ∈ bfs_frontier st -> x.1 ∈ L) ->
  exists fuel r calls,
    BreadthFirstSearch problem init fuel = Return r calls
    /\ NoDup (expansions calls)
    /\ match r with
       | Some p =>
           solves problem init p
           /\ forall q, solves problem init q -> (length p <= length q)%nat
       | None => forall q, ~ solves problem init q
       end.
Proof.
  intros HL. unfold BreadthFirstSearch.
  destruct (is_goal problem init) eqn:Hg.
  - exists O, (Some []), []. split; [done|]. split; [constructor|].
    split; [by split|]. intros q _. simpl. lia.
  - pose proof (bfs_Inv_init Hg) as Hinv0.
    destruct (bfs_terminates L _ HL Hinv0) as (r & calls & Hrun).
    eexists _, r, calls. split; [exact Hrun|].
    destruct (iterate_return step Inv bfs_step_Inv _ _ _ _ Hinv0 Hrun)
      as (st & Hi & Hs).
    by apply (bfs_step_return st).
Qed.
End BfsFacts.

(** ** Facts about DepthFirstSearch *)

Section DfsFacts.
Context {State Action : Type} `{Countable State}.
Variable problem : Problem State Action.
Variable init : State.

Abbreviation step := (dfs_step problem).
Abbreviation inv := (dfs_inv problem init).

Lemma dfs_inv_init : inv (dfs_init init).
Proof.
  split; simpl.
  - intros x ->%list_elem_of_singleton. done.
  - apply NoDup_singleton.
  - intros x _. set_solver.
  - set_solver.
  - constructor.
Qed.

(** The [for] loop over the actions of the node [(s, p)] popped from the
    stack. *)
Lemma dfs_expand s p st1 :
  inv st1 -> valid problem init p -> exec problem init p = s ->
  let st2 := for_all (dfs_body problem s p) (get_actions problem s) st1 in
  inv st2
  /\ dfs_explored st2 = dfs_explored st1
  /\ expansions (dfs_calls st2) = expansions (dfs_calls st1)
  /\ (length (dfs_frontier st2)
      <= length (dfs_frontier st1) + length (get_actions problem s))%nat.
Proof.
  intros Hinv Hv He.
  apply (for_all_ind
    (fun pre st' =>
       inv st'
       /\ dfs_explored st' = dfs_explored st1
       /\ expansions (dfs_calls st') = expansions (dfs_calls st1)
       /\ (length (dfs_frontier st')
           <= length (dfs_frontier st1) + length pre)%nat)).
  - do 3 (split; [done|]). simpl. lia.
  - intros pre a st' Ha (Hi & Hex & Hcalls & Hlen). unfold dfs_body.
    set (child := get_successor problem s a).
    destruct Hi as [Hpath Hnd Hfresh Hexp Hnde].
    destruct (decide ((child ∉ dfs_explored st')
                      ∧ (child ∉ fst <$> dfs_frontier st')))
      as [[Hc1 Hc2]|Hc].
    + split; [|split; [done|split]]; simpl.
      * split; simpl.
        -- intros x [->|Hx]%elem_of_cons; [|by auto]. simpl.
           by rewrite valid_snoc, exec_snoc, He.
        -- apply NoDup_cons. by split.
        -- intros x [->|Hx]%elem_of_cons; [done|by auto].
        -- intros t. by rewrite expansions_snoc_successor.
        -- by rewrite expansions_snoc_successor.
      * by rewrite expansions_snoc_successor.
      * rewrite length_app. simpl. lia.
    + split; [|split; [done|split]]; simpl.
      * split; simpl; try done.
        -- intros t. by rewrite expansions_snoc_successor.
        -- by rewrite expansions_snoc_successor.
      * by rewrite expansions_snoc_successor.
      * rewrite length_app. simpl. lia.
Qed.

(** One iteration of the loop of DepthFirstSearch. *)
Lemma dfs_step_spec st :
  inv st ->
  match dfs_frontier st with
  | [] => step st = Return None (dfs_calls st)
  | (s, p) :: rest =>
      s ∉ dfs_explored st
      /\ valid problem init p /\ exec problem init p = s
      /\ if is_goal problem s
         then step st = Return (Some p) (dfs_calls st)
         else exists st',
             step st = Running st' /\ inv st'
             /\ dfs_explored st' = dfs_explored st ∪ {[ s ]}
             /\ expansions (dfs_calls st')
                = expansions (dfs_calls st) ++ [s]
             /\ (length (dfs_frontier st')
                 <= length rest + length (get_actions problem s))%nat
  end.
Proof.
  intros [Hpath Hnd Hfresh Hexp Hnde]. unfold dfs_step.
  destruct (dfs_frontier st) as [|[s p] rest] eqn:Hfr; [done|].
  destruct (Hpath (s, p)) as [Hv He]; [by left|]. simpl in Hv, He.
  assert (s ∉ dfs_explored st) as Hs by (apply (Hfresh (s, p)); by left).
  do 3 (split; [done|]).
  destruct (is_goal problem s) eqn:Hg; [done|].
  set (st1 := {| dfs_frontier := rest;
                 dfs_explored := dfs_explored st ∪ {[ s ]};
                 dfs_calls := dfs_calls st ++ [GetActions s] |}).
  assert (inv st1) as Hi1.
  { rewrite fmap_cons in Hnd. apply NoDup_cons in Hnd as [Hsr Hnd].
    split; simpl.
    - intros x Hx. apply Hpath. by right.
    - done.
    - intros x Hx [Hin|Heq%elem_of_singleton]%elem_of_union.
      + apply (Hfresh x); [by right|done].
      + apply Hsr. rewrite <- Heq. apply list_elem_of_fmap. by exists x.
    - intros t. rewrite expansions_snoc_actions, elem_of_union, elem_of_app,
        elem_of_singleton, list_elem_of_singleton, Hexp. done.
    - rewrite expansions_snoc_actions. apply NoDup_app.
      split; [done|]. split; [|apply NoDup_singleton].
      intros t Ht ->%list_elem_of_singleton. by apply Hs, Hexp. }
  destruct (dfs_expand s p st1 Hi1 Hv He) as (Hi2 & Hex & Hc & Hlen).
  eexists. split; [done|]. split; [done|]. split; [done|].
  split; [|done]. rewrite Hc. apply expansions_snoc_actions.
Qed.

Lemma dfs_step_inv st st' : inv st -> step st = Running st' -> inv st'.
Proof.
  intros Hinv Hstep. pose proof (dfs_step_spec st Hinv) as Hspec.
  destruct (dfs_frontier st) as [|[s p] rest]; [congruence|].
  destruct Hspec as (_ & _ & _ & Hspec).
  destruct (is_goal problem s); [congruence|].
  destruct Hspec as (st'' & Hs & Hi & _). congruence.
Qed.

Lemma dfs_step_measure (L : list State) st st' :
  (forall s, reachable problem init s -> s ∈ L) ->
  inv st -> step st = Running st' ->
  (dfs_measure problem L st' < dfs_measure problem L st)%nat.
Proof.
  intros HL Hinv Hstep. pose proof (dfs_step_spec st Hinv) as Hspec.
  unfold dfs_measure.
  destruct (dfs_frontier st) as [|[s p] rest]; [congruence|].
  destruct Hspec as (Hs & Hv & He & Hspec).
  destruct (is_goal problem s); [congruence|].
  destruct Hspec as (st'' & Hst & _ & Hex & _ & Hlen).
  assert (st'' = st') as -> by congruence. rewrite Hex.
  assert (s ∈ L) as HsL by (apply HL; by exists p).
  pose proof (pending_work_insert problem (dfs_explored st) L s HsL Hs).
  simpl. lia.
Qed.

(** What DepthFirstSearch returns is a solution or [None]; no state was
    expanded twice. *)
Lemma dfs_step_return st r calls :
  inv st -> step st = Return r calls ->
  NoDup (expansions calls)
  /\ match r with Some p => solves problem init p | None => True end.
Proof.
  intros Hinv Hstep. pose proof (dfs_step_spec st Hinv) as Hspec.
  pose proof (di_nodup_expanded _ _ _ Hinv) as Hnd.
  destruct (dfs_frontier st) as [|[s p] rest].
  - rewrite Hspec in Hstep. by injection Hstep as <- <-.
  - destruct Hspec as (_ & Hv & He & Hspec).
    destruct (is_goal problem s) eqn:Hg.
    + rewrite Hspec in Hstep. injection Hstep as <- <-.
      split; [done|]. split; [done|]. by rewrite He.
    + destruct Hspec as (st'' & Hs & _). congruence.
Qed.

(** With all reachable states in the list [L], DepthFirstSearch
    returns. *)
Lemma dfs_run (L : list State) :
  (forall s, reachable problem init s -> s ∈ L) ->
  exists fuel r calls,
    DepthFirstSearch problem init fuel = Return r calls
    /\ NoDup (expansions calls)
    /\ match r with Some p => solves problem init p | None => True end.
Proof.
  intros HL. unfold DepthFirstSearch.
  destruct (is_goal problem init) eqn:Hg.
  - exists O, (Some []), []. split; [done|]. split; [constructor|].
    by split.
  - destruct (iterate_terminates step inv dfs_step_inv
                (dfs_measure problem L)
                (fun st1 st2 => dfs_step_measure L st1 st2 HL)
                (Datatypes.S (dfs_measure problem L (dfs_init init)))
                (dfs_init init) dfs_inv_init)
      as (r & calls & Hrun); [lia|].
    eexists _, r, calls. split; [exact Hrun|].
    destruct (iterate_return step inv dfs_step_inv _ _ _ _
                dfs_inv_init Hrun) as (st & Hi & Hs).
    by apply (dfs_step_return st).
Qed.
End DfsFacts.

(** ** Runs of the five search functions *)

Section Runs.
Context {State Action : Type} `{Countable State}.
Variable problem : Problem State Action.
Variable init : State.

Lemma closedb_finite_reach L :
  closedb problem init L = true -> finite_reach problem init L.
Proof.
  unfold closedb. intros [Hinit Hclosed]%andb_true_iff.
  apply bool_decide_eq_true in Hinit.
  rewrite forallb_forall in Hclosed.
  intros s (p & Hv & <-).
  induction p as [|a p IH] using rev_ind; [done|].
  apply valid_snoc in Hv as [Hv Ha]. rewrite exec_snoc.
  specialize (Hclosed _ (proj1 (list_elem_of_In _ _) (IH Hv))).
  rewrite forallb_forall in Hclosed.
  specialize (Hclosed _ (proj1 (list_elem_of_In _ _) Ha)).
  by apply bool_decide_eq_true in Hclosed.
Qed.

Lemma outcome_map_Return {St St'} (abs : St -> St')
      (o : outcome (call State Action) St (@Solution Action)) r calls :
  outcome_map abs o = Return r calls -> o = Return r calls.
Proof. destruct o; simpl; congruence. Qed.

Lemma outcome_map_Running {St St'} (abs : St -> St')
      (o : outcome (call State Action) St (@Solution Action)) st :
  o = Running st -> outcome_map abs o = Running (abs st).
Proof. by intros ->. Qed.

(** *** Priority search *)

Section Ps.
Variable node_priority : Z -> State -> Z.
Variable prune : bool.

Abbreviation ps_run_from fuel :=
  (iterate (ps_step problem node_priority prune) fuel
     (ps_init node_priority init)).

Lemma ps_running_inv fuel st :
  ps_run_from fuel = Running st -> ps_inv problem node_priority init st.
Proof.
  apply (iterate_invariant _ _ (ps_step_inv problem node_priority prune init)).
  apply ps_inv_init.
Qed.

Lemma ps_return_sound fuel r calls :
  ps_run_from fuel = Return r calls ->
  NoDup (expansions calls)
  /\ match r with Some p => solves problem init p | None => True end.
Proof.
  intros Hrun.
  destruct (iterate_return _ _ (ps_step_inv problem node_priority prune init)
              _ _ _ _ (ps_inv_init problem node_priority init)
              Hrun) as (st & Hinv & Hstep).
  destruct (ps_step_return problem node_priority prune init st r calls
              Hinv Hstep) as [-> Hr].
  split; [by destruct Hinv|]. destruct r; [|done]. tauto.
Qed.

Lemma ps_calls_nodup fuel :
  NoDup (expansions (outcome_calls ps_calls (ps_run_from fuel))).
Proof.
  destruct (ps_run_from fuel) as [r calls|st] eqn:Hrun; simpl.
  - by destruct (ps_return_sound fuel r calls Hrun).
  - by destruct (ps_running_inv fuel st Hrun).
Qed.

Lemma ps_run L :
  finite_reach problem init L ->
  exists fuel r calls,
    ps_run_from fuel = Return r calls
    /\ match r with Some p => solves problem init p | None => True end.
Proof.
  intros HL.
  destruct (ps_terminates problem node_priority prune init L
              (ps_init node_priority init) HL
              (ps_inv_init problem node_priority init))
    as (r & calls & Hrun).
  eexists _, r, calls. split; [exact Hrun|].
  by destruct (ps_return_sound _ r calls Hrun).
Qed.
End Ps.
End Runs.

Section TopLevel.
Context {State Action : Type} `{Countable State}.
Variable problem : Problem State Action.
Variable heuristic : HeuristicFunction State Action.
Variable init : State.

Lemma ucs_returns L :
  finite_reach problem init L ->
  exists fuel r calls,
    UniformCostSearch problem init fuel = Return r calls
    /\ match r with Some p => solves problem init p | None => True end.
Proof.
  intros HL.
  destruct (ps_run problem init (fun g _ => g + 0) false L HL)
    as (fuel & r & calls & Hrun & Hr).
  rewrite ucs_iterate_abs in Hrun. apply outcome_map_Return in Hrun.
  by exists fuel, r, calls.
Qed.

Lemma astar_returns L :
  finite_reach problem init L ->
  exists fuel r calls,
    AStarSearch problem heuristic init fuel = Return r calls
    /\ match r with Some p => solves problem init p | None => True end.
Proof.
  intros HL. unfold AStarSearch.
  destruct (is_goal problem init) eqn:Hg.
  - exists O, (Some []), []. split; [done|]. by split.
  - destruct (ps_run problem init
                (fun g s => g + heuristic problem s) true L HL)
      as (fuel & r & calls & Hrun & Hr).
    rewrite astar_iterate_abs in Hrun. apply outcome_map_Return in Hrun.
    by exists fuel, r, calls.
Qed.

Lemma gbfs_returns L :
  finite_reach problem init L ->
  exists fuel r calls,
    BestFirstSearch problem heuristic init fuel = Return r calls
    /\ match r with Some p => solves problem init p | None => True end.
Proof.
  intros HL. unfold BestFirstSearch.
  destruct (is_goal problem init) eqn:Hg.
  - exists O, (Some []), []. split; [done|]. by split.
  - destruct (ps_run problem init
                (fun _ s => heuristic problem s) true L HL)
      as (fuel & r & calls & Hrun & Hr).
    rewrite gbfs_iterate_abs in Hrun. apply outcome_map_Return in Hrun.
    by exists fuel, r, calls.
Qed.

Lemma bfs_returns L :
  finite_reach problem init L ->
  exists fuel r calls,
    BreadthFirstSearch problem init fuel = Return r calls
    /\ match r with Some p => solves problem init p | None => True end.
Proof.
  intros HL.
  destruct (bfs_run problem init L) as (fuel & r & calls & Hrun & _ & Hr).
  - intros st Hinv x Hx. apply HL. by apply (bfs_frontier_reachable _ _ st).
  - exists fuel, r, calls. split; [done|]. destruct r; [tauto|done].
Qed.

Lemma dfs_returns L :
  finite_reach problem init L ->
  exists fuel r calls,
    DepthFirstSearch problem init fuel = Return r calls
    /\ match r with Some p => solves problem init p | None => True end.
Proof.
  intros HL.
  destruct (dfs_run problem init L HL) as (fuel & r & calls & Hrun & _ & Hr).
  by exists fuel, r, calls.
Qed.

(** UniformCostSearch returns a cheapest solution. *)
Lemma ucs_returns_optimal L :
  finite_reach problem init L -> nonneg_costs problem ->
  exists fuel r calls,
    UniformCostSearch problem init fuel = Return r calls
    /\ match r with
       | Some p =>
           solves problem init p
           /\ forall q, solves problem init q ->
                       path_cost problem init p <= path_cost problem init q
       | None => forall q, ~ solves problem init q
       end.
Proof.
  intros HL Hcost.
  destruct (ps_search_optimal problem (fun _ => 0) false init) with (L := L)
    as (fuel & r & calls & Hrun & Hr); try done.
  - intros s a Ha. specialize (Hcost s a Ha). lia.
  - cbv beta in Hrun. rewrite ucs_iterate_abs in Hrun.
    apply outcome_map_Return in Hrun. by exists fuel, r, calls.
Qed.

(** AStarSearch returns a cheapest solution when the heuristic is
    consistent and zero on goals. *)
Lemma astar_returns_optimal L :
  finite_reach problem init L ->
  consistent problem heuristic -> zero_on_goals problem heuristic ->
  exists fuel r calls,
    AStarSearch problem heuristic init fuel = Return r calls
    /\ match r with
       | Some p =>
           solves problem init p
           /\ forall q, solves problem init q ->
                       path_cost problem init p <= path_cost problem init q
       | None => forall q, ~ solves problem init q
       end.
Proof.
  intros HL Hcons Hzero. unfold AStarSearch.
  destruct (is_goal problem init) eqn:Hg.
  - exists O, (Some []), []. split; [done|]. split; [by split|].
    intros q [Hv Hq]. simpl.
    pose proof (h_path problem (heuristic problem) Hcons init q Hv) as Hp.
    rewrite (Hzero _ Hg), (Hzero _ Hq) in Hp. lia.
  - destruct (ps_search_optimal problem (heuristic problem) true init
                Hcons Hzero L HL) as (fuel & r & calls & Hrun & Hr).
    rewrite astar_iterate_abs in Hrun. apply outcome_map_Return in Hrun.
    by exists fuel, r, calls.
Qed.
End TopLevel.

(** ** Properties of the search functions *)

(** C3.  When the initial state is a goal, each of the five search
    functions returns the empty list of actions, having called neither
    [get_actions] nor [get_successor]. *)
Theorem initial_goal_returns_empty_path
        {State Action : Type} `{Countable State}
        (problem : Problem State Action)
        (heuristic : HeuristicFunction State Action)
        (initial_state : State) (fuel : nat) :
  is_goal problem initial_state = true ->
  BreadthFirstSearch problem initial_state (Datatypes.S fuel)
  = Return (Some []) []
  /\ DepthFirstSearch problem initial_state (Datatypes.S fuel)
     = Return (Some []) []
  /\ UniformCostSearch problem initial_state (Datatypes.S fuel)
     = Return (Some []) []
  /\ AStarSearch problem heuristic initial_state (Datatypes.S fuel)
     = Return (Some []) []
  /\ BestFirstSearch problem heuristic initial_state (Datatypes.S fuel)
     = Return (Some []) [].
Proof.
  intros Hg.
  unfold BreadthFirstSearch, DepthFirstSearch, UniformCostSearch,
    AStarSearch, BestFirstSearch.
  rewrite Hg. repeat split.
  cbn. by rewrite Hg.
Qed.

Lemma initial_goal_returns_empty_path_witness :
  is_goal fan_problem 1%nat = true
  /\ (BreadthFirstSearch fan_problem 1%nat 1 = Return (Some []) []
      /\ DepthFirstSearch fan_problem 1%nat 1 = Return (Some []) []
      /\ UniformCostSearch fan_problem 1%nat 1 = Return (Some []) []
      /\ AStarSearch fan_problem zero_estimate 1%nat 1 = Return (Some []) []
      /\ BestFirstSearch fan_problem zero_estimate 1%nat 1
         = Return (Some []) []).
Proof.
  split; [reflexivity|].
  apply (initial_goal_returns_empty_path fan_problem zero_estimate 1%nat O).
  reflexivity.
Defined.

(** C9.  When the states reachable from the initial state are finitely
    many, each of the five search functions returns: a list of actions or
    [None]. *)
Theorem finite_search_returns
        {State Action : Type} `{Countable State}
        (problem : Problem State Action)
        (heuristic : HeuristicFunction State Action)
        (initial_state : State) (L : list State) :
  finite_reach problem initial_state L ->
  (exists fuel r calls,
      BreadthFirstSearch problem initial_state fuel = Return r calls)
  /\ (exists fuel r calls,
         DepthFirstSearch problem initial_state fuel = Return r calls)
  /\ (exists fuel r calls,
         UniformCostSearch problem initial_state fuel = Return r calls)
  /\ (exists fuel r calls,
         AStarSearch problem heuristic initial_state fuel = Return r calls)
  /\ (exists fuel r calls,
         BestFirstSearch problem heuristic initial_state fuel
         = Return r calls).
Proof.
  intros HL.
  destruct (bfs_returns problem initial_state L HL) as (f1 & r1 & c1 & H1 & _).
  destruct (dfs_returns problem initial_state L HL) as (f2 & r2 & c2 & H2 & _).
  destruct (ucs_returns problem initial_state L HL) as (f3 & r3 & c3 & H3 & _).
  destruct (astar_returns problem heuristic initial_state L HL)
    as (f4 & r4 & c4 & H4 & _).
  destruct (gbfs_returns problem heuristic initial_state L HL)
    as (f5 & r5 & c5 & H5 & _).
  repeat split; eauto.
Qed.

Lemma finite_search_returns_witness :
  finite_reach (loop_problem (fun _ => false)) 0%nat [0; 1; 2]%nat
  /\ ((exists fuel r calls,
          BreadthFirstSearch (loop_problem (fun _ => false)) 0%nat fuel
          = Return r calls)
      /\ (exists fuel r calls,
             DepthFirstSearch (loop_problem (fun _ => false)) 0%nat fuel
             = Return r calls)
      /\ (exists fuel r calls,
             UniformCostSearch (loop_problem (fun _ => false)) 0%nat fuel
             = Return r calls)
      /\ (exists fuel r calls,
             AStarSearch (loop_problem (fun _ => false)) zero_estimate
               0%nat fuel = Return r calls)
      /\ (exists fuel r calls,
             BestFirstSearch (loop_problem (fun _ => false)) zero_estimate
               0%nat fuel = Return r calls)).
Proof.
  split; [apply closedb_finite_reach; reflexivity|].
  apply (finite_search_returns (loop_problem (fun _ => false)) zero_estimate
           0%nat [0; 1; 2]%nat).
  apply closedb_finite_reach; reflexivity.
Defined.

(** *** The endless chain *)

Lemma detour_actions n :
  Nat.even n = true -> (2 <= n)%nat ->
  get_actions detour_problem n = [Datatypes.S (Datatypes.S n)].
Proof.
  intros Heven Hn. destruct n as [|n]; [lia|].
  cbn [detour_problem graph_problem get_actions]. by rewrite Heven.
Qed.

Lemma detour_chain p : forall s,
  Nat.even s = true -> (2 <= s)%nat -> valid detour_problem s p ->
  Nat.even (exec detour_problem s p) = true.
Proof.
  induction p as [|a p IH]; intros s Heven Hs Hv; [done|].
  destruct Hv as [Ha Hv]. rewrite detour_actions in Ha by done.
  apply list_elem_of_singleton in Ha as ->.
  simpl. apply IH; [done|lia|done].
Qed.

Lemma detour_bfs_never_returns fuel :
  exists st, BreadthFirstSearch detour_problem 2%nat fuel = Running st.
Proof.
  unfold BreadthFirstSearch.
  change (is_goal detour_problem 2%nat) with false. cbv iota.
  destruct (iterate_never_returns (bfs_step detour_problem)
              (fun st => exists n p,
                   Nat.even n = true /\ (2 <= n)%nat
                   /\ bfs_frontier st = [(n, p)]
                   /\ forall m, m ∈ bfs_explored st -> (m <= n)%nat)
              fuel (bfs_init 2%nat)) as (st & Hst & _); [| |by exists st].
  - intros st (n & p & Heven & Hn & Hfr & Hex).
    unfold bfs_step. rewrite Hfr, detour_actions by done.
    cbn [for_each]. unfold bfs_body. cbn [bfs_explored bfs_frontier bfs_calls].
    change (get_successor detour_problem n (Datatypes.S (Datatypes.S n)))
      with (Datatypes.S (Datatypes.S n)).
    destruct (decide (Datatypes.S (Datatypes.S n) ∉ bfs_explored st))
      as [_|Hin].
    + change (is_goal detour_problem (Datatypes.S (Datatypes.S n)))
        with false. cbv iota.
      eexists. split; [done|].
      exists (Datatypes.S (Datatypes.S n)), (p ++ [Datatypes.S (Datatypes.S n)]).
      split; [done|]. split; [lia|]. split; [done|].
      cbn [bfs_explored].
      intros m [Hm| ->%elem_of_singleton]%elem_of_union; [|lia].
      specialize (Hex m Hm). lia.
    + exfalso. apply Hin. intros Hm. specialize (Hex _ Hm). lia.
  - exists 2%nat, []. repeat split; try done.
    simpl. intros m ->%elem_of_singleton. lia.
Qed.

(** C4, as stated, fails: in the endless chain started in state 2 no goal
    is reachable, and BreadthFirstSearch never returns. *)
Lemma unreachable_goal_search_may_not_return :
  (forall s, reachable detour_problem 2%nat s ->
             is_goal detour_problem s = false)
  /\ forall fuel,
      exists st, BreadthFirstSearch detour_problem 2%nat fuel = Running st.
Proof.
  split; [|apply detour_bfs_never_returns].
  intros s (p & Hv & <-).
  pose proof (detour_chain p 2%nat eq_refl ltac:(lia) Hv) as Heven.
  simpl. destruct (Nat.eqb_spec (exec detour_problem 2%nat p) 1) as [Heq|];
    [|done].
  rewrite Heq in Heven. discriminate.
Qed.

(** C4, amended.  When the states reachable from the initial state are
    finitely many and none of them is a goal, each of the five search
    functions returns [None], which differs from every list of actions,
    the empty one included. *)
Theorem unreachable_goal_returns_none
        {State Action : Type} `{Countable State}
        (problem : Problem State Action)
        (heuristic : HeuristicFunction State Action)
        (initial_state : State) (L : list State) :
  finite_reach problem initial_state L ->
  (forall s, reachable problem initial_state s -> is_goal problem s = false) ->
  (exists fuel calls,
      BreadthFirstSearch problem initial_state fuel = Return None calls)
  /\ (exists fuel calls,
         DepthFirstSearch problem initial_state fuel = Return None calls)
  /\ (exists fuel calls,
         UniformCostSearch problem initial_state fuel = Return None calls)
  /\ (exists fuel calls,
         AStarSearch problem heuristic initial_state fuel
         = Return None calls)
  /\ (exists fuel calls,
         BestFirstSearch problem heuristic initial_state fuel
         = Return None calls)
  /\ forall p : list Action, (None : @Solution Action) <> Some p.
Proof.
  intros HL Hno.
  assert (forall r : @Solution Action,
            match r with
            | Some p => solves problem initial_state p
            | None => True
            end -> r = None) as Hnone.
  { intros [p|] Hr; [|done]. destruct Hr as [Hv Hg].
    rewrite Hno in Hg; [done|by exists p]. }
  destruct (bfs_returns problem initial_state L HL)
    as (f1 & r1 & c1 & H1 & ->%Hnone).
  destruct (dfs_returns problem initial_state L HL)
    as (f2 & r2 & c2 & H2 & ->%Hnone).
  destruct (ucs_returns problem initial_state L HL)
    as (f3 & r3 & c3 & H3 & ->%Hnone).
  destruct (astar_returns problem heuristic initial_state L HL)
    as (f4 & r4 & c4 & H4 & ->%Hnone).
  destruct (gbfs_returns problem heuristic initial_state L HL)
    as (f5 & r5 & c5 & H5 & ->%Hnone).
  repeat split; eauto.
Qed.

Lemma unreachable_goal_returns_none_witness :
  finite_reach (loop_problem (fun _ => false)) 0%nat [0; 1; 2]%nat
  /\ (forall s, reachable (loop_problem (fun _ => false)) 0%nat s ->
                is_goal (loop_problem (fun _ => false)) s = false)
  /\ ((exists fuel calls,
          BreadthFirstSearch (loop_problem (fun _ => false)) 0%nat fuel
          = Return None calls)
      /\ (exists fuel calls,
             DepthFirstSearch (loop_problem (fun _ => false)) 0%nat fuel
             = Return None calls)
      /\ (exists fuel calls,
             UniformCostSearch (loop_problem (fun _ => false)) 0%nat fuel
             = Return None calls)
      /\ (exists fuel calls,
             AStarSearch (loop_problem (fun _ => false)) zero_estimate
               0%nat fuel = Return None calls)
      /\ (exists fuel calls,
             BestFirstSearch (loop_problem (fun _ => false)) zero_estimate
               0%nat fuel = Return None calls)
      /\ forall p : list nat, (None : @Solution nat) <> Some p).
Proof.
  split; [apply closedb_finite_reach; reflexivity|].
  split; [reflexivity|].
  apply (unreachable_goal_returns_none (loop_problem (fun _ => false))
           zero_estimate 0%nat [0; 1; 2]%nat).
  - apply closedb_finite_reach; reflexivity.
  - reflexivity.
Defined.

Lemma outcome_calls_map {Call St St' R : Type} (abs : St -> St')
      (calls_of : St -> list Call) (calls_of' : St' -> list Call)
      (o : outcome Call St R) :
  (forall st, calls_of' (abs st) = calls_of st) ->
  outcome_calls calls_of' (outcome_map abs o) = outcome_calls calls_of o.
Proof. intros Habs. destruct o; simpl; auto. Qed.

(** C5.  In every run of BreadthFirstSearch, UniformCostSearch,
    BestFirstSearch and AStarSearch, however long, no state has its
    successors generated more than once: the states on which
    [get_actions] was called are pairwise distinct. *)
Theorem no_state_expanded_twice
        {State Action : Type} `{Countable State}
        (problem : Problem State Action)
        (heuristic : HeuristicFunction State Action)
        (initial_state : State) (fuel : nat) :
  NoDup (expansions
           (outcome_calls bfs_calls
              (BreadthFirstSearch problem initial_state fuel)))
  /\ NoDup (expansions
              (outcome_calls ucs_calls
                 (UniformCostSearch problem initial_state fuel)))
  /\ NoDup (expansions
              (outcome_calls gbfs_calls
                 (BestFirstSearch problem heuristic initial_state fuel)))
  /\ NoDup (expansions
              (outcome_calls astar_calls
                 (AStarSearch problem heuristic initial_state fuel))).
Proof.
  split; [|split; [|split]].
  - unfold BreadthFirstSearch.
    destruct (is_goal problem initial_state) eqn:Hg; [constructor|].
    pose proof (bfs_Inv_init problem initial_state Hg) as Hinv0.
    destruct (iterate (bfs_step problem) fuel (bfs_init initial_state))
      as [r calls|st] eqn:Hrun; simpl.
    + destruct (iterate_return _ _ (bfs_step_Inv problem initial_state)
                  _ _ _ _ Hinv0 Hrun) as (st & Hi & Hs).
      by destruct (bfs_step_return problem initial_state st r calls Hi Hs).
    + apply (bfs_Inv_nodup problem initial_state).
      by apply (iterate_invariant _ _ (bfs_step_Inv problem initial_state)
                  fuel (bfs_init initial_state)).
  - rewrite <- (outcome_calls_map ucs_abs ucs_calls ps_calls) by done.
    rewrite <- ucs_iterate_abs. apply ps_calls_nodup.
  - unfold BestFirstSearch.
    destruct (is_goal problem initial_state); [constructor|].
    rewrite <- (outcome_calls_map (gbfs_abs problem initial_state)
                  gbfs_calls ps_calls) by done.
    rewrite <- gbfs_iterate_abs. apply ps_calls_nodup.
  - unfold AStarSearch.
    destruct (is_goal problem initial_state); [constructor|].
    rewrite <- (outcome_calls_map astar_abs astar_calls ps_calls) by done.
    rewrite <- astar_iterate_abs. apply ps_calls_nodup.
Qed.

(** C2.  When some goal is reachable, in a state graph with or without
    cycles, BreadthFirstSearch returns a path to a goal that has the
    fewest actions among all paths from the initial state to a goal. *)
Theorem bfs_returns_fewest_actions
        {State Action : Type} `{Countable State}
        (problem : Problem State Action)
        (initial_state : State) (q0 : list Action) :
  solves problem initial_state q0 ->
  exists fuel p calls,
    BreadthFirstSearch problem initial_state fuel = Return (Some p) calls
    /\ solves problem initial_state p
    /\ forall q, solves problem initial_state q ->
                 (length p <= length q)%nat.
Proof.
  intros Hq0.
  destruct (bfs_run problem initial_state
              (reach_le problem (length q0) initial_state))
    as (fuel & r & calls & Hrun & _ & Hr).
  - intros st Hinv x Hx. by apply (bfs_frontier_near _ _ q0 st).
  - destruct r as [p|]; [|by destruct (Hr q0)].
    exists fuel, p, calls. tauto.
Qed.

Lemma bfs_returns_fewest_actions_witness :
  solves (loop_problem (fun s => Nat.eqb s 2)) 0%nat [1; 2]%nat
  /\ exists fuel p calls,
      BreadthFirstSearch (loop_problem (fun s => Nat.eqb s 2)) 0%nat fuel
      = Return (Some p) calls
      /\ solves (loop_problem (fun s => Nat.eqb s 2)) 0%nat p
      /\ forall q, solves (loop_problem (fun s => Nat.eqb s 2)) 0%nat q ->
                   (length p <= length q)%nat.
Proof.
  assert (solves (loop_problem (fun s => Nat.eqb s 2)) 0%nat [1; 2]%nat)
    as Hsol.
  { split; [|reflexivity]. simpl. repeat split; apply list_elem_of_In; simpl; auto. }
  split; [exact Hsol|].
  exact (bfs_returns_fewest_actions (loop_problem (fun s => Nat.eqb s 2))
           0%nat [1; 2]%nat Hsol).
Defined.

(** *** The stack of DepthFirstSearch *)

Lemma dfs_for_all_spec {State Action : Type} `{Countable State}
      (problem : Problem State Action) (s : State) (p : list Action)
      (acts : list Action) : forall st : dfs_state (State := State) (Action := Action),
  let st2 := for_all (dfs_body problem s p) acts st in
  dfs_frontier st2
  = rev ((fun a => (get_successor problem s a, p ++ [a]))
           <$> dfs_pushed problem (dfs_explored st)
                 (fst <$> dfs_frontier st) s acts)
    ++ dfs_frontier st
  /\ dfs_explored st2 = dfs_explored st
  /\ expansions (dfs_calls st2) = expansions (dfs_calls st).
Proof.
induction acts as [|a acts IH]; intros st; [done|].
cbn [for_all dfs_pushed].
destruct (IH (dfs_body problem s p a st)) as (Hfr & Hex & Hc).
cbn zeta in *. rewrite Hfr, Hex, Hc. clear Hfr Hex Hc IH.
unfold dfs_body.
destruct (decide ((get_successor problem s a ∉ dfs_explored st)
                  ∧ (get_successor problem s a ∉ fst <$> dfs_frontier st)))
  as [Hfresh|Hold]; cbn [dfs_frontier dfs_explored dfs_calls].
- rewrite expansions_snoc_successor. split; [|done].
  rewrite !fmap_cons. cbn [rev fst]. by rewrite <- app_assoc.
- by rewrite expansions_snoc_successor.
Qed.



(** C10, as stated, fails: in the cycle problem state 1 offers the actions
    2 and 0 in this order; the successor of the last one, state 0, is
    already explored when state 1 is expanded, and the state expanded next
    is 2, the successor of the first action. *)
Lemma dfs_last_action_may_not_come_first :
  expansions
    (outcome_calls dfs_calls
       (DepthFirstSearch (loop_problem (fun _ => false)) 0%nat 3))
  = [0; 1; 2]%nat
  /\ last (get_actions (loop_problem (fun _ => false)) 1%nat) = Some 0%nat
  /\ get_successor (loop_problem (fun _ => false)) 1%nat 0%nat <> 2%nat.
Proof. split; [vm_compute; reflexivity|]. split; [reflexivity|]. simpl. lia. Qed.

(** C10, amended.  When DepthFirstSearch expands a state, the successors
    it pushes (those that are neither explored nor on the stack) lie on top
    of the stack in reverse [get_actions] order; so the successor pushed
    last, from the last action whose successor was pushed, is the next node
    popped and the first one expanded. *)
Theorem dfs_expands_last_pushed_first
        {State Action : Type} `{Countable State}
        (problem : Problem State Action)
        (st : dfs_state (State := State) (Action := Action)) (s : State) (p : list Action)
        (rest : list (State * list Action)) :
  dfs_frontier st = (s, p) :: rest ->
  is_goal problem s = false ->
  let pushed :=
    dfs_pushed problem (dfs_explored st ∪ {[ s ]}) (fst <$> rest) s
      (get_actions problem s) in
  exists st',
    dfs_step problem st = Running st'
    /\ dfs_frontier st'
       = rev ((fun a => (get_successor problem s a, p ++ [a])) <$> pushed)
         ++ rest
    /\ forall a, last pushed = Some a ->
         (exists rest', dfs_frontier st'
                        = (get_successor problem s a, p ++ [a]) :: rest')
         /\ (is_goal problem (get_successor problem s a) = false ->
             exists st'',
               dfs_step problem st' = Running st''
               /\ expansions (dfs_calls st'')
                  = expansions (dfs_calls st)
                    ++ [s; get_successor problem s a]).
Proof.
intros Hfr Hg pushed. unfold dfs_step at 1. rewrite Hfr, Hg.
eexists. split; [done|].
match goal with
| |- context [for_all ?b ?xs ?st1] =>
    destruct (dfs_for_all_spec problem s p xs st1) as (Hfr2 & Hex2 & Hc2);
    set (st' := for_all b xs st1) in *
end.
cbn [dfs_frontier dfs_explored dfs_calls] in Hfr2, Hex2, Hc2.
fold pushed in Hfr2. split; [done|].
intros a Hlast.
assert (exists rest', dfs_frontier st'
                      = (get_successor problem s a, p ++ [a]) :: rest')
  as (rest' & Htop).
{ rewrite Hfr2. destruct (last_Some pushed a) as [(l' & Hl) _]; [done|].
  rewrite Hl, fmap_app, rev_app_distr. simpl. by eexists. }
split; [by exists rest'|].
intros Hg'. unfold dfs_step. rewrite Htop, Hg'.
eexists. split; [done|].
match goal with
| |- context [for_all ?b ?xs ?st1] =>
    destruct (dfs_for_all_spec problem (get_successor problem s a)
                (p ++ [a]) xs st1) as (_ & _ & Hc3)
end.
cbn zeta in Hc3. rewrite Hc3. cbn [dfs_calls].
rewrite expansions_snoc_actions, Hc2, expansions_snoc_actions.
by rewrite <- app_assoc.
Qed.

Lemma dfs_expands_last_pushed_first_witness :
  dfs_frontier (dfs_init (Action := nat) 0%nat) = (0%nat, []) :: []
  /\ is_goal fan_problem 0%nat = false
  /\ exists st',
      dfs_step fan_problem (dfs_init 0%nat) = Running st'
      /\ dfs_frontier st'
         = [(3, [3]); (2, [2]); (1, [1])]%nat.
Proof.
split; [reflexivity|]. split; [reflexivity|].
destruct (dfs_expands_last_pushed_first fan_problem (dfs_init 0%nat) 0%nat
            [] [] eq_refl eq_refl) as (st' & Hstep & Hfr & _).
exists st'. split; [exact Hstep|]. rewrite Hfr. vm_compute. reflexivity.
Defined.

(** *** The order in which the heap is emptied *)

Lemma heappop_popped_first {E : Type} (priority : E -> Z) (ticket : E -> nat)
      (h : list E) (m : E) (rest : list E) :
  heappop priority ticket h = Some (m, rest) ->
  StronglySorted lt (ticket <$> h) ->
  popped_first priority ticket h m.
Proof.
intros (Hin & Hmin & _)%heappop_Some Hsorted. split; [done|].
intros x Hx. specialize (Hmin x Hx). apply item_ltb_false in Hmin.
split; [lia|]. intros Heq Hne.
assert (ticket x <> ticket m)
  by (intros Ht; apply Hne; by apply (sorted_tickets_inj ticket h)).
lia.
Qed.

Lemma insertion_numbered_fmap {E E' : Type} (ticket : E -> nat)
      (ticket' : E' -> nat) (g : E -> E') (count : nat) (h : list E) :
  (forall x, ticket' (g x) = ticket x) ->
  insertion_numbered ticket' count (g <$> h) ->
  insertion_numbered ticket count h.
Proof.
intros Hg [Hsorted Hlt].
assert (ticket' <$> (g <$> h) = ticket <$> h) as Heq.
{ clear Hsorted Hlt. induction h as [|x h IH]; [done|].
  by rewrite !fmap_cons, Hg, IH. }
split; [by rewrite <- Heq|].
intros x Hx. rewrite <- Hg. apply Hlt. apply list_elem_of_fmap. by exists x.
Qed.

Lemma ps_inv_numbered {State Action : Type} `{Countable State}
      (problem : Problem State Action) (node_priority : Z -> State -> Z)
      (init : State) (st : ps_state) :
  ps_inv problem node_priority init st ->
  insertion_numbered ps_ticket (ps_count st) (ps_frontier st).
Proof.
intros [Hitems Hsorted _ _ _]. split; [done|].
intros x Hx. by destruct (Hitems x Hx) as (_ & _ & _ & _ & ?).
Qed.

Section PushedFacts.
Context {State Action : Type} `{Countable State}.
Context (problem : Problem State Action).
Context (heuristic : HeuristicFunction State Action).

Lemma ucs_for_all_pushed (cost : Z) (state : State) (actions : list Action)
      (l : list Action) :
  forall st0 : ucs_state,
    exists pushed,
      ucs_frontier (for_all (ucs_body problem cost state actions) l st0)
      = ucs_frontier st0 ++ pushed
      /\ forall x, x ∈ pushed -> (ucs_count st0 <= ucs_ticket x)%nat.
Proof.
induction l as [|a l IH]; intros st0; simpl.
- exists []. split; [by rewrite app_nil_r|by intros ? ?%elem_of_nil].
- destruct (IH (ucs_body problem cost state actions a st0))
    as (pushed & -> & Hpushed).
  eexists (_ :: pushed). unfold ucs_body at 1, heappush. simpl.
  split; [by rewrite <- app_assoc|].
  intros x [->|Hx]%elem_of_cons; [done|].
  apply Hpushed in Hx. simpl in Hx. lia.
Qed.

Lemma astar_for_all_pushed (cost : Z) (state : State) (actions : list Action)
      (l : list Action) :
  forall st0 : astar_state,
    exists pushed,
      astar_frontier
        (for_all (astar_body problem heuristic cost state actions) l st0)
      = astar_frontier st0 ++ pushed
      /\ forall x, x ∈ pushed -> (astar_count st0 <= astar_ticket x)%nat.
Proof.
induction l as [|a l IH]; intros st0; simpl.
- exists []. split; [by rewrite app_nil_r|by intros ? ?%elem_of_nil].
- destruct (IH (astar_body problem heuristic cost state actions a st0))
    as (pushed & -> & Hpushed).
  unfold astar_body at 1 in Hpushed. unfold astar_body at 1.
  destruct (decide (get_successor problem state a ∉ astar_explored st0)).
  + eexists (_ :: pushed). unfold heappop, heappush. simpl.
    split; [by rewrite <- app_assoc|].
    intros x [->|Hx]%elem_of_cons; [done|].
    apply Hpushed in Hx. simpl in Hx. lia.
  + by exists pushed.
Qed.

Lemma gbfs_for_all_pushed (state : State) (actions : list Action)
      (l : list Action) :
  forall st0 : gbfs_state,
    exists pushed,
      gbfs_frontier
        (for_all (gbfs_body problem heuristic state actions) l st0)
      = gbfs_frontier st0 ++ pushed
      /\ forall x, x ∈ pushed -> (gbfs_count st0 <= gbfs_ticket x)%nat.
Proof.
induction l as [|a l IH]; intros st0; simpl.
- exists []. split; [by rewrite app_nil_r|by intros ? ?%elem_of_nil].
- destruct (IH (gbfs_body problem heuristic state actions a st0))
    as (pushed & -> & Hpushed).
  unfold gbfs_body at 1 in Hpushed. unfold gbfs_body at 1.
  destruct (decide (get_successor problem state a ∉ gbfs_explored st0)).
  + eexists (_ :: pushed). unfold heappush. simpl.
    split; [by rewrite <- app_assoc|].
    intros x [->|Hx]%elem_of_cons; [done|].
    apply Hpushed in Hx. simpl in Hx. lia.
  + by exists pushed.
Qed.

Lemma ucs_step_takes_first (st : ucs_state) :
  StronglySorted lt (ucs_ticket <$> ucs_frontier st) ->
  takes_first problem ucs_priority ucs_ticket
    (fun x : ucs_item => x.1.2) (fun x : ucs_item => x.2)
    ucs_frontier ucs_count st (ucs_step problem st).
Proof.
intros Hsorted. unfold ucs_step.
destruct (heappop ucs_priority ucs_ticket (ucs_frontier st))
  as [[m rest]|] eqn:Hpop; [|by apply heappop_None in Hpop].
pose proof (heappop_popped_first _ _ _ _ _ Hpop Hsorted) as Hfirst.
apply heappop_Some in Hpop as (_ & _ & -> & _).
destruct m as [[[cost n] state] actions]. simpl.
destruct (is_goal problem state) eqn:Hgoal; simpl.
{ by exists (cost, n, state, actions). }
destruct (decide (state ∉ ucs_explored st)); simpl.
- exists (cost, n, state, actions). split; [done|]. split; [done|].
  match goal with
  | |- context [for_all ?b ?l ?s] =>
      destruct (ucs_for_all_pushed cost state actions l s)
        as (pushed & -> & Hpushed)
  end.
  by exists pushed.
- exists (cost, n, state, actions). split; [done|]. split; [done|].
  exists []. split; [by rewrite app_nil_r|by intros ? ?%elem_of_nil].
Qed.

Lemma astar_step_takes_first (st : astar_state) :
  StronglySorted lt (astar_ticket <$> astar_frontier st) ->
  takes_first problem astar_priority astar_ticket
    (fun x : astar_item => x.1.2) (fun x : astar_item => x.2)
    astar_frontier astar_count st (astar_step problem heuristic st).
Proof.
intros Hsorted. unfold astar_step.
destruct (heappop astar_priority astar_ticket (astar_frontier st))
  as [[m rest]|] eqn:Hpop; [|by apply heappop_None in Hpop].
pose proof (heappop_popped_first _ _ _ _ _ Hpop Hsorted) as Hfirst.
apply heappop_Some in Hpop as (_ & _ & -> & _).
destruct m as [[[[f n] cost] state] actions]. simpl.
destruct (is_goal problem state) eqn:Hgoal; simpl.
{ by exists (f, n, cost, state, actions). }
destruct (decide (state ∉ astar_explored st)); simpl.
- exists (f, n, cost, state, actions). split; [done|]. split; [done|].
  match goal with
  | |- context [for_all ?b ?l ?s] =>
      destruct (astar_for_all_pushed cost state actions l s)
        as (pushed & -> & Hpushed)
  end.
  by exists pushed.
- exists (f, n, cost, state, actions). split; [done|]. split; [done|].
  exists []. split; [by rewrite app_nil_r|by intros ? ?%elem_of_nil].
Qed.

Lemma gbfs_step_takes_first (st : gbfs_state) :
  StronglySorted lt (gbfs_ticket <$> gbfs_frontier st) ->
  takes_first problem gbfs_priority gbfs_ticket
    (fun x : gbfs_item => x.1.2) (fun x : gbfs_item => x.2)
    gbfs_frontier gbfs_count st (gbfs_step problem heuristic st).
Proof.
intros Hsorted. unfold gbfs_step.
destruct (heappop gbfs_priority gbfs_ticket (gbfs_frontier st))
  as [[m rest]|] eqn:Hpop; [|by apply heappop_None in Hpop].
pose proof (heappop_popped_first _ _ _ _ _ Hpop Hsorted) as Hfirst.
apply heappop_Some in Hpop as (_ & _ & -> & _).
destruct m as [[[h n] state] actions]. simpl.
destruct (is_goal problem state) eqn:Hgoal; simpl.
{ by exists (h, n, state, actions). }
destruct (decide (state ∉ gbfs_explored st)); simpl.
- exists (h, n, state, actions). split; [done|]. split; [done|].
  match goal with
  | |- context [for_all ?b ?l ?s] =>
      destruct (gbfs_for_all_pushed state actions l s)
        as (pushed & -> & Hpushed)
  end.
  by exists pushed.
- exists (h, n, state, actions). split; [done|]. split; [done|].
  exists []. split; [by rewrite app_nil_r|by intros ? ?%elem_of_nil].
Qed.

End PushedFacts.

(** C6.  In every iteration of UniformCostSearch, BestFirstSearch and
    AStarSearch the step of the loop takes from the heap the node of least
    priority and, among the nodes of that priority, the one with the least
    counter: it returns that node's actions or continues with the heap
    without that node.  The priority is the accumulated cost of the node's
    path, the heuristic value of its state, and the sum of the two; the
    counters strictly increase in insertion order. *)
Theorem heap_pops_least_and_earliest
        {State Action : Type} `{Countable State}
        (problem : Problem State Action)
        (heuristic : HeuristicFunction State Action)
        (initial_state : State) (fuel : nat) :
  (forall st,
      UniformCostSearch problem initial_state fuel = Running st ->
      takes_first problem ucs_priority ucs_ticket
        (fun x : ucs_item => x.1.2) (fun x : ucs_item => x.2)
        ucs_frontier ucs_count st (ucs_step problem st)
      /\ insertion_numbered ucs_ticket (ucs_count st) (ucs_frontier st)
      /\ forall x, x ∈ ucs_frontier st ->
           ucs_priority x = path_cost problem initial_state x.2)
  /\ (forall st,
         BestFirstSearch problem heuristic initial_state fuel = Running st ->
         takes_first problem gbfs_priority gbfs_ticket
           (fun x : gbfs_item => x.1.2) (fun x : gbfs_item => x.2)
           gbfs_frontier gbfs_count st (gbfs_step problem heuristic st)
         /\ insertion_numbered gbfs_ticket (gbfs_count st) (gbfs_frontier st)
         /\ forall x, x ∈ gbfs_frontier st ->
              gbfs_priority x = heuristic problem x.1.2)
  /\ (forall st,
         AStarSearch problem heuristic initial_state fuel = Running st ->
         takes_first problem astar_priority astar_ticket
           (fun x : astar_item => x.1.2) (fun x : astar_item => x.2)
           astar_frontier astar_count st (astar_step problem heuristic st)
         /\ insertion_numbered astar_ticket (astar_count st)
              (astar_frontier st)
         /\ forall x, x ∈ astar_frontier st ->
              astar_priority x = x.1.1.2 + heuristic problem x.1.2
              /\ x.1.1.2 = path_cost problem initial_state x.2).
Proof.
split; [|split].
- intros st Hrun.
  assert (ps_inv problem (fun g _ => g + 0) initial_state (ucs_abs st))
    as Hinv.
  { apply (ps_running_inv problem initial_state _ false fuel).
    rewrite ucs_iterate_abs. by apply outcome_map_Running. }
  assert (insertion_numbered ucs_ticket (ucs_count st) (ucs_frontier st))
    as Hnum.
  { apply (insertion_numbered_fmap _ ps_ticket ucs_abs_item); [done|].
    apply (ps_inv_numbered _ _ _ _ Hinv). }
  split; [apply ucs_step_takes_first, Hnum|].
  split; [done|].
  intros x Hx. destruct Hinv as [Hitems _ _ _ _].
  destruct (Hitems (ucs_abs_item x)) as (_ & _ & Hc & _).
  { apply list_elem_of_fmap. by exists x. }
  symmetry. exact Hc.
- intros st. unfold BestFirstSearch.
  destruct (is_goal problem initial_state); [discriminate|].
  intros Hrun.
  assert (ps_inv problem (fun _ s => heuristic problem s) initial_state
            (gbfs_abs problem initial_state st)) as Hinv.
  { apply (ps_running_inv problem initial_state _ true fuel).
    rewrite (gbfs_iterate_abs problem heuristic).
    by apply outcome_map_Running. }
  assert (insertion_numbered gbfs_ticket (gbfs_count st) (gbfs_frontier st))
    as Hnum.
  { apply (insertion_numbered_fmap _ ps_ticket
             (gbfs_abs_item problem initial_state)); [done|].
    apply (ps_inv_numbered _ _ _ _ Hinv). }
  split; [apply gbfs_step_takes_first, Hnum|].
  split; [done|].
  intros x Hx. destruct Hinv as [Hitems _ _ _ _].
  destruct (Hitems (gbfs_abs_item problem initial_state x))
    as (_ & _ & _ & Hp & _).
  { apply list_elem_of_fmap. by exists x. }
  exact Hp.
- intros st. unfold AStarSearch.
  destruct (is_goal problem initial_state); [discriminate|].
  intros Hrun.
  assert (ps_inv problem (fun g s => g + heuristic problem s) initial_state
            (astar_abs st)) as Hinv.
  { apply (ps_running_inv problem initial_state _ true fuel).
    rewrite (astar_iterate_abs problem heuristic).
    by apply outcome_map_Running. }
  pose proof (ps_inv_numbered _ _ _ _ Hinv) as Hnum.
  split; [apply astar_step_takes_first, Hnum|].
  split; [done|].
  intros x Hx. destruct Hinv as [Hitems _ _ _ _].
  destruct (Hitems x Hx) as (_ & _ & Hc & Hp & _).
  split; [exact Hp|]. symmetry. exact Hc.
Qed.

Lemma heap_pops_least_and_earliest_witness :
  exists st,
    UniformCostSearch fan_problem 0%nat 1 = Running st
    /\ ucs_step fan_problem st = Return (Some [2%nat]) (ucs_calls st)
    /\ takes_first fan_problem ucs_priority ucs_ticket
         (fun x : ucs_item => x.1.2) (fun x : ucs_item => x.2)
         ucs_frontier ucs_count st (ucs_step fan_problem st).
Proof.
eexists.
split; [vm_compute; reflexivity|].
split; [vm_compute; reflexivity|].
eapply (proj1 (heap_pops_least_and_earliest fan_problem zero_estimate
                 0%nat 1)).
vm_compute. reflexivity.
Defined.

(** C7, as stated, fails: when AStarSearch expands state 1 of the cycle
    problem it generates the successors 2 and 0, and pushes only the node
    of state 2, state 0 being explored. *)
Lemma astar_skips_explored_successor :
  outcome_calls astar_calls
    (AStarSearch (loop_problem (fun _ => false)) zero_estimate 0%nat 2)
  = [GetActions 0%nat; GetSuccessor 0%nat 1%nat;
     GetActions 1%nat; GetSuccessor 1%nat 2%nat; GetSuccessor 1%nat 0%nat]
  /\ exists st,
      AStarSearch (loop_problem (fun _ => false)) zero_estimate 0%nat 2
      = Running st
      /\ astar_frontier st = [(2, 2%nat, 2, 2%nat, [1; 2]%nat)].
Proof.
split; [vm_compute; reflexivity|].
eexists. split; [vm_compute; reflexivity|]. reflexivity.
Qed.

(** C7, amended.  UniformCostSearch pushes every generated successor,
    whatever the explored set; AStarSearch and BestFirstSearch push a
    generated successor only if its state is not explored;
    DepthFirstSearch pushes it only if its state is neither explored nor
    on the stack.  In UniformCostSearch, AStarSearch and BestFirstSearch a
    popped node whose state is explored is discarded without expansion and
    the loop continues; DepthFirstSearch never pops an explored state and
    expands every node it pops that is not a goal. *)
Theorem deduplication_policy
        {State Action : Type} `{Countable State}
        (problem : Problem State Action)
        (heuristic : HeuristicFunction State Action)
        (initial_state : State) :
  (forall cost state actions action st,
      ucs_frontier (ucs_body problem cost state actions action st)
      = ucs_frontier st
        ++ [(cost + get_cost problem state action, ucs_count st,
             get_successor problem state action, actions ++ [action])])
  /\ (forall cost state actions action st,
         astar_frontier
           (astar_body problem heuristic cost state actions action st)
         = if decide (get_successor problem state action ∈ astar_explored st)
           then astar_frontier st
           else astar_frontier st
                ++ [(cost + get_cost problem state action
                     + heuristic problem (get_successor problem state action),
                     astar_count st,
                     cost + get_cost problem state action,
                     get_successor problem state action,
                     actions ++ [action])])
  /\ (forall state actions action st,
         gbfs_frontier (gbfs_body problem heuristic state actions action st)
         = if decide (get_successor problem state action ∈ gbfs_explored st)
           then gbfs_frontier st
           else gbfs_frontier st
                ++ [(heuristic problem (get_successor problem state action),
                     gbfs_count st,
                     get_successor problem state action,
                     actions ++ [action])])
  /\ (forall state actions action st,
         dfs_frontier (dfs_body problem state actions action st)
         = if decide (get_successor problem state action ∈ dfs_explored st
                      \/ get_successor problem state action
                           ∈ fst <$> dfs_frontier st)
           then dfs_frontier st
           else (get_successor problem state action, actions ++ [action])
                :: dfs_frontier st)
  /\ (forall st cost n state actions rest,
         heappop ucs_priority ucs_ticket (ucs_frontier st)
         = Some ((cost, n, state, actions), rest) ->
         is_goal problem state = false -> state ∈ ucs_explored st ->
         ucs_step problem st
         = Running {| ucs_frontier := rest;
                      ucs_explored := ucs_explored st;
                      ucs_count := ucs_count st;
                      ucs_calls := ucs_calls st |})
  /\ (forall st f n cost state actions rest,
         heappop astar_priority astar_ticket (astar_frontier st)
         = Some ((f, n, cost, state, actions), rest) ->
         is_goal problem state = false -> state ∈ astar_explored st ->
         astar_step problem heuristic st
         = Running {| astar_frontier := rest;
                      astar_explored := astar_explored st;
                      astar_count := astar_count st;
                      astar_calls := astar_calls st |})
  /\ (forall st h n state actions rest,
         heappop gbfs_priority gbfs_ticket (gbfs_frontier st)
         = Some ((h, n, state, actions), rest) ->
         is_goal problem state = false -> state ∈ gbfs_explored st ->
         gbfs_step problem heuristic st
         = Running {| gbfs_frontier := rest;
                      gbfs_explored := gbfs_explored st;
                      gbfs_count := gbfs_count st;
                      gbfs_calls := gbfs_calls st |})
  /\ (forall fuel st s p rest,
         DepthFirstSearch problem initial_state fuel = Running st ->
         dfs_frontier st = (s, p) :: rest ->
         s ∉ dfs_explored st
         /\ (is_goal problem s = false ->
             exists st',
               dfs_step problem st = Running st'
               /\ expansions (dfs_calls st')
                  = expansions (dfs_calls st) ++ [s])).
Proof.
repeat apply conj.
- done.
- intros cost state actions action st. unfold astar_body.
  destruct (decide (get_successor problem state action ∉ astar_explored st)),
    (decide (get_successor problem state action ∈ astar_explored st)); done.
- intros state actions action st. unfold gbfs_body.
  destruct (decide (get_successor problem state action ∉ gbfs_explored st)),
    (decide (get_successor problem state action ∈ gbfs_explored st)); done.
- intros state actions action st. unfold dfs_body.
  destruct (decide ((get_successor problem state action ∉ dfs_explored st)
                    ∧ (get_successor problem state action
                         ∉ fst <$> dfs_frontier st))) as [[H1 H2]|Hn],
    (decide (get_successor problem state action ∈ dfs_explored st
             \/ get_successor problem state action
                  ∈ fst <$> dfs_frontier st)) as [Hor|Hnor];
    try done.
  + by destruct Hor.
  + exfalso. apply Hn. split; intros Hin; apply Hnor; [by left|by right].
- intros st cost n state actions rest Hpop Hg Hin. unfold ucs_step.
  rewrite Hpop, Hg.
  by destruct (decide (state ∉ ucs_explored st)).
- intros st f n cost state actions rest Hpop Hg Hin. unfold astar_step.
  rewrite Hpop, Hg.
  by destruct (decide (state ∉ astar_explored st)).
- intros st h n state actions rest Hpop Hg Hin. unfold gbfs_step.
  rewrite Hpop, Hg.
  by destruct (decide (state ∉ gbfs_explored st)).
- intros fuel st s p rest. unfold DepthFirstSearch.
  destruct (is_goal problem initial_state); [discriminate|]. intros Hrun Hfr.
  pose proof (iterate_invariant _ _ (dfs_step_inv problem initial_state)
                fuel (dfs_init initial_state) st
                (dfs_inv_init problem initial_state) Hrun) as Hinv.
  pose proof (dfs_step_spec problem initial_state st Hinv) as Hspec.
  rewrite Hfr in Hspec. destruct Hspec as (Hs & _ & _ & Hspec).
  split; [done|]. intros Hg. rewrite Hg in Hspec.
  destruct Hspec as (st' & Hstep & _ & _ & Hc & _). by exists st'.
Qed.

Lemma deduplication_policy_witness :
  let st := {| ucs_frontier := [(2, 3%nat, 0%nat, [1; 0]%nat)];
               ucs_explored := {[ 0%nat; 1%nat; 2%nat ]};
               ucs_count := 4;
               ucs_calls := [] |} in
  heappop ucs_priority ucs_ticket (ucs_frontier st)
  = Some ((2, 3%nat, 0%nat, [1; 0]%nat), [])
  /\ is_goal (loop_problem (fun _ => false)) 0%nat = false
  /\ 0%nat ∈ ucs_explored st
  /\ ucs_step (loop_problem (fun _ => false)) st
     = Running {| ucs_frontier := [];
                  ucs_explored := ucs_explored st;
                  ucs_count := ucs_count st;
                  ucs_calls := ucs_calls st |}.
Proof.
intros st.
assert (0%nat ∈ ucs_explored st) as Hin
  by (unfold st; simpl; set_solver).
split; [reflexivity|]. split; [reflexivity|]. split; [exact Hin|].
destruct (deduplication_policy (loop_problem (fun _ => false)) zero_estimate
            0%nat) as (_ & _ & _ & _ & Hucs & _).
apply (Hucs st 2 3%nat 0%nat [1; 0]%nat []); [reflexivity|reflexivity|exact Hin].
Defined.

(** *** Cost optimality *)

Lemma detour_ucs_step (st : ucs_state (State := nat) (Action := nat))
      (c n : nat) (p : list nat) :
  ucs_frontier st = [(1, 2%nat, 1%nat, [1%nat]); (0, c, n, p)] ->
  Nat.even n = true -> (2 <= n)%nat -> (2 < c)%nat ->
  n ∉ ucs_explored st ->
  ucs_step detour_problem st
  = Running {| ucs_frontier :=
                 [(1, 2%nat, 1%nat, [1%nat]);
                  (0, ucs_count st, Datatypes.S (Datatypes.S n),
                   p ++ [Datatypes.S (Datatypes.S n)])];
               ucs_explored := ucs_explored st ∪ {[ n ]};
               ucs_count := Datatypes.S (ucs_count st);
               ucs_calls := (ucs_calls st ++ [GetActions n])
                            ++ [GetSuccessor n (Datatypes.S (Datatypes.S n))] |}.
Proof.
intros Hfr Heven Hn Hc Hnew. unfold ucs_step. rewrite Hfr.
assert (heappop ucs_priority ucs_ticket
          [(1, 2%nat, 1%nat, [1%nat]); (0, c, n, p)]
        = Some ((0, c, n, p), [(1, 2%nat, 1%nat, [1%nat])])) as ->.
{ unfold heappop, heap_min, item_ltb, heap_remove, ucs_priority, ucs_ticket.
  cbn. destruct c as [|[|[|c]]]; try lia. cbn. by rewrite Nat.eqb_refl. }
assert (is_goal detour_problem n = false) as ->
  by (apply Nat.eqb_neq; intros ->; discriminate).
destruct (decide (n ∉ ucs_explored st)); [|done].
rewrite detour_actions by done. cbn [for_all]. unfold ucs_body, heappush.
cbn [ucs_frontier ucs_explored ucs_count ucs_calls app].
change (get_successor detour_problem n (Datatypes.S (Datatypes.S n)))
  with (Datatypes.S (Datatypes.S n)).
change (get_cost detour_problem n (Datatypes.S (Datatypes.S n))) with 0.
done.
Qed.

Lemma detour_ucs_never_returns fuel :
  exists st, UniformCostSearch detour_problem 0%nat fuel = Running st.
Proof.
unfold UniformCostSearch.
set (J := fun st : ucs_state (State := nat) (Action := nat) =>
            exists c n p,
              ucs_frontier st = [(1, 2%nat, 1%nat, [1%nat]); (0, c, n, p)]
              /\ Nat.even n = true /\ (2 <= n)%nat /\ (2 < c)%nat
              /\ (2 < ucs_count st)%nat
              /\ forall m, m ∈ ucs_explored st -> (m < n)%nat).
assert (forall st, J st ->
          exists st', ucs_step detour_problem st = Running st' /\ J st')
  as Hstep.
{ intros st (c & n & p & Hfr & Heven & Hn & Hc & Hcount & Hex).
  eexists. split.
  - apply (detour_ucs_step st c n p); try done.
    intros Hin. specialize (Hex _ Hin). lia.
  - exists (ucs_count st), (Datatypes.S (Datatypes.S n)),
      (p ++ [Datatypes.S (Datatypes.S n)]).
    cbn [ucs_frontier ucs_explored ucs_count].
    split; [done|]. split; [done|]. split; [lia|]. split; [done|].
    split; [lia|].
    intros m [Hm| ->%elem_of_singleton]%elem_of_union; [|lia].
    specialize (Hex m Hm). lia. }
set (st2 := {| ucs_frontier :=
                 [(1, 2%nat, 1%nat, [1%nat]); (0, 3%nat, 4%nat, [2; 4]%nat)];
               ucs_explored := ∅ ∪ {[ 0%nat ]} ∪ {[ 2%nat ]};
               ucs_count := 4;
               ucs_calls := [GetActions 0%nat; GetSuccessor 0%nat 2%nat;
                             GetSuccessor 0%nat 1%nat; GetActions 2%nat;
                             GetSuccessor 2%nat 4%nat] |}).
assert (iterate (ucs_step detour_problem) 2 (ucs_init 0%nat) = Running st2)
  as H2 by (vm_compute; reflexivity).
assert (J st2) as HJ2.
{ exists 3%nat, 4%nat, [2; 4]%nat. unfold st2. cbn [ucs_frontier ucs_count ucs_explored].
  repeat split; try done; try lia.
  intros m Hm.
  apply elem_of_union in Hm as [Hm| ->%elem_of_singleton]; [|lia].
  apply elem_of_union in Hm as [Hm| ->%elem_of_singleton]; [|lia].
  by apply elem_of_empty in Hm. }
destruct fuel as [|[|fuel]]; [by eexists|by eexists|].
change (Datatypes.S (Datatypes.S fuel)) with (2 + fuel)%nat.
rewrite iterate_add, H2.
destruct (iterate_never_returns (ucs_step detour_problem) J fuel st2 Hstep HJ2)
  as (st & Hst & _).
by exists st.
Qed.

Lemma fan_costs_nonneg : nonneg_costs fan_problem.
Proof. intros s a _. simpl. destruct a as [|[|[|a]]]; lia. Qed.

Lemma fan_estimate_consistent : consistent fan_problem fan_estimate.
Proof.
intros s a Ha. destruct s as [|s]; [|by inversion Ha].
simpl in *. destruct a as [|[|[|a]]]; simpl; lia.
Qed.

Lemma zero_estimate_consistent {problem : Problem nat nat} :
  nonneg_costs problem -> consistent problem zero_estimate.
Proof. intros Hc s a Ha. specialize (Hc s a Ha). unfold zero_estimate. lia. Qed.

(** C1, as stated, fails twice.  In the fan problem, with non-negative
    costs and an estimate that is non-negative and satisfies the triangle
    inequality, AStarSearch returns the path [1] of cost 10 although the
    path [2] costs 1.  In the endless chain, with non-negative costs and a
    goal next to the initial state, UniformCostSearch never returns. *)
Lemma cost_optimality_fails :
  (nonneg_costs fan_problem
   /\ consistent fan_problem fan_estimate
   /\ nonneg_heuristic fan_problem fan_estimate
   /\ solves fan_problem 0%nat [2%nat]
   /\ path_cost fan_problem 0%nat [2%nat] = 1
   /\ (exists calls,
          AStarSearch fan_problem fan_estimate 0%nat 2
          = Return (Some [1%nat]) calls)
   /\ path_cost fan_problem 0%nat [1%nat] = 10)
  /\ (nonneg_costs detour_problem
      /\ solves detour_problem 0%nat [1%nat]
      /\ forall fuel,
          exists st, UniformCostSearch detour_problem 0%nat fuel = Running st).
Proof.
split.
- split; [apply fan_costs_nonneg|]. split; [apply fan_estimate_consistent|].
  split; [intros s; unfold fan_estimate; destruct s as [|[|[|s]]]; lia|].
  split.
  { split; [|reflexivity]. simpl. split; [|done].
    apply list_elem_of_In. simpl. auto. }
  split; [reflexivity|]. split; [|reflexivity].
  eexists. vm_compute. reflexivity.
- split; [intros s a _; simpl; destruct a as [|[|a]]; lia|].
  split; [|apply detour_ucs_never_returns].
  split; [|reflexivity]. simpl. split; [|done].
  apply list_elem_of_In. simpl. auto.
Qed.

(** C1, amended.  When the states reachable from the initial state are
    finitely many and some goal is reachable, UniformCostSearch, the step
    costs being non-negative, returns a path to a goal of least total cost,
    and so does AStarSearch with a heuristic that is consistent and zero on
    goals.  BestFirstSearch and DepthFirstSearch carry no such guarantee:
    in the fan problem they return paths of cost 10 although a path of
    cost 1 exists. *)
Theorem cost_optimal_search
        {State Action : Type} `{Countable State}
        (problem : Problem State Action)
        (heuristic : HeuristicFunction State Action)
        (initial_state : State) (L : list State) (q0 : list Action) :
  finite_reach problem initial_state L ->
  solves problem initial_state q0 ->
  (nonneg_costs problem ->
   exists fuel p calls,
     UniformCostSearch problem initial_state fuel = Return (Some p) calls
     /\ solves problem initial_state p
     /\ forall q, solves problem initial_state q ->
          path_cost problem initial_state p
          <= path_cost problem initial_state q)
  /\ (consistent problem heuristic -> zero_on_goals problem heuristic ->
      exists fuel p calls,
        AStarSearch problem heuristic initial_state fuel
        = Return (Some p) calls
        /\ solves problem initial_state p
        /\ forall q, solves problem initial_state q ->
             path_cost problem initial_state p
             <= path_cost problem initial_state q)
  /\ (consistent fan_problem zero_estimate
      /\ zero_on_goals fan_problem zero_estimate
      /\ solves fan_problem 0%nat [2%nat]
      /\ (exists calls,
             BestFirstSearch fan_problem zero_estimate 0%nat 2
             = Return (Some [1%nat]) calls)
      /\ (exists calls,
             DepthFirstSearch fan_problem 0%nat 2
             = Return (Some [3%nat]) calls)
      /\ path_cost fan_problem 0%nat [2%nat]
         < path_cost fan_problem 0%nat [1%nat]
      /\ path_cost fan_problem 0%nat [2%nat]
         < path_cost fan_problem 0%nat [3%nat]).
Proof.
intros HL Hq0. split; [|split].
- intros Hcost.
  destruct (ucs_returns_optimal problem initial_state L HL Hcost)
    as (fuel & r & calls & Hrun & Hr).
  destruct r as [p|]; [|by destruct (Hr q0)].
  exists fuel, p, calls. tauto.
- intros Hcons Hzero.
  destruct (astar_returns_optimal problem heuristic initial_state L HL
              Hcons Hzero) as (fuel & r & calls & Hrun & Hr).
  destruct r as [p|]; [|by destruct (Hr q0)].
  exists fuel, p, calls. tauto.
- split; [apply zero_estimate_consistent, fan_costs_nonneg|].
  split; [done|]. split.
  { split; [|reflexivity]. simpl. split; [|done].
    apply list_elem_of_In. simpl. auto. }
  split; [eexists; vm_compute; reflexivity|].
  split; [eexists; vm_compute; reflexivity|].
  split; reflexivity.
Qed.

Lemma cost_optimal_search_witness :
  finite_reach fan_problem 0%nat [0; 1; 2; 3]%nat
  /\ solves fan_problem 0%nat [2%nat]
  /\ nonneg_costs fan_problem
  /\ consistent fan_problem zero_estimate
  /\ zero_on_goals fan_problem zero_estimate
  /\ (exists fuel p calls,
         UniformCostSearch fan_problem 0%nat fuel = Return (Some p) calls
         /\ solves fan_problem 0%nat p
         /\ forall q, solves fan_problem 0%nat q ->
              path_cost fan_problem 0%nat p <= path_cost fan_problem 0%nat q)
  /\ (exists fuel p calls,
         AStarSearch fan_problem zero_estimate 0%nat fuel
         = Return (Some p) calls
         /\ solves fan_problem 0%nat p
         /\ forall q, solves fan_problem 0%nat q ->
              path_cost fan_problem 0%nat p <= path_cost fan_problem 0%nat q).
Proof.
assert (finite_reach fan_problem 0%nat [0; 1; 2; 3]%nat) as HL
  by (apply closedb_finite_reach; reflexivity).
assert (solves fan_problem 0%nat [2%nat]) as Hq0.
{ split; [|reflexivity]. simpl. split; [|done].
  apply list_elem_of_In. simpl. auto. }
pose proof fan_costs_nonneg as Hcost.
pose proof (zero_estimate_consistent Hcost) as Hcons.
assert (zero_on_goals fan_problem zero_estimate) as Hzero by done.
destruct (cost_optimal_search fan_problem zero_estimate 0%nat
            [0; 1; 2; 3]%nat [2%nat] HL Hq0) as (Hucs & Hastar & _).
split; [exact HL|]. split; [exact Hq0|]. split; [exact Hcost|].
split; [exact Hcons|]. split; [exact Hzero|].
split; [exact (Hucs Hcost)|exact (Hastar Hcons Hzero)].
Defined.

(** ** Further properties of the search functions *)

Section ClosureFacts.
Context {State Action : Type} `{Countable State}.
Variable problem : Problem State Action.
Variable init : State.

(** *** Priority search *)

Section PsClosure.
Variable node_priority : Z -> State -> Z.
Variable prune : bool.

Abbreviation pstep := (ps_step problem node_priority prune).
Abbreviation pinv := (ps_inv problem node_priority init).
Abbreviation pclosed := (ps_closed problem init).

Lemma ps_seen_rest (st st' : ps_state (State := State) (Action := Action))
      x (s : State) :
  StronglySorted lt (ps_ticket <$> ps_frontier st) ->
  x ∈ ps_frontier st ->
  ps_explored st ⊆ ps_explored st' ->
  ps_node x ∈ ps_explored st' ->
  (forall y, y ∈ heap_remove ps_ticket (ps_ticket x) (ps_frontier st) ->
             y ∈ ps_frontier st') ->
  ps_seen st s -> ps_seen st' s.
Proof.
  intros Hs Hx Hsub Hnx Hrest [He|(y & Hy & Hn)]; [left; set_solver|].
  destruct (decide (ps_node y = ps_node x)) as [Heq|Hne].
  - left. by rewrite <- Hn, Heq.
  - right. exists y. split; [|done]. apply Hrest.
    apply heap_remove_other; [done..|]. by intros ->.
Qed.

Lemma ps_closed_init : pclosed (ps_init node_priority init).
Proof.
  split.
  - right. eexists. split; [simpl; by apply list_elem_of_singleton|done].
  - intros s a Hs. simpl in Hs. set_solver.
Qed.

Lemma ps_closed_step st st' :
  pinv st -> pclosed st -> pstep st = Running st' -> pclosed st'.
Proof.
  intros Hinv [H0 Hc] Hstep.
  destruct (ps_step_cases problem node_priority prune st)
    as [[_ Hs]|(x & rest & Hpop & Hcase)]; [congruence|].
  pose proof Hpop as (Hin & _ & Hrest & _)%heappop_Some.
  pose proof Hinv as [Hitems Hsorted _ _ _].
  destruct Hcase as [(_ & Hs)|[(Hg & Hx & Hs)|(Hg & Hx & Hs)]];
    [congruence| |]; rewrite Hs in Hstep; injection Hstep as <-.
  - pose proof (ps_popped_inv problem node_priority init st x rest
                  Hinv Hpop Hg Hx) as Hp.
    destruct (Hitems x Hin) as (Hv & He & Hcost & _).
    destruct (ps_expand problem node_priority prune init _ _ _ _
                Hv He Hcost Hp) as (_ & Hex & _ & _ & Hold & Hnew).
    fold (ps_expanded problem node_priority prune st x rest)
      in Hex, Hold, Hnew.
    set (st' := ps_expanded problem node_priority prune st x rest) in *.
    simpl in Hex, Hold, Hnew.
    assert (forall s, ps_seen st s -> ps_seen st' s) as Hseen.
    { intros s. apply (ps_seen_rest st st' x); try done.
      - rewrite Hex. set_solver.
      - rewrite Hex. set_solver.
      - intros y Hy. apply Hold. by rewrite Hrest. }
    split; [by apply Hseen|].
    intros s a. rewrite Hex.
    intros [Hse| ->%elem_of_singleton]%elem_of_union Ha; [by apply Hseen, Hc|].
    destruct (Hnew a Ha) as [Hin'|(y & Hy & Hn & _)].
    + left. by rewrite Hex.
    + right. by exists y.
  - assert (forall s, ps_seen st s -> ps_seen (ps_discarded st rest) s)
      as Hseen.
    { intros s. apply (ps_seen_rest st _ x); try done.
      intros y Hy. simpl. by rewrite Hrest. }
    split; [by apply Hseen|]. intros s a Hse Ha. by apply Hseen, Hc.
Qed.

(** When the heap is empty every reachable state is explored. *)
Lemma ps_closed_empty st s :
  pclosed st -> ps_frontier st = [] -> reachable problem init s ->
  s ∈ ps_explored st.
Proof.
  intros [H0 Hc] Hnil (p & Hv & <-).
  assert (forall t, ps_seen st t -> t ∈ ps_explored st) as Hseen.
  { intros t [?|(x & Hx & _)]; [done|]. rewrite Hnil in Hx. by inversion Hx. }
  induction p as [|a p IH] using rev_ind; [by apply Hseen|].
  apply valid_snoc in Hv as [Hv Ha]. rewrite exec_snoc.
  apply Hseen, Hc; [by apply IH|done].
Qed.

Lemma ps_none_no_goal fuel calls s :
  iterate pstep fuel (ps_init node_priority init) = Return None calls ->
  reachable problem init s -> is_goal problem s = false.
Proof.
  intros Hrun Hs.
  assert (forall st1 st2, pinv st1 /\ pclosed st1 -> pstep st1 = Running st2 ->
                          pinv st2 /\ pclosed st2) as Hpres.
  { intros st1 st2 [Hi Hc] Hstep. split.
    - by apply (ps_step_inv problem node_priority prune init st1).
    - by apply (ps_closed_step st1). }
  destruct (iterate_return pstep _ Hpres _ _ _ _
              (conj (ps_inv_init problem node_priority init) ps_closed_init)
              Hrun) as (st & [Hi Hc] & Hstep).
  destruct (ps_step_return problem node_priority prune init st None calls
              Hi Hstep) as [_ Hnil].
  destruct Hi as [_ _ Hexp _ _]. apply Hexp. by apply ps_closed_empty.
Qed.

(** The expanded states are reachable and none is a goal. *)
Lemma ps_expansions_reachable fuel s :
  s ∈ expansions
        (outcome_calls ps_calls
           (iterate pstep fuel (ps_init node_priority init))) ->
  reachable problem init s /\ is_goal problem s = false.
Proof.
  assert (forall st, pinv st -> s ∈ expansions (ps_calls st) ->
            reachable problem init s /\ is_goal problem s = false) as Hst.
  { intros st [_ _ Hexp Hexd _] Hs. apply Hexd in Hs.
    destruct (Hexp s Hs). done. }
  destruct (iterate pstep fuel (ps_init node_priority init))
    as [r calls|st] eqn:Hrun; simpl.
  - destruct (iterate_return _ _
                (ps_step_inv problem node_priority prune init)
                _ _ _ _ (ps_inv_init problem node_priority init) Hrun)
      as (st & Hinv & Hstep).
    destruct (ps_step_return problem node_priority prune init st r calls
                Hinv Hstep) as [-> _]. by apply Hst.
  - apply Hst. by apply (ps_running_inv problem init _ prune fuel).
Qed.
End PsClosure.

(** *** DepthFirstSearch *)

Abbreviation dstep := (dfs_step problem).
Abbreviation dinv := (dfs_inv problem init).
Abbreviation dclosed := (dfs_closed problem init).

Lemma dfs_closed_init : dclosed (dfs_init init).
Proof.
  split; simpl.
  - right. simpl. by left.
  - intros s a Hs. set_solver.
  - intros s Hs. set_solver.
Qed.

Lemma dfs_expand_seen s p st1 :
  let st2 := for_all (dfs_body problem s p) (get_actions problem s) st1 in
  dfs_explored st2 = dfs_explored st1
  /\ (forall t, t ∈ fst <$> dfs_frontier st1 -> t ∈ fst <$> dfs_frontier st2)
  /\ forall a, a ∈ get_actions problem s ->
       dfs_seen st2 (get_successor problem s a).
Proof.
  apply (for_all_ind
    (fun pre st' =>
       dfs_explored st' = dfs_explored st1
       /\ (forall t, t ∈ fst <$> dfs_frontier st1 ->
                     t ∈ fst <$> dfs_frontier st')
       /\ forall a, a ∈ pre -> dfs_seen st' (get_successor problem s a))).
  - split; [done|]. split; [done|]. intros a Ha. by inversion Ha.
  - intros pre a st' Ha (Hex & Hfr & Hseen). unfold dfs_body.
    set (child := get_successor problem s a).
    destruct (decide ((child ∉ dfs_explored st')
                      ∧ (child ∉ fst <$> dfs_frontier st')))
      as [[Hc1 Hc2]|Hc]; simpl.
    + split; [done|]. split.
      * intros t Ht. right. by apply Hfr.
      * intros a' [Ha'| ->%list_elem_of_singleton]%elem_of_app.
        -- destruct (Hseen a' Ha') as [?|?]; [by left|right]. simpl. by right.
        -- right. simpl. by left.
    + split; [done|]. split; [done|].
      intros a' [Ha'| ->%list_elem_of_singleton]%elem_of_app; [by apply Hseen|].
      fold child. unfold dfs_seen. simpl.
      destruct (decide (child ∈ dfs_explored st')); [by left|].
      destruct (decide (child ∈ fst <$> dfs_frontier st')); [by right|].
      exfalso. by apply Hc.
Qed.

Lemma dfs_closed_step st st' :
  dinv st -> dclosed st -> dstep st = Running st' -> dclosed st'.
Proof.
  intros Hinv [H0 Hc Hex] Hstep. unfold dfs_step in Hstep.
  pose proof (di_path _ _ _ Hinv) as Hpath.
  destruct (dfs_frontier st) as [|[s p] rest] eqn:Hfr; [discriminate|].
  destruct (is_goal problem s) eqn:Hg; [discriminate|].
  injection Hstep as <-.
  match goal with
  | |- dfs_closed _ _ (for_all ?b ?xs ?st1) =>
      destruct (dfs_expand_seen s p st1) as (Hex2 & Hfr2 & Hnew);
      set (st2 := for_all b xs st1) in *
  end.
  cbn [dfs_explored dfs_frontier] in Hex2, Hfr2.
  assert (forall t, dfs_seen st t -> dfs_seen st2 t) as Hseen.
  { intros t [Ht|Ht]; [left; rewrite Hex2; set_solver|].
    rewrite Hfr, fmap_cons in Ht. apply elem_of_cons in Ht as [->|Ht].
    - left. rewrite Hex2. simpl. set_solver.
    - right. by apply Hfr2. }
  split.
  - by apply Hseen.
  - intros t a. rewrite Hex2.
    intros [Ht| ->%elem_of_singleton]%elem_of_union Ha;
      [by apply Hseen, Hc|by apply Hnew].
  - intros t. rewrite Hex2.
    intros [Ht| ->%elem_of_singleton]%elem_of_union; [by apply Hex|].
    split; [done|]. destruct (Hpath (s, p)) as [Hv He]; [by left|].
    by exists p.
Qed.

Lemma dfs_closed_empty st s :
  dclosed st -> dfs_frontier st = [] -> reachable problem init s ->
  s ∈ dfs_explored st.
Proof.
  intros [H0 Hc _] Hnil (p & Hv & <-).
  assert (forall t, dfs_seen st t -> t ∈ dfs_explored st) as Hseen.
  { intros t [?|Ht]; [done|]. rewrite Hnil in Ht. by inversion Ht. }
  induction p as [|a p IH] using rev_ind; [by apply Hseen|].
  apply valid_snoc in Hv as [Hv Ha]. rewrite exec_snoc.
  apply Hseen, Hc; [by apply IH|done].
Qed.

Lemma dfs_inv_closed_step st1 st2 :
  dinv st1 /\ dclosed st1 -> dstep st1 = Running st2 ->
  dinv st2 /\ dclosed st2.
Proof.
  intros [Hi Hc] Hstep. split.
  - by apply (dfs_step_inv problem init st1).
  - by apply (dfs_closed_step st1).
Qed.

Lemma dfs_none_no_goal fuel calls s :
  iterate dstep fuel (dfs_init init) = Return None calls ->
  reachable problem init s -> is_goal problem s = false.
Proof.
  intros Hrun Hs.
  destruct (iterate_return dstep _ dfs_inv_closed_step _ _ _ _
              (conj (dfs_inv_init problem init) dfs_closed_init) Hrun)
    as (st & [Hi Hc] & Hstep).
  pose proof (dfs_step_spec problem init st Hi) as Hspec.
  destruct (dfs_frontier st) as [|[s' p] rest] eqn:Hfr.
  - destruct Hc as [H0 Hc Hex]. apply Hex.
    apply (dfs_closed_empty st); [by split|done..].
  - destruct Hspec as (_ & _ & _ & Hspec).
    destruct (is_goal problem s'); [congruence|].
    destruct Hspec as (st' & Hs' & _). congruence.
Qed.

Lemma dfs_expansions_reachable fuel s :
  s ∈ expansions
        (outcome_calls dfs_calls (iterate dstep fuel (dfs_init init))) ->
  reachable problem init s /\ is_goal problem s = false.
Proof.
  assert (forall st, dinv st /\ dclosed st -> s ∈ expansions (dfs_calls st) ->
            reachable problem init s /\ is_goal problem s = false) as Hst.
  { intros st [[_ _ _ Hexd _] [_ _ Hex]] Hs. apply Hexd in Hs.
    destruct (Hex s Hs). done. }
  destruct (iterate dstep fuel (dfs_init init)) as [r calls|st] eqn:Hrun;
    simpl.
  - destruct (iterate_return dstep _ dfs_inv_closed_step _ _ _ _
                (conj (dfs_inv_init problem init) dfs_closed_init) Hrun)
      as (st & Hic & Hstep).
    pose proof (dfs_step_spec problem init st (proj1 Hic)) as Hspec.
    assert (calls = dfs_calls st) as ->; [|by apply Hst].
    destruct (dfs_frontier st) as [|[s' p] rest].
    + congruence.
    + destruct Hspec as (_ & _ & _ & Hspec).
      destruct (is_goal problem s'); [congruence|].
      destruct Hspec as (st' & Hs' & _). congruence.
  - apply Hst.
    apply (iterate_invariant dstep _ dfs_inv_closed_step fuel
             (dfs_init init)); [|done].
    split; [apply dfs_inv_init|apply dfs_closed_init].
Qed.

Lemma dfs_expansions_nodup fuel :
  NoDup (expansions
           (outcome_calls dfs_calls (iterate dstep fuel (dfs_init init)))).
Proof.
  destruct (iterate dstep fuel (dfs_init init)) as [r calls|st] eqn:Hrun;
    simpl.
  - destruct (iterate_return dstep _ (dfs_step_inv problem init) _ _ _ _
                (dfs_inv_init problem init) Hrun) as (st & Hi & Hstep).
    by destruct (dfs_step_return problem init st r calls Hi Hstep).
  - apply (di_nodup_expanded problem init).
    by apply (iterate_invariant dstep _ (dfs_step_inv problem init) fuel
                (dfs_init init) st (dfs_inv_init problem init)).
Qed.

(** *** BreadthFirstSearch *)

Lemma bfs_expansions_reachable fuel s :
  is_goal problem init = false ->
  s ∈ expansions
        (outcome_calls bfs_calls
           (iterate (bfs_step problem) fuel (bfs_init init))) ->
  reachable problem init s /\ is_goal problem s = false.
Proof.
  intros Hg.
  assert (forall st, bfs_Inv problem init st ->
            forall t, t ∈ bfs_explored st ->
              reachable problem init t /\ is_goal problem t = false)
    as Hexp.
  { intros st (d & F1 & F2 & [_ _ _ _ Hexp _ _ _ _]) t Ht.
    destruct (Hexp t Ht) as (? & _ & p & ? & ? & _). split; [by exists p|done]. }
  assert (forall st, bfs_Inv problem init st ->
            forall t, t ∈ expansions (bfs_calls st)
                      \/ t ∈ fst <$> bfs_frontier st ->
              t ∈ bfs_explored st) as Hsub.
  { intros st (d & F1 & F2 & [_ _ _ _ _ Hsub _ _ _]) t Ht. by apply Hsub. }
  pose proof (bfs_Inv_init problem init Hg) as Hinv0.
  destruct (iterate (bfs_step problem) fuel (bfs_init init))
    as [r calls|st] eqn:Hrun; simpl.
  - destruct (iterate_return _ _ (bfs_step_Inv problem init) _ _ _ _
                Hinv0 Hrun) as (st & Hi & Hstep).
    pose proof (bfs_step_spec problem init st Hi) as Hspec.
    destruct (bfs_frontier st) as [|[s' p] rest] eqn:Hfr.
    + destruct Hspec as [Hs _]. rewrite Hs in Hstep. injection Hstep as _ <-.
      intros Hin. apply (Hexp st Hi), (Hsub st Hi). by left.
    + destruct Hspec as (_ & _ & _ & Hspec). rewrite Hstep in Hspec.
      destruct Hspec as (-> & _).
      intros [Hin| ->%list_elem_of_singleton]%elem_of_app;
        apply (Hexp st Hi), (Hsub st Hi); [by left|right].
      rewrite Hfr, fmap_cons. by left.
  - intros Hin.
    pose proof (iterate_invariant _ _ (bfs_step_Inv problem init) fuel
                  (bfs_init init) st Hinv0 Hrun) as Hi.
    apply (Hexp st Hi), (Hsub st Hi). by left.
Qed.
End ClosureFacts.

Section SearchFacts.
Context {State Action : Type} `{Countable State}.
Variable problem : Problem State Action.
Variable heuristic : HeuristicFunction State Action.
Variable init : State.

Abbreviation ucs_ps fuel :=
  (iterate (ps_step problem (fun g _ => g + 0) false) fuel
     (ps_init (fun g _ => g + 0) init)).
Abbreviation astar_ps fuel :=
  (iterate (ps_step problem (fun g s => g + heuristic problem s) true) fuel
     (ps_init (fun g s => g + heuristic problem s) init)).
Abbreviation gbfs_ps fuel :=
  (iterate (ps_step problem (fun _ s => heuristic problem s) true) fuel
     (ps_init (fun _ s => heuristic problem s) init)).

Lemma ucs_ps_return fuel r calls :
  UniformCostSearch problem init fuel = Return r calls ->
  ucs_ps fuel = Return r calls.
Proof. intros Hrun. by rewrite ucs_iterate_abs, Hrun. Qed.

Lemma ucs_ps_calls fuel :
  outcome_calls ucs_calls (UniformCostSearch problem init fuel)
  = outcome_calls ps_calls (ucs_ps fuel).
Proof.
  rewrite ucs_iterate_abs. symmetry. by apply outcome_calls_map.
Qed.

Lemma astar_ps_return fuel r calls :
  iterate (astar_step problem heuristic) fuel
    (astar_init problem heuristic init) = Return r calls ->
  astar_ps fuel = Return r calls.
Proof. intros Hrun. by rewrite astar_iterate_abs, Hrun. Qed.

Lemma astar_ps_calls fuel :
  outcome_calls astar_calls
    (iterate (astar_step problem heuristic) fuel
       (astar_init problem heuristic init))
  = outcome_calls ps_calls (astar_ps fuel).
Proof.
  rewrite astar_iterate_abs. symmetry. by apply outcome_calls_map.
Qed.

Lemma gbfs_ps_return fuel r calls :
  iterate (gbfs_step problem heuristic) fuel
    (gbfs_init problem heuristic init) = Return r calls ->
  gbfs_ps fuel = Return r calls.
Proof. intros Hrun. by rewrite gbfs_iterate_abs, Hrun. Qed.

Lemma gbfs_ps_calls fuel :
  outcome_calls gbfs_calls
    (iterate (gbfs_step problem heuristic) fuel
       (gbfs_init problem heuristic init))
  = outcome_calls ps_calls (gbfs_ps fuel).
Proof.
  rewrite gbfs_iterate_abs. symmetry. by apply outcome_calls_map.
Qed.

Lemma bfs_loop_return fuel r calls :
  is_goal problem init = false ->
  iterate (bfs_step problem) fuel (bfs_init init) = Return r calls ->
  NoDup (expansions calls)
  /\ match r with
     | Some p =>
         solves problem init p
         /\ forall q, solves problem init q -> (length p <= length q)%nat
     | None => forall q, ~ solves problem init q
     end.
Proof.
  intros Hg Hrun.
  destruct (iterate_return _ _ (bfs_step_Inv problem init) _ _ _ _
              (bfs_Inv_init problem init Hg) Hrun) as (st & Hi & Hs).
  by apply (bfs_step_return problem init st).
Qed.

Lemma bfs_loop_nodup fuel :
  is_goal problem init = false ->
  NoDup (expansions
           (outcome_calls bfs_calls
              (iterate (bfs_step problem) fuel (bfs_init init)))).
Proof.
  intros Hg.
  destruct (iterate (bfs_step problem) fuel (bfs_init init))
    as [r calls|st] eqn:Hrun; simpl.
  - by destruct (bfs_loop_return fuel r calls Hg Hrun).
  - apply (bfs_Inv_nodup problem init).
    by apply (iterate_invariant _ _ (bfs_step_Inv problem init) fuel
                (bfs_init init) st (bfs_Inv_init problem init Hg)).
Qed.

Lemma dfs_loop_return fuel r calls :
  iterate (dfs_step problem) fuel (dfs_init init) = Return r calls ->
  match r with Some p => solves problem init p | None => True end.
Proof.
  intros Hrun.
  destruct (iterate_return _ _ (dfs_step_inv problem init) _ _ _ _
              (dfs_inv_init problem init) Hrun) as (st & Hi & Hs).
  by destruct (dfs_step_return problem init st r calls Hi Hs).
Qed.

(** A list without duplicates whose elements lie in [L] is no longer
    than [L]. *)
Lemma nodup_length_le (l L : list State) :
  NoDup l -> (forall s, s ∈ l -> s ∈ L) -> (length l <= length L)%nat.
Proof.
  intros Hnd Hsub. apply submseteq_length, NoDup_submseteq; done.
Qed.
End SearchFacts.

(** X1.  Whatever the fuel, a list of actions returned by any of the five
    search functions is a path from the initial state to a goal: every
    action is offered by [get_actions] in the state where it is taken and
    the state reached is a goal. *)
Theorem returned_path_solves
        {State Action : Type} `{Countable State}
        (problem : Problem State Action)
        (heuristic : HeuristicFunction State Action)
        (initial_state : State) (fuel : nat)
        (p : list Action) (calls : list (call State Action)) :
  (BreadthFirstSearch problem initial_state fuel = Return (Some p) calls ->
   solves problem initial_state p)
  /\ (DepthFirstSearch problem initial_state fuel = Return (Some p) calls ->
      solves problem initial_state p)
  /\ (UniformCostSearch problem initial_state fuel = Return (Some p) calls ->
      solves problem initial_state p)
  /\ (AStarSearch problem heuristic initial_state fuel
      = Return (Some p) calls ->
      solves problem initial_state p)
  /\ (BestFirstSearch problem heuristic initial_state fuel
      = Return (Some p) calls ->
      solves problem initial_state p).
Proof.
assert (is_goal problem initial_state = true ->
        solves problem initial_state []) as Hnil by (by split).
unfold BreadthFirstSearch, DepthFirstSearch, AStarSearch, BestFirstSearch.
repeat apply conj.
- destruct (is_goal problem initial_state) eqn:Hg.
  + intros [= <- _]. by apply Hnil.
  + intros Hrun.
    by destruct (bfs_loop_return problem initial_state fuel _ _ Hg Hrun)
      as (_ & ? & _).
- destruct (is_goal problem initial_state) eqn:Hg.
  + intros [= <- _]. by apply Hnil.
  + intros Hrun.
    apply (dfs_loop_return problem initial_state fuel _ _ Hrun).
- intros Hrun%ucs_ps_return.
  by destruct (ps_return_sound problem initial_state _ _ _ _ _ Hrun).
- destruct (is_goal problem initial_state) eqn:Hg.
  + intros [= <- _]. by apply Hnil.
  + intros Hrun%astar_ps_return.
    by destruct (ps_return_sound problem initial_state _ _ _ _ _ Hrun).
- destruct (is_goal problem initial_state) eqn:Hg.
  + intros [= <- _]. by apply Hnil.
  + intros Hrun%gbfs_ps_return.
    by destruct (ps_return_sound problem initial_state _ _ _ _ _ Hrun).
Qed.

Lemma returned_path_solves_witness :
  UniformCostSearch fan_problem 0%nat 2
  = Return (Some [2%nat])
      [GetActions 0%nat; GetSuccessor 0%nat 1%nat; GetSuccessor 0%nat 2%nat;
       GetSuccessor 0%nat 3%nat]
  /\ solves fan_problem 0%nat [2%nat].
Proof.
assert (UniformCostSearch fan_problem 0%nat 2
        = Return (Some [2%nat])
            [GetActions 0%nat; GetSuccessor 0%nat 1%nat;
             GetSuccessor 0%nat 2%nat; GetSuccessor 0%nat 3%nat]) as Hrun
  by (vm_compute; reflexivity).
split; [exact Hrun|].
destruct (returned_path_solves fan_problem zero_estimate 0%nat 2 [2%nat]
            [GetActions 0%nat; GetSuccessor 0%nat 1%nat;
             GetSuccessor 0%nat 2%nat; GetSuccessor 0%nat 3%nat])
  as (_ & _ & Hucs & _).
exact (Hucs Hrun).
Defined.

(** X2.  Whatever the fuel, when any of the five search functions returns
    [None], no state reachable from the initial state is a goal. *)
Theorem none_means_no_reachable_goal
        {State Action : Type} `{Countable State}
        (problem : Problem State Action)
        (heuristic : HeuristicFunction State Action)
        (initial_state : State) (fuel : nat)
        (calls : list (call State Action)) (s : State) :
  reachable problem initial_state s ->
  (BreadthFirstSearch problem initial_state fuel = Return None calls ->
   is_goal problem s = false)
  /\ (DepthFirstSearch problem initial_state fuel = Return None calls ->
      is_goal problem s = false)
  /\ (UniformCostSearch problem initial_state fuel = Return None calls ->
      is_goal problem s = false)
  /\ (AStarSearch problem heuristic initial_state fuel = Return None calls ->
      is_goal problem s = false)
  /\ (BestFirstSearch problem heuristic initial_state fuel
      = Return None calls ->
      is_goal problem s = false).
Proof.
intros Hs.
unfold BreadthFirstSearch, DepthFirstSearch, AStarSearch, BestFirstSearch.
repeat apply conj.
- destruct (is_goal problem initial_state) eqn:Hg; [discriminate|].
  intros Hrun.
  destruct (bfs_loop_return problem initial_state fuel _ _ Hg Hrun)
    as (_ & Hno).
  destruct Hs as (q & Hv & <-).
  destruct (is_goal problem (exec problem initial_state q)) eqn:Hq; [|done].
  destruct (Hno q). by split.
- destruct (is_goal problem initial_state) eqn:Hg; [discriminate|].
  intros Hrun. by apply (dfs_none_no_goal problem initial_state fuel calls).
- intros Hrun%ucs_ps_return.
  exact (ps_none_no_goal problem initial_state _ _ fuel calls s Hrun Hs).
- destruct (is_goal problem initial_state) eqn:Hg; [discriminate|].
  intros Hrun%astar_ps_return.
  exact (ps_none_no_goal problem initial_state _ _ fuel calls s Hrun Hs).
- destruct (is_goal problem initial_state) eqn:Hg; [discriminate|].
  intros Hrun%gbfs_ps_return.
  exact (ps_none_no_goal problem initial_state _ _ fuel calls s Hrun Hs).
Qed.

Lemma none_means_no_reachable_goal_witness :
  reachable (loop_problem (fun _ => false)) 0%nat 2%nat
  /\ DepthFirstSearch (loop_problem (fun _ => false)) 0%nat 4
     = Return None
         [GetActions 0%nat; GetSuccessor 0%nat 1%nat; GetActions 1%nat;
          GetSuccessor 1%nat 2%nat; GetSuccessor 1%nat 0%nat;
          GetActions 2%nat]
  /\ is_goal (loop_problem (fun _ => false)) 2%nat = false.
Proof.
assert (reachable (loop_problem (fun _ => false)) 0%nat 2%nat) as Hreach.
{ exists [1; 2]%nat. split; [|reflexivity]. simpl.
  repeat split; apply list_elem_of_In; simpl; auto. }
assert (DepthFirstSearch (loop_problem (fun _ => false)) 0%nat 4
        = Return None
            [GetActions 0%nat; GetSuccessor 0%nat 1%nat; GetActions 1%nat;
             GetSuccessor 1%nat 2%nat; GetSuccessor 1%nat 0%nat;
             GetActions 2%nat]) as Hrun by (vm_compute; reflexivity).
split; [exact Hreach|]. split; [exact Hrun|].
destruct (none_means_no_reachable_goal (loop_problem (fun _ => false))
            zero_estimate 0%nat 4
            [GetActions 0%nat; GetSuccessor 0%nat 1%nat; GetActions 1%nat;
             GetSuccessor 1%nat 2%nat; GetSuccessor 1%nat 0%nat;
             GetActions 2%nat] 2%nat Hreach) as (_ & Hdfs & _).
exact (Hdfs Hrun).
Defined.

(** X3.  Whatever the fuel, every state on which any of the five search
    functions has called [get_actions] is reachable from the initial state
    and is not a goal. *)
Theorem expanded_states_are_reachable_non_goals
        {State Action : Type} `{Countable State}
        (problem : Problem State Action)
        (heuristic : HeuristicFunction State Action)
        (initial_state : State) (fuel : nat) (s : State) :
  (s ∈ expansions
         (outcome_calls bfs_calls
            (BreadthFirstSearch problem initial_state fuel)) ->
   reachable problem initial_state s /\ is_goal problem s = false)
  /\ (s ∈ expansions
            (outcome_calls dfs_calls
               (DepthFirstSearch problem initial_state fuel)) ->
      reachable problem initial_state s /\ is_goal problem s = false)
  /\ (s ∈ expansions
            (outcome_calls ucs_calls
               (UniformCostSearch problem initial_state fuel)) ->
      reachable problem initial_state s /\ is_goal problem s = false)
  /\ (s ∈ expansions
            (outcome_calls astar_calls
               (AStarSearch problem heuristic initial_state fuel)) ->
      reachable problem initial_state s /\ is_goal problem s = false)
  /\ (s ∈ expansions
            (outcome_calls gbfs_calls
               (BestFirstSearch problem heuristic initial_state fuel)) ->
      reachable problem initial_state s /\ is_goal problem s = false).
Proof.
unfold BreadthFirstSearch, DepthFirstSearch, AStarSearch, BestFirstSearch.
repeat apply conj.
- destruct (is_goal problem initial_state) eqn:Hg; [by inversion 1|].
  by apply bfs_expansions_reachable.
- destruct (is_goal problem initial_state) eqn:Hg; [by inversion 1|].
  apply dfs_expansions_reachable.
- rewrite ucs_ps_calls. apply ps_expansions_reachable.
- destruct (is_goal problem initial_state) eqn:Hg; [by inversion 1|].
  rewrite astar_ps_calls. apply ps_expansions_reachable.
- destruct (is_goal problem initial_state) eqn:Hg; [by inversion 1|].
  rewrite gbfs_ps_calls. apply ps_expansions_reachable.
Qed.

Lemma expanded_states_are_reachable_non_goals_witness :
  1%nat ∈ expansions
            (outcome_calls astar_calls
               (AStarSearch (loop_problem (fun s => Nat.eqb s 2))
                  zero_estimate 0%nat 3))
  /\ reachable (loop_problem (fun s => Nat.eqb s 2)) 0%nat 1%nat
  /\ is_goal (loop_problem (fun s => Nat.eqb s 2)) 1%nat = false.
Proof.
assert (1%nat ∈ expansions
                  (outcome_calls astar_calls
                     (AStarSearch (loop_problem (fun s => Nat.eqb s 2))
                        zero_estimate 0%nat 3))) as Hin
  by (apply list_elem_of_In; vm_compute; auto).
split; [exact Hin|].
destruct (expanded_states_are_reachable_non_goals
            (loop_problem (fun s => Nat.eqb s 2)) zero_estimate 0%nat 3 1%nat)
  as (_ & _ & _ & Hastar & _).
exact (Hastar Hin).
Defined.

(** X4.  When the states reachable from the initial state all lie in a
    list [L], none of the five search functions calls [get_actions] more
    than [length L] times, however long it runs. *)
Theorem expansions_bounded_by_reachable_states
        {State Action : Type} `{Countable State}
        (problem : Problem State Action)
        (heuristic : HeuristicFunction State Action)
        (initial_state : State) (L : list State) (fuel : nat) :
  finite_reach problem initial_state L ->
  (length (expansions
             (outcome_calls bfs_calls
                (BreadthFirstSearch problem initial_state fuel)))
   <= length L)%nat
  /\ (length (expansions
                (outcome_calls dfs_calls
                   (DepthFirstSearch problem initial_state fuel)))
      <= length L)%nat
  /\ (length (expansions
                (outcome_calls ucs_calls
                   (UniformCostSearch problem initial_state fuel)))
      <= length L)%nat
  /\ (length (expansions
                (outcome_calls astar_calls
                   (AStarSearch problem heuristic initial_state fuel)))
      <= length L)%nat
  /\ (length (expansions
                (outcome_calls gbfs_calls
                   (BestFirstSearch problem heuristic initial_state fuel)))
      <= length L)%nat.
Proof.
intros HL.
unfold BreadthFirstSearch, DepthFirstSearch, AStarSearch, BestFirstSearch.
repeat apply conj.
- destruct (is_goal problem initial_state) eqn:Hg; [simpl; lia|].
  apply nodup_length_le; [by apply bfs_loop_nodup|].
  intros s Hs. apply HL.
  by destruct (bfs_expansions_reachable problem initial_state fuel s Hg Hs).
- destruct (is_goal problem initial_state) eqn:Hg; [simpl; lia|].
  apply nodup_length_le; [apply dfs_expansions_nodup|].
  intros s Hs. apply HL.
  by destruct (dfs_expansions_reachable problem initial_state fuel s Hs).
- rewrite ucs_ps_calls.
  apply nodup_length_le; [apply ps_calls_nodup|].
  intros s Hs. apply HL.
  by destruct (ps_expansions_reachable problem initial_state _ _ fuel s Hs).
- destruct (is_goal problem initial_state) eqn:Hg; [simpl; lia|].
  rewrite astar_ps_calls.
  apply nodup_length_le; [apply ps_calls_nodup|].
  intros s Hs. apply HL.
  by destruct (ps_expansions_reachable problem initial_state _ _ fuel s Hs).
- destruct (is_goal problem initial_state) eqn:Hg; [simpl; lia|].
  rewrite gbfs_ps_calls.
  apply nodup_length_le; [apply ps_calls_nodup|].
  intros s Hs. apply HL.
  by destruct (ps_expansions_reachable problem initial_state _ _ fuel s Hs).
Qed.

Lemma expansions_bounded_by_reachable_states_witness :
  finite_reach (loop_problem (fun _ => false)) 0%nat [0; 1; 2]%nat
  /\ (length (expansions
                (outcome_calls dfs_calls
                   (DepthFirstSearch (loop_problem (fun _ => false))
                      0%nat 10)))
      <= 3)%nat.
Proof.
assert (finite_reach (loop_problem (fun _ => false)) 0%nat [0; 1; 2]%nat)
  as HL by (apply closedb_finite_reach; reflexivity).
split; [exact HL|].
destruct (expansions_bounded_by_reachable_states
            (loop_problem (fun _ => false)) zero_estimate 0%nat
            [0; 1; 2]%nat 10 HL) as (_ & Hdfs & _).
exact Hdfs.
Defined.

(** ** Properties of the parking problem *)

Lemma parking_enumerate_spec {X : Type} (l : list X) : forall (n i : Z) (x : X),
  (i, x) ∈ Parking.enumerate n l
  <-> exists k : nat, l !! k = Some x /\ i = n + Z.of_nat k.
Proof.
induction l as [|y l IH]; intros n i x; simpl.
- split; [by inversion 1|]. by intros (k & Hk & _).
- rewrite elem_of_cons, IH. split.
  + intros [[= -> ->]|(k & Hk & ->)].
    * exists O. split; [done|lia].
    * exists (Datatypes.S k). split; [done|lia].
  + intros ([|k] & Hk & ->); simpl in Hk.
    * left. injection Hk as ->. f_equal. lia.
    * right. exists k. split; [done|lia].
Qed.

Lemma parking_can_move_spec (self : Parking.ParkingProblem)
      (car : Parking.Point) (d : Parking.Direction) :
  Parking.can_move self car d = true
  <-> Parking.move car d ∈ Parking.passages self
      /\ forall other, other ∈ Parking.cars self -> other <> car ->
           Parking.move car d <> other.
Proof.
unfold Parking.can_move.
destruct (decide (Parking.move car d ∉ Parking.passages self)) as [Hout|Hin].
- split; [done|]. by intros [? _].
- assert (Parking.move car d ∈ Parking.passages self) as Hin'
    by (by destruct (decide (Parking.move car d ∈ Parking.passages self))).
  rewrite negb_true_iff. split.
  + intros Hex. split; [done|]. intros other Ho Hne Heq.
    assert (existsb (fun other_car =>
                       bool_decide (other_car <> car)
                       && bool_decide (Parking.move car d = other_car))
              (Parking.cars self) = true) as Htrue; [|congruence].
    apply existsb_exists. exists other. split; [by apply list_elem_of_In|].
    by rewrite !bool_decide_eq_true_2.
  + intros [_ Hfree].
    destruct (existsb _ (Parking.cars self)) eqn:Hex; [|done].
    apply existsb_exists in Hex as (other & Ho%list_elem_of_In & Hb).
    apply andb_true_iff in Hb as [Hne%bool_decide_eq_true Heq%bool_decide_eq_true].
    by destruct (Hfree other Ho Hne).
Qed.

(** X5.  [is_goal] holds exactly when every car stands on a cell that is
    the parking slot of its own index. *)
Theorem parking_is_goal_spec (self : Parking.ParkingProblem)
        (state : Parking.ParkingState) :
  Parking.is_goal self state = true
  <-> forall (k : nat) (car : Parking.Point),
        state !! k = Some car ->
        Parking.slots self !! car = Some (Z.of_nat k).
Proof.
unfold Parking.is_goal. rewrite forallb_forall. split.
- intros Hall k car Hk.
  specialize (Hall (Z.of_nat k, car)). simpl in Hall.
  destruct (Parking.slots self !! car) as [j|] eqn:Hj.
  + f_equal. apply Z.eqb_eq. apply Hall.
    apply list_elem_of_In, parking_enumerate_spec. exists k. split; [done|lia].
  + discriminate Hall.
    apply list_elem_of_In, parking_enumerate_spec. exists k. split; [done|lia].
- intros Hall [i car] Hin%list_elem_of_In.
  apply parking_enumerate_spec in Hin as (k & Hk & ->).
  rewrite (Hall k car Hk). apply Z.eqb_eq. lia.
Qed.

(** X6.  [get_actions] offers the action [(i, d)] exactly when [i] is the
    index of a car of the state, [d] is a direction, and moving that car in
    direction [d] lands on a passage that no other car of [self.cars]
    occupies; the cars of the state itself are not consulted. *)
Theorem parking_actions_spec (directions : list Parking.Direction)
        (self : Parking.ParkingProblem) (state : Parking.ParkingState)
        (i : Z) (d : Parking.Direction) :
  (i, d) ∈ Parking.get_actions directions self state
  <-> exists (k : nat) (car : Parking.Point),
        i = Z.of_nat k /\ state !! k = Some car /\ d ∈ directions
        /\ Parking.move car d ∈ Parking.passages self
        /\ forall other, other ∈ Parking.cars self -> other <> car ->
             Parking.move car d <> other.
Proof.
unfold Parking.get_actions. split.
- intros Hact%list_elem_of_In.
  apply in_flat_map in Hact as ([j car] & Hin%list_elem_of_In & Hd).
  apply parking_enumerate_spec in Hin as (k & Hk & ->).
  apply in_flat_map in Hd as (d' & Hd' & Hmove).
  destruct (Parking.can_move self car d') eqn:Hcan; [|by inversion Hmove].
  destruct Hmove as [[= <- <-]|[]].
  apply parking_can_move_spec in Hcan as [Hp Hfree].
  exists k, car. repeat split; try done. by apply list_elem_of_In.
- intros (k & car & -> & Hk & Hd & Hp & Hfree).
  apply list_elem_of_In, in_flat_map.
  exists (Z.of_nat k, car). split.
  + apply list_elem_of_In, parking_enumerate_spec. exists k. split; [done|lia].
  + apply in_flat_map. exists d. split; [by apply list_elem_of_In|].
    rewrite (proj2 (parking_can_move_spec self car d)) by done. by left.
Qed.

Lemma parking_py_index_nat {X : Type} (l : list X) (k : nat) :
  (k < length l)%nat -> Parking.py_index l (Z.of_nat k) = Some k.
Proof.
intros Hk. unfold Parking.py_index.
destruct (Z.leb_spec 0 (Z.of_nat k)); [|lia].
destruct (Z.ltb_spec (Z.of_nat k) (Z.of_nat (length l))); [|lia].
simpl. by rewrite Nat2Z.id.
Qed.

Lemma parking_py_index_Some {X : Type} (l : list X) (i : Z) (k : nat) :
  Parking.py_index l i = Some k -> (k < length l)%nat.
Proof.
unfold Parking.py_index.
destruct (Z.leb_spec 0 i), (Z.ltb_spec i (Z.of_nat (length l))); simpl;
  try (intros [= <-]; lia);
  destruct (Z.leb_spec (- Z.of_nat (length l)) i), (Z.ltb_spec i 0); simpl;
  try discriminate; intros [= <-]; lia.
Qed.

(** X7.  [get_successor] fails exactly when the index of the action is
    outside [-len(state), len(state)); otherwise it returns a state of the
    same length that differs from the given one in one position only, leaves
    [self.cars] equal to the returned state, and changes no other field of
    the problem. *)
Theorem parking_successor_frame (self : Parking.ParkingProblem)
        (state : Parking.ParkingState) (i : Z) (d : Parking.Direction) :
  (Parking.get_successor self state (i, d) = inl Parking.IndexError
   <-> i < - Z.of_nat (length state) \/ Z.of_nat (length state) <= i)
  /\ forall self' state',
      Parking.get_successor self state (i, d) = inr (self', state') ->
      Parking.cars self' = state'
      /\ length state' = length state
      /\ (exists (k : nat) car,
             Parking.py_index state i = Some k
             /\ state !! k = Some car
             /\ state' !! k = Some (Parking.move car d)
             /\ forall j : nat, j <> k -> state' !! j = state !! j)
      /\ Parking.passages self' = Parking.passages self
      /\ Parking.ranks self' = Parking.ranks self
      /\ Parking.slots self' = Parking.slots self.
Proof.
unfold Parking.get_successor.
destruct (Parking.py_index state i) as [k|] eqn:Hidx.
- pose proof (parking_py_index_Some state i k Hidx) as Hk.
  destruct (state !! k) as [car|] eqn:Hcar;
    [|by apply lookup_ge_None in Hcar; lia].
  split.
  + split; [discriminate|]. intros Hout. exfalso.
    unfold Parking.py_index in Hidx.
    destruct (Z.leb_spec 0 i), (Z.ltb_spec i (Z.of_nat (length state)));
      simpl in Hidx; try lia;
      destruct (Z.leb_spec (- Z.of_nat (length state)) i), (Z.ltb_spec i 0);
      simpl in Hidx; try lia; discriminate.
  + intros self' state' [= <- <-]. simpl.
    split; [done|]. split; [apply length_insert|].
    split; [|done].
    exists k, car. split; [done|]. split; [done|].
    split; [by apply list_lookup_insert_eq|].
    intros j Hj. by apply list_lookup_insert_ne.
- split; [|discriminate]. split; [|done]. intros _.
  unfold Parking.py_index in Hidx.
  destruct (Z.leb_spec 0 i), (Z.ltb_spec i (Z.of_nat (length state)));
    simpl in Hidx; try discriminate; try lia;
    destruct (Z.leb_spec (- Z.of_nat (length state)) i), (Z.ltb_spec i 0);
    simpl in Hidx; try discriminate; lia.
Qed.

Lemma parking_successor_frame_witness :
  Parking.get_successor
    {| Parking.passages := {[ (0, 0); (1, 0) ]};
       Parking.cars := [(0, 0)];
       Parking.ranks := {[ 0 := 26 ]};
       Parking.slots := {[ (1, 0) := 0 ]};
       Parking.width := 2;
       Parking.height := 1 |}
    [(0, 0)] (0, Parking.RIGHT)
  = inr ({| Parking.passages := {[ (0, 0); (1, 0) ]};
            Parking.cars := [(1, 0)];
            Parking.ranks := {[ 0 := 26 ]};
            Parking.slots := {[ (1, 0) := 0 ]};
            Parking.width := 2;
            Parking.height := 1 |},
         [(1, 0)])
  /\ length [((1, 0) : Parking.Point)] = length [((0, 0) : Parking.Point)].
Proof.
split; [reflexivity|].
destruct (parking_successor_frame
            {| Parking.passages := {[ (0, 0); (1, 0) ]};
               Parking.cars := [(0, 0)];
               Parking.ranks := {[ 0 := 26 ]};
               Parking.slots := {[ (1, 0) := 0 ]};
               Parking.width := 2;
               Parking.height := 1 |}
            [(0, 0)] 0 Parking.RIGHT) as [_ Hok].
destruct (Hok _ [(1, 0)] eq_refl) as (_ & Hlen & _). exact Hlen.
Defined.

(** X8.  When [self.cars] equals the state, the cars stand on pairwise
    distinct cells and all on passages, then every action offered by
    [get_actions] has a successor, in which the cars again stand on
    pairwise distinct passages and to which [self.cars] is equal. *)
Theorem parking_successor_keeps_cars_apart
        (directions : list Parking.Direction)
        (self : Parking.ParkingProblem) (state : Parking.ParkingState)
        (action : Parking.ParkingAction) :
  Parking.cars self = state ->
  NoDup state ->
  (forall car, car ∈ state -> car ∈ Parking.passages self) ->
  action ∈ Parking.get_actions directions self state ->
  exists self' state',
    Parking.get_successor self state action = inr (self', state')
    /\ Parking.cars self' = state'
    /\ NoDup state'
    /\ forall car, car ∈ state' -> car ∈ Parking.passages self'.
Proof.
intros Hsync Hnd Hpass Hact. destruct action as [i d].
apply parking_actions_spec in Hact
  as (k & car & -> & Hk & Hd & Hp & Hfree).
assert (k < length state)%nat as Hlt by (by apply lookup_lt_Some in Hk).
unfold Parking.get_successor.
rewrite (parking_py_index_nat state k Hlt), Hk.
eexists _, _. split; [done|]. simpl. split; [done|]. split.
- apply NoDup_alt. intros j1 j2 x H1 H2.
  apply list_lookup_insert_Some in H1, H2.
  rewrite NoDup_alt in Hnd.
  destruct H1 as [(E1 & M1 & _)|(Hne1 & H1)],
           H2 as [(E2 & M2 & _)|(Hne2 & H2)].
  + congruence.
  + exfalso. apply (Hfree x); [| |done].
    * rewrite Hsync. by apply list_elem_of_lookup_2 in H2.
    * intros ->. apply Hne2. by apply (Hnd k j2 car).
  + exfalso. apply (Hfree x); [| |done].
    * rewrite Hsync. by apply list_elem_of_lookup_2 in H1.
    * intros ->. apply Hne1. by apply (Hnd k j1 car).
  + by apply (Hnd j1 j2 x).
- intros c Hc. apply list_elem_of_lookup in Hc as (j & Hj).
  apply list_lookup_insert_Some in Hj as [(-> & <- & _)|(_ & Hj)]; [done|].
  apply Hpass. by apply list_elem_of_lookup_2 in Hj.
Qed.

Lemma parking_successor_keeps_cars_apart_witness :
  let self :=
    {| Parking.passages := {[ (0, 0); (1, 0); (2, 0) ]};
       Parking.cars := [(0, 0); (2, 0)];
       Parking.ranks := {[ 0 := 26; 1 := 25 ]};
       Parking.slots := {[ (2, 0) := 0; (0, 0) := 1 ]};
       Parking.width := 3;
       Parking.height := 1 |} in
  (Parking.cars self = [(0, 0); (2, 0)]
   /\ NoDup [((0, 0) : Parking.Point); (2, 0)]
   /\ (0, Parking.RIGHT)
        ∈ Parking.get_actions
            [Parking.RIGHT; Parking.UP; Parking.LEFT; Parking.DOWN]
            self [(0, 0); (2, 0)])
  /\ exists self' state',
       Parking.get_successor self [(0, 0); (2, 0)] (0, Parking.RIGHT)
       = inr (self', state')
       /\ Parking.cars self' = state'
       /\ NoDup state'
       /\ forall car, car ∈ state' -> car ∈ Parking.passages self'.
Proof.
intros self.
assert (NoDup [((0, 0) : Parking.Point); (2, 0)]) as Hnd.
{ apply NoDup_cons. split; [|apply NoDup_singleton].
  intros [=]%list_elem_of_singleton. }
assert ((0, Parking.RIGHT)
          ∈ Parking.get_actions
              [Parking.RIGHT; Parking.UP; Parking.LEFT; Parking.DOWN]
              self [(0, 0); (2, 0)]) as Hact.
{ apply list_elem_of_In. vm_compute. left. reflexivity. }
split; [by repeat split|].
apply (parking_successor_keeps_cars_apart
         [Parking.RIGHT; Parking.UP; Parking.LEFT; Parking.DOWN]
         self [(0, 0); (2, 0)] (0, Parking.RIGHT)).
- reflexivity.
- exact Hnd.
- intros car Hcar. subst self. simpl. set_solver.
- exact Hact.
Defined.

(** ** Properties of the game searches *)

Ltac ext_absurd :=
  match goal with
  | H : true = false |- _ => discriminate H
  | H : false = true |- _ => discriminate H
  | H : ?x <> ?x |- _ => by destruct H
  end.

Ltac ext_cases :=
  unfold Games.ext_lt, Games.ext_le, Games.ext_eqb, Games.ext_leb,
         Games.ext_max, Games.ext_min in *;
  repeat (match goal with x : Games.ext |- _ => destruct x end;
          cbn in *; try ext_absurd);
  repeat (match goal with
          | H : context [Z.ltb ?a ?b] |- _ => destruct (Z.ltb_spec a b)
          | |- context [Z.ltb ?a ?b] => destruct (Z.ltb_spec a b)
          end; cbn in *; try ext_absurd).

Ltac ext_solve :=
  ext_cases;
  try done; try lia; try congruence;
  try (f_equal; lia);
  try (exfalso; lia).

Lemma window_refl (v alpha beta : Games.ext) : window v v alpha beta.
Proof. by repeat split. Qed.

Lemma window_full (v v' : Games.ext) :
  window v v' Games.NegInf Games.PosInf -> v' = v.
Proof.
intros (H1 & H2 & H3). unfold Games.ext_le, Games.ext_lt in *.
destruct v, v'; simpl in *; try done;
  try (by discriminate H1); try (by discriminate H2);
  by apply H3.
Qed.

Section GameLoops.
Context {State Action : Type}.
Implicit Types (l : list (Action * State)) (m v alpha beta : Games.ext).
Implicit Types (b a : option Action).

Lemma max_loop_cons (rec : State -> Games.Result Action)
      (action : Action) (state : State) l m b :
  Games.max_loop rec ((action, state) :: l) m b
  = match rec state with
    | Games.Value (value, _) =>
        Games.max_loop rec l
          (if Games.ext_ltb m value then value else m)
          (if Games.ext_ltb m value then Some action else b)
    | e => e
    end.
Proof.
simpl. destruct (rec state) as [[value ?]| | |]; try done.
by destruct (Games.ext_ltb m value).
Qed.

Lemma min_loop_cons (rec : State -> Games.Result Action)
      (action : Action) (state : State) l m b :
  Games.min_loop rec ((action, state) :: l) m b
  = match rec state with
    | Games.Value (value, _) =>
        Games.min_loop rec l
          (if Games.ext_ltb value m then value else m)
          (if Games.ext_ltb value m then Some action else b)
    | e => e
    end.
Proof.
simpl. destruct (rec state) as [[value ?]| | |]; try done.
by destruct (Games.ext_ltb value m).
Qed.

Lemma ab_max_loop_cons
      (rec : State -> Games.ext -> Games.ext -> Games.Result Action)
      (action : Action) (state : State) l m b alpha beta :
  Games.ab_max_loop rec ((action, state) :: l) m b alpha beta
  = match rec state alpha beta with
    | Games.Value (value, _) =>
        let m2 := if Games.ext_ltb m value then value else m in
        let b2 := if Games.ext_ltb m value then Some action else b in
        if Games.ext_leb beta (Games.ext_max alpha m2)
        then Games.Value (m2, b2)
        else Games.ab_max_loop rec l m2 b2 (Games.ext_max alpha m2) beta
    | e => e
    end.
Proof.
simpl. destruct (rec state alpha beta) as [[value ?]| | |]; try done.
by destruct (Games.ext_ltb m value).
Qed.

Lemma ab_min_loop_cons
      (rec : State -> Games.ext -> Games.ext -> Games.Result Action)
      (action : Action) (state : State) l m b alpha beta :
  Games.ab_min_loop rec ((action, state) :: l) m b alpha beta
  = match rec state alpha beta with
    | Games.Value (value, _) =>
        let m2 := if Games.ext_ltb value m then value else m in
        let b2 := if Games.ext_ltb value m then Some action else b in
        if Games.ext_leb (Games.ext_min beta m2) alpha
        then Games.Value (m2, b2)
        else Games.ab_min_loop rec l m2 b2 alpha (Games.ext_min beta m2)
    | e => e
    end.
Proof.
simpl. destruct (rec state alpha beta) as [[value ?]| | |]; try done.
by destruct (Games.ext_ltb value m).
Qed.

Lemma max_loop_ge (rec : State -> Games.Result Action) l :
  forall m b v a,
    Games.max_loop rec l m b = Games.Value (v, a) -> Games.ext_le m v.
Proof.
induction l as [|[action state] l IH]; intros m b v a.
- intros [= <- <-]. ext_solve.
- rewrite max_loop_cons.
  destruct (rec state) as [[value ?]| | |]; try done.
  intros Hl%IH. clear IH. ext_solve.
Qed.

Lemma min_loop_le (rec : State -> Games.Result Action) l :
  forall m b v a,
    Games.min_loop rec l m b = Games.Value (v, a) -> Games.ext_le v m.
Proof.
induction l as [|[action state] l IH]; intros m b v a.
- intros [= <- <-]. ext_solve.
- rewrite min_loop_cons.
  destruct (rec state) as [[value ?]| | |]; try done.
  intros Hl%IH. clear IH. ext_solve.
Qed.

Lemma max_loop_top (rec : State -> Games.Result Action) l :
  forall b v a,
    Games.max_loop rec l Games.PosInf b = Games.Value (v, a) ->
    v = Games.PosInf /\ a = b.
Proof.
induction l as [|[action state] l IH]; intros b v a.
- by intros [= <- <-].
- rewrite max_loop_cons.
  destruct (rec state) as [[value ?]| | |]; try done.
  simpl. apply IH.
Qed.

Lemma min_loop_bottom (rec : State -> Games.Result Action) l :
  forall b v a,
    Games.min_loop rec l Games.NegInf b = Games.Value (v, a) ->
    v = Games.NegInf /\ a = b.
Proof.
induction l as [|[action state] l IH]; intros b v a.
- by intros [= <- <-].
- rewrite min_loop_cons.
  destruct (rec state) as [[value ?]| | |]; try done.
  replace (Games.ext_ltb value Games.NegInf) with false by (by destruct value).
  apply IH.
Qed.

End GameLoops.

Ltac ext_fin :=
  try first [ reflexivity | assumption | lia | (f_equal; lia)
            | congruence | done ].

Ltac ext_side :=
  ext_cases; ext_fin;
  first [ solve [right; split; [reflexivity|];
                 split; [reflexivity|]; split; ext_fin]
        | solve [left; repeat split; ext_fin] ].

Lemma window_cases (v v' alpha beta : Games.ext) :
  Games.ext_lt alpha beta ->
  window v v' alpha beta ->
  (Games.ext_le v alpha /\ Games.ext_le v' alpha)
  \/ (Games.ext_le beta v /\ Games.ext_le beta v')
  \/ (Games.ext_lt alpha v /\ Games.ext_lt v beta /\ v' = v).
Proof.
intros Hab (W1 & W2 & W3). unfold Games.ext_le, Games.ext_lt in *.
destruct (Games.ext_ltb alpha v) eqn:E1.
- destruct (Games.ext_ltb v beta) eqn:E2.
  + right. right. by auto.
  + right. left. by auto.
- left. by auto.
Qed.

Section AlphaBetaSteps.
Context {Action : Type}.
Implicit Types (m v alpha beta : Games.ext) (b : option Action).

Lemma max_step_continue alpha beta alpha' m m' v v' b b' (action : Action) :
  Games.ext_lt alpha' beta ->
  max_related alpha m b m' b' alpha' ->
  window v v' alpha' beta ->
  Games.ext_leb beta
    (Games.ext_max alpha' (if Games.ext_ltb m' v' then v' else m')) = false ->
  max_related alpha
    (if Games.ext_ltb m v then v else m)
    (if Games.ext_ltb m v then Some action else b)
    (if Games.ext_ltb m' v' then v' else m')
    (if Games.ext_ltb m' v' then Some action else b')
    (Games.ext_max alpha' (if Games.ext_ltb m' v' then v' else m')).
Proof.
intros Hlt HR HW Hc.
apply (window_cases _ _ _ _ Hlt) in HW.
unfold max_related in *.
destruct HR as [(-> & -> & ->)|(H1 & H2 & -> & Hne)];
  destruct HW as [[W1 W2]|[[W1 W2]|(W1 & W2 & ->)]];
  clear Hlt; ext_side.
Qed.

Lemma max_step_break alpha beta alpha' m m' v v' b b' (action : Action) :
  Games.ext_lt alpha' beta ->
  max_related alpha m b m' b' alpha' ->
  window v v' alpha' beta ->
  Games.ext_leb beta
    (Games.ext_max alpha' (if Games.ext_ltb m' v' then v' else m')) = true ->
  Games.ext_lt alpha beta
  /\ Games.ext_le beta (if Games.ext_ltb m v then v else m)
  /\ Games.ext_le beta (if Games.ext_ltb m' v' then v' else m')
  /\ (beta = Games.PosInf ->
      (if Games.ext_ltb m v then v else m) = Games.PosInf
      /\ (if Games.ext_ltb m' v' then v' else m') = Games.PosInf
      /\ (if Games.ext_ltb m' v' then Some action else b')
         = (if Games.ext_ltb m v then Some action else b)).
Proof.
intros Hlt HR HW Hc.
apply (window_cases _ _ _ _ Hlt) in HW.
unfold max_related in *.
destruct HR as [(-> & -> & ->)|(H1 & H2 & -> & Hne)];
  destruct HW as [[W1 W2]|[[W1 W2]|(W1 & W2 & ->)]];
  ext_cases; ext_fin; repeat split; ext_fin.
Qed.

Lemma min_step_continue alpha beta beta' m m' v v' b b' (action : Action) :
  Games.ext_lt alpha beta' ->
  min_related beta m b m' b' beta' ->
  window v v' alpha beta' ->
  Games.ext_leb
    (Games.ext_min beta' (if Games.ext_ltb v' m' then v' else m')) alpha
  = false ->
  min_related beta
    (if Games.ext_ltb v m then v else m)
    (if Games.ext_ltb v m then Some action else b)
    (if Games.ext_ltb v' m' then v' else m')
    (if Games.ext_ltb v' m' then Some action else b')
    (Games.ext_min beta' (if Games.ext_ltb v' m' then v' else m')).
Proof.
intros Hlt HR HW Hc.
apply (window_cases _ _ _ _ Hlt) in HW.
unfold min_related in *.
destruct HR as [(-> & -> & ->)|(H1 & H2 & -> & Hne)];
  destruct HW as [[W1 W2]|[[W1 W2]|(W1 & W2 & ->)]];
  clear Hlt; ext_side.
Qed.

Lemma min_step_break alpha beta beta' m m' v v' b b' (action : Action) :
  Games.ext_lt alpha beta' ->
  min_related beta m b m' b' beta' ->
  window v v' alpha beta' ->
  Games.ext_leb
    (Games.ext_min beta' (if Games.ext_ltb v' m' then v' else m')) alpha
  = true ->
  Games.ext_lt alpha beta
  /\ Games.ext_le (if Games.ext_ltb v m then v else m) alpha
  /\ Games.ext_le (if Games.ext_ltb v' m' then v' else m') alpha
  /\ (alpha = Games.NegInf ->
      (if Games.ext_ltb v m then v else m) = Games.NegInf
      /\ (if Games.ext_ltb v' m' then v' else m') = Games.NegInf
      /\ (if Games.ext_ltb v' m' then Some action else b')
         = (if Games.ext_ltb v m then Some action else b)).
Proof.
intros Hlt HR HW Hc.
apply (window_cases _ _ _ _ Hlt) in HW.
unfold min_related in *.
destruct HR as [(-> & -> & ->)|(H1 & H2 & -> & Hne)];
  destruct HW as [[W1 W2]|[[W1 W2]|(W1 & W2 & ->)]];
  ext_cases; ext_fin; repeat split; ext_fin.
Qed.

End AlphaBetaSteps.

Lemma ext_leb_false_lt (x y : Games.ext) :
  Games.ext_leb y x = false -> Games.ext_lt x y.
Proof. unfold Games.ext_leb, Games.ext_lt. by intros ?%negb_false_iff. Qed.

Lemma max_related_final {Action : Type} (alpha beta alpha' m m' : Games.ext)
      (b b' : option Action) :
  Games.ext_lt alpha' beta ->
  max_related alpha m b m' b' alpha' ->
  window m m' alpha beta /\ (inside m alpha beta -> b' = b).
Proof.
intros Hlt [(-> & -> & ->)|(H1 & H2 & -> & Hne)].
- split; [apply window_refl|done].
- unfold window, inside. repeat split; ext_cases; ext_fin.
  all: by intros [[?|?] _].
Qed.

Lemma min_related_final {Action : Type} (alpha beta beta' m m' : Games.ext)
      (b b' : option Action) :
  Games.ext_lt alpha beta' ->
  min_related beta m b m' b' beta' ->
  window m m' alpha beta /\ (inside m alpha beta -> b' = b).
Proof.
intros Hlt [(-> & -> & ->)|(H1 & H2 & -> & Hne)].
- split; [apply window_refl|done].
- unfold window, inside. repeat split; ext_cases; ext_fin.
  all: by intros [_ [?|?]].
Qed.

Lemma max_break_window (alpha beta m2 m2' v : Games.ext) :
  Games.ext_lt alpha beta -> Games.ext_le beta m2 -> Games.ext_le m2 v ->
  Games.ext_le beta m2' ->
  window v m2' alpha beta /\ (inside v alpha beta -> beta = Games.PosInf).
Proof.
intros H1 H2 H3 H4. unfold window, inside.
repeat split; ext_cases; ext_fin.
all: by intros [_ [?|?]].
Qed.

Lemma min_break_window (alpha beta m2 m2' v : Games.ext) :
  Games.ext_lt alpha beta -> Games.ext_le m2 alpha -> Games.ext_le v m2 ->
  Games.ext_le m2' alpha ->
  window v m2' alpha beta /\ (inside v alpha beta -> alpha = Games.NegInf).
Proof.
intros H1 H2 H3 H4. unfold window, inside.
repeat split; ext_cases; ext_fin.
all: by intros [[?|?] _].
Qed.

Section AlphaBetaLoops.
Context {State Action : Type}.
Implicit Types (l : list (Action * State)) (m v alpha beta : Games.ext).
Implicit Types (b a : option Action).

Lemma ab_max_loop_spec (rec : State -> Games.Result Action)
      (rec' : State -> Games.ext -> Games.ext -> Games.Result Action) l :
  (forall action state, (action, state) ∈ l ->
     forall alpha beta v x,
       Games.ext_lt alpha beta -> rec state = Games.Value (v, x) ->
       exists v' x', rec' state alpha beta = Games.Value (v', x')
                     /\ window v v' alpha beta) ->
  forall m b m' b' alpha alpha' beta v a,
    Games.ext_lt alpha' beta ->
    max_related alpha m b m' b' alpha' ->
    Games.max_loop rec l m b = Games.Value (v, a) ->
    exists v' a',
      Games.ab_max_loop rec' l m' b' alpha' beta = Games.Value (v', a')
      /\ window v v' alpha beta
      /\ (inside v alpha beta -> a' = a).
Proof.
induction l as [|[action state] l IH]; intros Hrec m b m' b' alpha alpha' beta v a
  Hlt HR Hloop.
- injection Hloop as <- <-. exists m', b'. split; [done|].
  by apply (max_related_final alpha beta alpha').
- rewrite max_loop_cons in Hloop.
  destruct (rec state) as [[vi xi]| | |] eqn:Hvi; try done.
  destruct (Hrec action state (list_elem_of_here _ _) alpha' beta vi xi Hlt Hvi)
    as (vi' & xi' & Hvi' & HW).
  rewrite ab_max_loop_cons, Hvi'. cbv zeta.
  destruct (Games.ext_leb beta _) eqn:Hc.
  + destruct (max_step_break alpha beta alpha' m m' vi vi' b b' action
                Hlt HR HW Hc) as (Hab & Hb1 & Hb2 & Htop).
    pose proof (max_loop_ge rec l _ _ _ _ Hloop) as Hge.
    destruct (max_break_window alpha beta _ _ v Hab Hb1 Hge Hb2)
      as [Hwin Hin].
    eexists _, _. split; [done|]. split; [done|].
    intros Hi. destruct (Htop (Hin Hi)) as (E1 & _ & E3).
    rewrite E1 in Hloop. apply max_loop_top in Hloop as [_ ->]. done.
  + refine (IH _ _ _ _ _ alpha _ beta v a (ext_leb_false_lt _ _ Hc)
              (max_step_continue alpha beta alpha' m m' vi vi' b b' action
                 Hlt HR HW Hc) Hloop).
    intros action0 state0 Hin. apply (Hrec action0 state0).
    by apply list_elem_of_further.
Qed.

Lemma ab_min_loop_spec (rec : State -> Games.Result Action)
      (rec' : State -> Games.ext -> Games.ext -> Games.Result Action) l :
  (forall action state, (action, state) ∈ l ->
     forall alpha beta v x,
       Games.ext_lt alpha beta -> rec state = Games.Value (v, x) ->
       exists v' x', rec' state alpha beta = Games.Value (v', x')
                     /\ window v v' alpha beta) ->
  forall m b m' b' alpha beta beta' v a,
    Games.ext_lt alpha beta' ->
    min_related beta m b m' b' beta' ->
    Games.min_loop rec l m b = Games.Value (v, a) ->
    exists v' a',
      Games.ab_min_loop rec' l m' b' alpha beta' = Games.Value (v', a')
      /\ window v v' alpha beta
      /\ (inside v alpha beta -> a' = a).
Proof.
induction l as [|[action state] l IH]; intros Hrec m b m' b' alpha beta beta' v a
  Hlt HR Hloop.
- injection Hloop as <- <-. exists m', b'. split; [done|].
  by apply (min_related_final alpha beta beta').
- rewrite min_loop_cons in Hloop.
  destruct (rec state) as [[vi xi]| | |] eqn:Hvi; try done.
  destruct (Hrec action state (list_elem_of_here _ _) alpha beta' vi xi Hlt Hvi)
    as (vi' & xi' & Hvi' & HW).
  rewrite ab_min_loop_cons, Hvi'. cbv zeta.
  destruct (Games.ext_leb _ alpha) eqn:Hc.
  + destruct (min_step_break alpha beta beta' m m' vi vi' b b' action
                Hlt HR HW Hc) as (Hab & Hb1 & Hb2 & Hbot).
    pose proof (min_loop_le rec l _ _ _ _ Hloop) as Hle.
    destruct (min_break_window alpha beta _ _ v Hab Hb1 Hle Hb2)
      as [Hwin Hin].
    eexists _, _. split; [done|]. split; [done|].
    intros Hi. destruct (Hbot (Hin Hi)) as (E1 & _ & E3).
    rewrite E1 in Hloop. apply min_loop_bottom in Hloop as [_ ->]. done.
  + refine (IH _ _ _ _ _ alpha beta _ v a (ext_leb_false_lt _ _ Hc)
              (min_step_continue alpha beta beta' m m' vi vi' b b' action
                 Hlt HR HW Hc) Hloop).
    intros action0 state0 Hin. apply (Hrec action0 state0).
    by apply list_elem_of_further.
Qed.

End AlphaBetaLoops.

Lemma ext_max_NegInf (x : Games.ext) : Games.ext_max x Games.NegInf = x.
Proof. by destruct x. Qed.

Lemma ext_min_PosInf (x : Games.ext) : Games.ext_min x Games.PosInf = x.
Proof. by destruct x. Qed.

Lemma inside_full (v : Games.ext) : inside v Games.NegInf Games.PosInf.
Proof. split; by right. Qed.

Section AlphaBeta.
Context {State Action : Type}.
Context (game : Games.Game State Action).
Context (heuristic : Games.HeuristicFunction State Action).

Lemma alphabeta_decision_spec (fuel : nat) :
  forall (state : State) (depth : Z) (alpha beta v : Games.ext)
         (a : option Action),
    Games.ext_lt alpha beta ->
    Games.minimax_decision game heuristic fuel state depth
    = Games.Value (v, a) ->
    exists v' a',
      Games.alphabeta_decision game heuristic fuel state depth alpha beta
      = Games.Value (v', a')
      /\ window v v' alpha beta
      /\ (inside v alpha beta -> a' = a).
Proof.
induction fuel as [|fuel IH]; intros state depth alpha beta v a Hlt; [done|].
simpl. destruct (Games.is_terminal game state) as [terminal values].
destruct terminal.
{ destruct values as [|v0 ?]; [done|]. intros [= <- <-].
  exists v0, None. split; [done|]. split; [apply window_refl|done]. }
destruct (depth =? 0).
{ intros [= <- <-]. eexists _, None. split; [done|].
  split; [apply window_refl|done]. }
assert (forall (action : Action) (s : State),
          (action, s) ∈ Games.actions_states game state ->
          forall al be vv (x : option Action),
            Games.ext_lt al be ->
            Games.minimax_decision game heuristic fuel s (depth - 1)
            = Games.Value (vv, x) ->
            exists v' x',
              Games.alphabeta_decision game heuristic fuel s (depth - 1) al be
              = Games.Value (v', x')
              /\ window vv v' al be) as Hchildren.
{ intros action s _ al be vv x Hl Hv.
  destruct (IH s (depth - 1) al be vv x Hl Hv) as (v' & x' & ? & ? & _).
  by exists v', x'. }
destruct (Nat.eqb (Games.get_turn game state) 0).
- apply (ab_max_loop_spec _ _ _ Hchildren); [done|].
  left. by rewrite ext_max_NegInf.
- apply (ab_min_loop_spec _ _ _ Hchildren); [done|].
  left. by rewrite ext_min_PosInf.
Qed.

End AlphaBeta.

(** X9.  Whenever [minimax] returns a value and an action, [alphabeta]
    returns the same value and the same action: pruning changes neither. *)
Theorem alphabeta_agrees_with_minimax {State Action : Type}
        (game : Games.Game State Action) (fuel : nat) (state : State)
        (heuristic : Games.HeuristicFunction State Action) (max_depth : Z)
        (v : Games.ext) (a : option Action) :
  Games.minimax game fuel state heuristic max_depth = Games.Value (v, a) ->
  Games.alphabeta game fuel state heuristic max_depth = Games.Value (v, a).
Proof.
unfold Games.minimax, Games.alphabeta. intros Hm.
destruct (alphabeta_decision_spec game heuristic fuel state max_depth
            Games.NegInf Games.PosInf v a eq_refl Hm)
  as (v' & a' & -> & Hw%window_full & Ha).
by rewrite Hw, (Ha (inside_full v)).
Qed.

Lemma alphabeta_agrees_with_minimax_witness :
  Games.minimax tree_game 3 0%nat tree_heuristic (-1)
  = Games.Value (Games.Fin 3, Some 1%nat)
  /\ Games.alphabeta tree_game 3 0%nat tree_heuristic (-1)
     = Games.Value (Games.Fin 3, Some 1%nat).
Proof.
split; [reflexivity|].
apply (alphabeta_agrees_with_minimax tree_game 3 0%nat tree_heuristic (-1)).
reflexivity.
Defined.

Lemma insert_by_perm {X : Type} (leb : X -> X -> bool) (x : X) (l : list X) :
  Games.insert_by leb x l ≡ₚ x :: l.
Proof.
induction l as [|y l IH]; simpl; [done|].
destruct (leb x y); [done|]. rewrite IH. apply Permutation_swap.
Qed.

Lemma stable_sort_perm {X : Type} (leb : X -> X -> bool) (l : list X) :
  Games.stable_sort leb l ≡ₚ l.
Proof.
induction l as [|x l IH]; simpl; [done|].
unfold Games.stable_sort in *. simpl. by rewrite insert_by_perm, IH.
Qed.

Section LoopOrder.
Context {State Action : Type}.
Context (rec : State -> Games.Result Action).
Implicit Types (l : list (Action * State)) (m v : Games.ext).
Implicit Types (b a : option Action).

Lemma max_loop_best l : forall m b b2 v a,
  Games.max_loop rec l m b = Games.Value (v, a) ->
  exists a', Games.max_loop rec l m b2 = Games.Value (v, a').
Proof.
induction l as [|[action state] l IH]; intros m b b2 v a.
- intros [= <- <-]. by eexists.
- rewrite !max_loop_cons.
  destruct (rec state) as [[value ?]| | |]; try done. apply IH.
Qed.

Lemma min_loop_best l : forall m b b2 v a,
  Games.min_loop rec l m b = Games.Value (v, a) ->
  exists a', Games.min_loop rec l m b2 = Games.Value (v, a').
Proof.
induction l as [|[action state] l IH]; intros m b b2 v a.
- intros [= <- <-]. by eexists.
- rewrite !min_loop_cons.
  destruct (rec state) as [[value ?]| | |]; try done. apply IH.
Qed.

Lemma max_loop_perm l l' :
  l ≡ₚ l' ->
  forall m b b2 v a,
    Games.max_loop rec l m b = Games.Value (v, a) ->
    exists a', Games.max_loop rec l' m b2 = Games.Value (v, a').
Proof.
induction 1 as [|[action state] l l' Hp IH
                |[action1 state1] [action2 state2] l
                |l1 l2 l3 Hp1 IH1 Hp2 IH2]; intros m b b2 v a.
- intros [= <- <-]. by eexists.
- rewrite !max_loop_cons.
  destruct (rec state) as [[value ?]| | |]; try done. apply IH.
- rewrite !max_loop_cons.
  destruct (rec state1) as [[v1 ?]| | |] eqn:E1;
    destruct (rec state2) as [[v2 ?]| | |] eqn:E2;
    rewrite ?max_loop_cons, ?E1, ?E2; try done.
  intros Hl.
  replace (if Games.ext_ltb (if Games.ext_ltb m v1 then v1 else m) v2
           then v2 else if Games.ext_ltb m v1 then v1 else m)
    with (if Games.ext_ltb (if Games.ext_ltb m v2 then v2 else m) v1
          then v1 else if Games.ext_ltb m v2 then v2 else m).
  + by apply (max_loop_best l _ _ _ _ _ Hl).
  + clear. ext_cases; ext_fin.
- intros Hl. destruct (IH1 m b b2 v a Hl) as [a1 Hl1].
  by apply (IH2 m b2 b2 v a1).
Qed.

Lemma min_loop_perm l l' :
  l ≡ₚ l' ->
  forall m b b2 v a,
    Games.min_loop rec l m b = Games.Value (v, a) ->
    exists a', Games.min_loop rec l' m b2 = Games.Value (v, a').
Proof.
induction 1 as [|[action state] l l' Hp IH
                |[action1 state1] [action2 state2] l
                |l1 l2 l3 Hp1 IH1 Hp2 IH2]; intros m b b2 v a.
- intros [= <- <-]. by eexists.
- rewrite !min_loop_cons.
  destruct (rec state) as [[value ?]| | |]; try done. apply IH.
- rewrite !min_loop_cons.
  destruct (rec state1) as [[v1 ?]| | |] eqn:E1;
    destruct (rec state2) as [[v2 ?]| | |] eqn:E2;
    rewrite ?min_loop_cons, ?E1, ?E2; try done.
  intros Hl.
  replace (if Games.ext_ltb v2 (if Games.ext_ltb v1 m then v1 else m)
           then v2 else if Games.ext_ltb v1 m then v1 else m)
    with (if Games.ext_ltb v1 (if Games.ext_ltb v2 m then v2 else m)
          then v1 else if Games.ext_ltb v2 m then v2 else m).
  + by apply (min_loop_best l _ _ _ _ _ Hl).
  + clear. ext_cases; ext_fin.
- intros Hl. destruct (IH1 m b b2 v a Hl) as [a1 Hl1].
  by apply (IH2 m b2 b2 v a1).
Qed.

End LoopOrder.

Section MoveOrdering.
Context {State Action : Type}.
Context (game : Games.Game State Action).
Context (heuristic : Games.HeuristicFunction State Action).

Lemma alphabeta_ordered_decision_spec (fuel : nat) :
  forall (state : State) (depth : Z) (alpha beta v : Games.ext)
         (a : option Action),
    Games.ext_lt alpha beta ->
    Games.minimax_decision game heuristic fuel state depth
    = Games.Value (v, a) ->
    exists v' a',
      Games.alphabeta_ordered_decision game heuristic fuel state depth
        alpha beta
      = Games.Value (v', a')
      /\ window v v' alpha beta.
Proof.
induction fuel as [|fuel IH]; intros state depth alpha beta v a Hlt; [done|].
simpl. destruct (Games.is_terminal game state) as [terminal values].
destruct terminal.
{ destruct values as [|v0 ?]; [done|]. intros [= <- <-].
  exists v0, None. split; [done|apply window_refl]. }
destruct (depth =? 0).
{ intros [= <- <-]. eexists _, None. split; [done|apply window_refl]. }
assert (forall (l : list (Action * State)) (action : Action) (s : State),
          (action, s) ∈ l ->
          forall al be vv (x : option Action),
            Games.ext_lt al be ->
            Games.minimax_decision game heuristic fuel s (depth - 1)
            = Games.Value (vv, x) ->
            exists v' x',
              Games.alphabeta_ordered_decision game heuristic fuel s
                (depth - 1) al be
              = Games.Value (v', x')
              /\ window vv v' al be) as Hchildren.
{ intros l action s _ al be vv x Hl Hv. by apply (IH s (depth - 1) al be vv x). }
destruct (Nat.eqb (Games.get_turn game state) 0); intros Hloop.
- assert (Games.actions_states game state
          ≡ₚ Games.sort_descending game heuristic
               (Games.actions_states game state)) as Hperm
    by (symmetry; apply stable_sort_perm).
  destruct (max_loop_perm _ _ _ Hperm _ _ None _ _ Hloop) as [a2 Hloop2].
  destruct (ab_max_loop_spec _ _ _ (Hchildren _) Games.NegInf None
              Games.NegInf None alpha alpha beta v a2 Hlt
              (or_introl (conj eq_refl (conj eq_refl
                 (eq_sym (ext_max_NegInf alpha))))) Hloop2)
    as (v' & a' & ? & ? & _).
  by exists v', a'.
- assert (Games.actions_states game state
          ≡ₚ Games.sort_ascending game heuristic
               (Games.actions_states game state)) as Hperm
    by (symmetry; apply stable_sort_perm).
  destruct (min_loop_perm _ _ _ Hperm _ _ None _ _ Hloop) as [a2 Hloop2].
  destruct (ab_min_loop_spec _ _ _ (Hchildren _) Games.PosInf None
              Games.PosInf None alpha beta beta v a2 Hlt
              (or_introl (conj eq_refl (conj eq_refl
                 (eq_sym (ext_min_PosInf beta))))) Hloop2)
    as (v' & a' & ? & ? & _).
  by exists v', a'.
Qed.

End MoveOrdering.

(** X10.  Whenever [minimax] returns a value, [alphabeta_with_move_ordering]
    returns the same value (with some action): neither the sorting of the
    successors by heuristic value nor the pruning changes the value. *)
Theorem move_ordering_keeps_minimax_value {State Action : Type}
        (game : Games.Game State Action) (fuel : nat) (state : State)
        (heuristic : Games.HeuristicFunction State Action) (max_depth : Z)
        (v : Games.ext) (a : option Action) :
  Games.minimax game fuel state heuristic max_depth = Games.Value (v, a) ->
  exists a',
    Games.alphabeta_with_move_ordering game fuel state heuristic max_depth
    = Games.Value (v, a').
Proof.
unfold Games.minimax, Games.alphabeta_with_move_ordering. intros Hm.
destruct (alphabeta_ordered_decision_spec game heuristic fuel state max_depth
            Games.NegInf Games.PosInf v a eq_refl Hm)
  as (v' & a' & -> & Hw%window_full).
exists a'. by rewrite Hw.
Qed.

Lemma move_ordering_keeps_minimax_value_witness :
  Games.minimax tree_game 3 0%nat tree_heuristic (-1)
  = Games.Value (Games.Fin 3, Some 1%nat)
  /\ exists a',
       Games.alphabeta_with_move_ordering tree_game 3 0%nat tree_heuristic (-1)
       = Games.Value (Games.Fin 3, a').
Proof.
split; [reflexivity|].
apply (move_ordering_keeps_minimax_value tree_game 3 0%nat tree_heuristic (-1)
         (Games.Fin 3) (Some 1%nat)).
reflexivity.
Defined.

Section LoopFuel.
Context {State Action : Type}.
Implicit Types (l : list (Action * State)) (m alpha beta : Games.ext).
Implicit Types (b : option Action).

Lemma max_loop_returns (rec : State -> Games.Result Action) l :
  (forall s, rec s <> Games.OutOfFuel) ->
  forall m b, Games.max_loop rec l m b <> Games.OutOfFuel.
Proof.
intros Hrec. induction l as [|[action state] l IH]; intros m b; [done|].
rewrite max_loop_cons. specialize (Hrec state).
destruct (rec state) as [[value ?]| | |]; [apply IH|done..].
Qed.

Lemma min_loop_returns (rec : State -> Games.Result Action) l :
  (forall s, rec s <> Games.OutOfFuel) ->
  forall m b, Games.min_loop rec l m b <> Games.OutOfFuel.
Proof.
intros Hrec. induction l as [|[action state] l IH]; intros m b; [done|].
rewrite min_loop_cons. specialize (Hrec state).
destruct (rec state) as [[value ?]| | |]; [apply IH|done..].
Qed.

Lemma ab_max_loop_returns
      (rec : State -> Games.ext -> Games.ext -> Games.Result Action) l :
  (forall s alpha beta, rec s alpha beta <> Games.OutOfFuel) ->
  forall m b alpha beta,
    Games.ab_max_loop rec l m b alpha beta <> Games.OutOfFuel.
Proof.
intros Hrec. induction l as [|[action state] l IH]; intros m b alpha beta;
  [done|].
rewrite ab_max_loop_cons. specialize (Hrec state alpha beta).
destruct (rec state alpha beta) as [[value ?]| | |]; [|done..].
cbv zeta. destruct (Games.ext_leb beta _); [done|apply IH].
Qed.

Lemma ab_min_loop_returns
      (rec : State -> Games.ext -> Games.ext -> Games.Result Action) l :
  (forall s alpha beta, rec s alpha beta <> Games.OutOfFuel) ->
  forall m b alpha beta,
    Games.ab_min_loop rec l m b alpha beta <> Games.OutOfFuel.
Proof.
intros Hrec. induction l as [|[action state] l IH]; intros m b alpha beta;
  [done|].
rewrite ab_min_loop_cons. specialize (Hrec state alpha beta).
destruct (rec state alpha beta) as [[value ?]| | |]; [|done..].
cbv zeta. destruct (Games.ext_leb _ alpha); [done|apply IH].
Qed.

End LoopFuel.

Section DepthBound.
Context {State Action : Type}.
Context (game : Games.Game State Action).
Context (heuristic : Games.HeuristicFunction State Action).

Lemma minimax_decision_returns (fuel : nat) :
  forall (state : State) (depth : Z),
    0 <= depth -> (Z.to_nat depth < fuel)%nat ->
    Games.minimax_decision game heuristic fuel state depth
    <> Games.OutOfFuel.
Proof.
induction fuel as [|fuel IH]; intros state depth H0 Hf; [lia|].
simpl. destruct (Games.is_terminal game state) as [[] [|v0 ?]]; try done.
all: destruct (Z.eqb_spec depth 0); [done|].
all: destruct (Nat.eqb _ 0);
  [apply max_loop_returns|apply min_loop_returns];
  intros s; apply IH; lia.
Qed.

Lemma alphabeta_decision_returns (fuel : nat) :
  forall (state : State) (depth : Z) (alpha beta : Games.ext),
    0 <= depth -> (Z.to_nat depth < fuel)%nat ->
    Games.alphabeta_decision game heuristic fuel state depth alpha beta
    <> Games.OutOfFuel.
Proof.
induction fuel as [|fuel IH]; intros state depth alpha beta H0 Hf; [lia|].
simpl. destruct (Games.is_terminal game state) as [[] [|v0 ?]]; try done.
all: destruct (Z.eqb_spec depth 0); [done|].
all: destruct (Nat.eqb _ 0);
  [apply ab_max_loop_returns|apply ab_min_loop_returns];
  intros s al be; apply IH; lia.
Qed.

Lemma alphabeta_ordered_decision_returns (fuel : nat) :
  forall (state : State) (depth : Z) (alpha beta : Games.ext),
    0 <= depth -> (Z.to_nat depth < fuel)%nat ->
    Games.alphabeta_ordered_decision game heuristic fuel state depth
      alpha beta
    <> Games.OutOfFuel.
Proof.
induction fuel as [|fuel IH]; intros state depth alpha beta H0 Hf; [lia|].
simpl. destruct (Games.is_terminal game state) as [[] [|v0 ?]]; try done.
all: destruct (Z.eqb_spec depth 0); [done|].
all: destruct (Nat.eqb _ 0);
  [apply ab_max_loop_returns|apply ab_min_loop_returns];
  intros s al be; apply IH; lia.
Qed.

End DepthBound.

(** X11.  With a non-negative [max_depth] the three searches recurse at most
    [max_depth + 1] calls deep, whatever the game: they return a value or
    raise, and never recurse without end. *)
Theorem bounded_depth_searches_return {State Action : Type}
        (game : Games.Game State Action) (fuel : nat) (state : State)
        (heuristic : Games.HeuristicFunction State Action) (max_depth : Z) :
  0 <= max_depth ->
  (Z.to_nat max_depth < fuel)%nat ->
  Games.minimax game fuel state heuristic max_depth <> Games.OutOfFuel
  /\ Games.alphabeta game fuel state heuristic max_depth <> Games.OutOfFuel
  /\ Games.alphabeta_with_move_ordering game fuel state heuristic max_depth
     <> Games.OutOfFuel.
Proof.
intros H0 Hf. split; [|split].
- by apply minimax_decision_returns.
- by apply alphabeta_decision_returns.
- by apply alphabeta_ordered_decision_returns.
Qed.

Lemma bounded_depth_searches_return_witness :
  Games.minimax tree_game 2 0%nat tree_heuristic 1 <> Games.OutOfFuel
  /\ Games.alphabeta tree_game 2 0%nat tree_heuristic 1 <> Games.OutOfFuel
  /\ Games.alphabeta_with_move_ordering tree_game 2 0%nat tree_heuristic 1
     <> Games.OutOfFuel.
Proof.
apply (bounded_depth_searches_return tree_game 2 0%nat tree_heuristic 1);
  [lia|simpl; lia].
Defined.

Lemma ext_le_trans (x y z : Games.ext) :
  Games.ext_le x y -> Games.ext_le y z -> Games.ext_le x z.
Proof. intros H1 H2. ext_cases; ext_fin. Qed.

Lemma ext_le_refl (x : Games.ext) : Games.ext_le x x.
Proof. ext_cases; ext_fin. Qed.

Section MinimaxValue.
Context {State Action : Type}.
Context (rec : State -> Games.Result Action).
Implicit Types (l : list (Action * State)) (m v : Games.ext).
Implicit Types (b a : option Action).

Lemma max_loop_spec l : forall m b v a,
  Games.max_loop rec l m b = Games.Value (v, a) ->
  (forall action state, (action, state) ∈ l ->
     exists vi ai, rec state = Games.Value (vi, ai) /\ Games.ext_le vi v)
  /\ ((a = b /\ v = m)
      \/ exists action state ai,
           (action, state) ∈ l /\ a = Some action
           /\ rec state = Games.Value (v, ai)).
Proof.
induction l as [|[action state] l IH]; intros m b v a.
- intros [= <- <-]. split; [by inversion 1|by left].
- rewrite max_loop_cons.
  destruct (rec state) as [[vi ai]| | |] eqn:Hvi; try done.
  intros Hl. pose proof (max_loop_ge _ _ _ _ _ _ Hl) as Hge.
  destruct (IH _ _ _ _ Hl) as [Hall Hbest]. split.
  + intros action' state' [[= -> ->]|Hin]%elem_of_cons;
      [|by apply (Hall action' state')].
    exists vi, ai. split; [done|]. clear -Hge. ext_cases; ext_fin.
  + destruct Hbest as [[-> ->]|(action' & state' & ai' & Hin & -> & Hv)].
    * destruct (Games.ext_ltb m vi); [|by left].
      right. exists action, state, ai. split; [apply list_elem_of_here|done].
    * right. exists action', state', ai'.
      split; [by apply list_elem_of_further|done].
Qed.

Lemma min_loop_spec l : forall m b v a,
  Games.min_loop rec l m b = Games.Value (v, a) ->
  (forall action state, (action, state) ∈ l ->
     exists vi ai, rec state = Games.Value (vi, ai) /\ Games.ext_le v vi)
  /\ ((a = b /\ v = m)
      \/ exists action state ai,
           (action, state) ∈ l /\ a = Some action
           /\ rec state = Games.Value (v, ai)).
Proof.
induction l as [|[action state] l IH]; intros m b v a.
- intros [= <- <-]. split; [by inversion 1|by left].
- rewrite min_loop_cons.
  destruct (rec state) as [[vi ai]| | |] eqn:Hvi; try done.
  intros Hl. pose proof (min_loop_le _ _ _ _ _ _ Hl) as Hle.
  destruct (IH _ _ _ _ Hl) as [Hall Hbest]. split.
  + intros action' state' [[= -> ->]|Hin]%elem_of_cons;
      [|by apply (Hall action' state')].
    exists vi, ai. split; [done|]. clear -Hle. ext_cases; ext_fin.
  + destruct Hbest as [[-> ->]|(action' & state' & ai' & Hin & -> & Hv)].
    * destruct (Games.ext_ltb vi m); [|by left].
      right. exists action, state, ai. split; [apply list_elem_of_here|done].
    * right. exists action', state', ai'.
      split; [by apply list_elem_of_further|done].
Qed.

End MinimaxValue.

Lemma actions_states_elem {State Action : Type}
      (game : Games.Game State Action) (state : State)
      (action : Action) (s : State) :
  (action, s) ∈ Games.actions_states game state
  <-> action ∈ Games.get_actions game state
      /\ s = Games.get_successor game state action.
Proof.
unfold Games.actions_states. rewrite list_elem_of_fmap. split.
- intros (action' & [= -> ->] & Hin). done.
- intros [Hin ->]. by exists action.
Qed.

(** X12.  At a state that is not terminal and with a depth other than 0,
    the value [minimax] returns is the best of the values [minimax]
    returns for the successors with one level less: no successor of a max
    node (turn 0) has a greater value and no successor of a min node a
    smaller one; the action returned leads to a successor of exactly that
    value, and no action is returned only when the value is still the
    initial infinity. *)
Theorem minimax_value_is_best_successor {State Action : Type}
        (game : Games.Game State Action) (fuel : nat) (state : State)
        (heuristic : Games.HeuristicFunction State Action) (depth : Z)
        (v : Games.ext) (a : option Action) :
  fst (Games.is_terminal game state) = false ->
  depth <> 0 ->
  Games.minimax game (Datatypes.S fuel) state heuristic depth
  = Games.Value (v, a) ->
  let child action :=
    Games.minimax game fuel (Games.get_successor game state action)
      heuristic (depth - 1) in
  let is_max := Nat.eqb (Games.get_turn game state) 0 in
  (forall action, action ∈ Games.get_actions game state ->
     exists vi ai, child action = Games.Value (vi, ai)
                   /\ if is_max then Games.ext_le vi v
                      else Games.ext_le v vi)
  /\ match a with
     | Some action =>
         action ∈ Games.get_actions game state
         /\ exists ai, child action = Games.Value (v, ai)
     | None => v = if is_max then Games.NegInf else Games.PosInf
     end.
Proof.
unfold Games.minimax. simpl.
destruct (Games.is_terminal game state) as [terminal values]. simpl.
intros -> Hd. destruct (Z.eqb_spec depth 0) as [|_]; [done|].
destruct (Nat.eqb (Games.get_turn game state) 0).
- intros [Hall Hbest]%max_loop_spec. split.
  + intros action Hin.
    apply (Hall action (Games.get_successor game state action)).
    by apply actions_states_elem.
  + destruct Hbest as [[-> ->]|(action & s & ai & Hin & -> & Hv)]; [done|].
    apply actions_states_elem in Hin as [Hin ->]. split; [done|by exists ai].
- intros [Hall Hbest]%min_loop_spec. split.
  + intros action Hin.
    apply (Hall action (Games.get_successor game state action)).
    by apply actions_states_elem.
  + destruct Hbest as [[-> ->]|(action & s & ai & Hin & -> & Hv)]; [done|].
    apply actions_states_elem in Hin as [Hin ->]. split; [done|by exists ai].
Qed.

Lemma minimax_value_is_best_successor_witness :
  (forall action, action ∈ Games.get_actions tree_game 0%nat ->
     exists vi ai,
       Games.minimax tree_game 2
         (Games.get_successor tree_game 0%nat action) tree_heuristic (-2)
       = Games.Value (vi, ai)
       /\ Games.ext_le vi (Games.Fin 3))
  /\ (1%nat ∈ Games.get_actions tree_game 0%nat
      /\ exists ai,
           Games.minimax tree_game 2
             (Games.get_successor tree_game 0%nat 1%nat) tree_heuristic (-2)
           = Games.Value (Games.Fin 3, ai)).
Proof.
apply (minimax_value_is_best_successor tree_game 2 0%nat tree_heuristic (-1)
         (Games.Fin 3) (Some 1%nat)); [reflexivity|lia|reflexivity].
Defined.

Section Greedy.
Context {State Action : Type}.
Context (game : Games.Game State Action).
Context (heuristic : Games.HeuristicFunction State Action).
Implicit Types (x y r : Games.ext * Z * Action).

Lemma tuple_ltb_irrefl x : Games.tuple_ltb x x = false.
Proof.
destruct x as [[v i] action]. unfold Games.tuple_ltb.
rewrite Z.ltb_irrefl, andb_false_r, orb_false_r. by destruct v; simpl;
  rewrite ?Z.ltb_irrefl.
Qed.

Lemma tuple_ltb_above r x y :
  Games.tuple_ltb r y = false -> Games.tuple_ltb x y = true ->
  Games.tuple_ltb r x = false.
Proof.
destruct r as [[v1 i1] a1], x as [[v2 i2] a2], y as [[v3 i3] a3].
unfold Games.tuple_ltb. clear a1 a2 a3. intros H1 H2.
ext_cases; ext_fin.
Qed.

Lemma tuple_ltb_below r x y :
  Games.tuple_ltb r y = false -> Games.tuple_ltb y x = false ->
  Games.tuple_ltb r x = false.
Proof.
destruct r as [[v1 i1] a1], x as [[v2 i2] a2], y as [[v3 i3] a3].
unfold Games.tuple_ltb. clear a1 a2 a3. intros H1 H2.
ext_cases; ext_fin.
Qed.

Lemma py_max_spec (l : list (Games.ext * Z * Action)) : forall best,
  Games.py_max best l ∈ best :: l
  /\ forall x, x ∈ best :: l -> Games.tuple_ltb (Games.py_max best l) x = false.
Proof.
induction l as [|item l IH]; intros best; simpl.
- split; [apply list_elem_of_here|].
  intros x ->%list_elem_of_singleton. apply tuple_ltb_irrefl.
- destruct (IH (if Games.tuple_ltb best item then item else best))
    as [Hin Hall].
  split.
  + apply elem_of_cons in Hin as [->|Hin].
    * destruct (Games.tuple_ltb best item);
        [apply list_elem_of_further, list_elem_of_here|apply list_elem_of_here].
    * by do 2 apply list_elem_of_further.
  + intros x Hx.
    pose proof (Hall _ (list_elem_of_here _ _)) as Hbest.
    apply elem_of_cons in Hx as [->|Hx]; [|apply elem_of_cons in Hx as [->|Hx]].
    * destruct (Games.tuple_ltb best item) eqn:E; [|done].
      by apply (tuple_ltb_above _ _ item).
    * destruct (Games.tuple_ltb best item) eqn:E; [done|].
      by apply (tuple_ltb_below _ _ best).
    * apply Hall. by apply list_elem_of_further.
Qed.

Lemma greedy_tuples_lookup (agent : nat) (l : list (Action * State)) :
  forall (index : Z) (j : nat),
    Games.greedy_tuples game heuristic agent index l !! j
    = (fun '(action, state) =>
         (heuristic game state agent, - (index + Z.of_nat j), action))
        <$> l !! j.
Proof.
induction l as [|[action state] l IH]; intros index j; [done|].
destruct j as [|j]; simpl.
- do 3 f_equal. lia.
- rewrite IH. destruct (l !! j) as [[a s]|]; simpl; [|done].
  do 3 f_equal. lia.
Qed.

Lemma greedy_nonterminal (state : State) (max_depth : Z) :
  fst (Games.is_terminal game state) = false ->
  Games.greedy game state heuristic max_depth
  = match Games.greedy_tuples game heuristic (Games.get_turn game state) 0
            (Games.actions_states game state) with
    | [] => Games.ValueError
    | first :: rest =>
        let '(value, _, action) := Games.py_max first rest in
        Games.Value (value, Some action)
    end.
Proof.
unfold Games.greedy.
destruct (Games.is_terminal game state) as [terminal values]. simpl.
by intros ->.
Qed.

End Greedy.

(** X13.  At a state that is not terminal, [greedy] raises [ValueError]
    when there is no action; otherwise it returns the first of the actions
    whose successor has the greatest heuristic value (for the agent whose
    turn it is), together with that value. *)
Theorem greedy_returns_first_best_action {State Action : Type}
        (game : Games.Game State Action) (state : State)
        (heuristic : Games.HeuristicFunction State Action) (max_depth : Z) :
  fst (Games.is_terminal game state) = false ->
  let value action :=
    heuristic game (Games.get_successor game state action)
      (Games.get_turn game state) in
  (Games.get_actions game state = [] ->
   Games.greedy game state heuristic max_depth = Games.ValueError)
  /\ (Games.get_actions game state <> [] ->
      exists (k : nat) (action : Action),
        Games.get_actions game state !! k = Some action
        /\ Games.greedy game state heuristic max_depth
           = Games.Value (value action, Some action)
        /\ forall (j : nat) (action' : Action),
             Games.get_actions game state !! j = Some action' ->
             Games.ext_le (value action') (value action)
             /\ ((j < k)%nat -> Games.ext_lt (value action') (value action))).
Proof.
intros Hterm value. rewrite (greedy_nonterminal game heuristic state max_depth Hterm).
pose proof (greedy_tuples_lookup game heuristic (Games.get_turn game state)
              (Games.actions_states game state) 0) as Hlookup.
unfold Games.actions_states in *.
split.
- by intros ->.
- intros Hne.
  destruct (Games.greedy_tuples game heuristic (Games.get_turn game state) 0 _)
    as [|first rest] eqn:Htuples.
  { specialize (Hlookup O). simpl in Hlookup.
    destruct (Games.get_actions game state); done. }
  destruct (py_max_spec rest first) as [Hin Hall].
  apply list_elem_of_lookup in Hin as [k Hk].
  rewrite Hlookup, list_lookup_fmap in Hk.
  destruct (Games.get_actions game state !! k) as [action|] eqn:Hact;
    [|done].
  simpl in Hk. injection Hk as Hk.
  exists k, action. split; [done|]. rewrite <- Hk. split; [done|].
  intros j action' Hj.
  assert ((first :: rest) !! j
          = Some (value action', - (0 + Z.of_nat j), action')) as Hxj.
  { by rewrite Hlookup, list_lookup_fmap, Hj. }
  apply list_elem_of_lookup_2, Hall in Hxj. rewrite <- Hk in Hxj.
  unfold Games.tuple_ltb in Hxj.
  apply orb_false_iff in Hxj as [H1 H2]. split; [done|].
  intros Hjk. apply andb_false_iff in H2 as [H2|H2].
  + fold (value action) in *. clear -H1 H2.
    generalize dependent (value action).
    generalize dependent (value action').
    intros x y H1 H2. ext_cases; ext_fin.
  + apply Z.ltb_ge in H2. lia.
Qed.

Lemma greedy_returns_first_best_action_witness :
  exists (k : nat) (action : nat),
    Games.get_actions tree_game 0%nat !! k = Some action
    /\ Games.greedy tree_game 0%nat tree_heuristic (-1)
       = Games.Value (tree_heuristic tree_game
                        (Games.get_successor tree_game 0%nat action)
                        (Games.get_turn tree_game 0%nat), Some action)
    /\ forall (j : nat) (action' : nat),
         Games.get_actions tree_game 0%nat !! j = Some action' ->
         Games.ext_le
           (tree_heuristic tree_game
              (Games.get_successor tree_game 0%nat action')
              (Games.get_turn tree_game 0%nat))
           (tree_heuristic tree_game
              (Games.get_successor tree_game 0%nat action)
              (Games.get_turn tree_game 0%nat))
         /\ ((j < k)%nat ->
             Games.ext_lt
               (tree_heuristic tree_game
                  (Games.get_successor tree_game 0%nat action')
                  (Games.get_turn tree_game 0%nat))
               (tree_heuristic tree_game
                  (Games.get_successor tree_game 0%nat action)
                  (Games.get_turn tree_game 0%nat))).
Proof.
apply (greedy_returns_first_best_action tree_game 0%nat tree_heuristic (-1));
  [reflexivity|discriminate].
Defined.

(** ** Properties of the string functions *)

Lemma palindrome_check_returns (frames : nat) : forall string : list Z,
  (length string + 2 <= 2 * frames)%nat ->
  Strings.palindrome_check frames string
  = Strings.Returns (bool_decide (string = reverse string)).
Proof.
induction frames as [|frames IH]; intros string Hlen; [lia|].
simpl. destruct string as [|c rest]; [by rewrite bool_decide_eq_true_2|].
destruct (decide (rest = [])) as [->|Hne].
- simpl. rewrite Z.eqb_refl. rewrite IH by (simpl in *; lia).
  by rewrite !bool_decide_eq_true_2.
- destruct (exists_last Hne) as (mid & d & ->).
  assert (List.last (c :: mid ++ [d]) c = d) as ->.
  { rewrite app_comm_cons. apply last_last. }
  simpl tail. rewrite removelast_last.
  rewrite reverse_cons, reverse_app. simpl.
  simpl in Hlen. rewrite length_app in Hlen. simpl in Hlen.
  destruct (Z.eqb_spec c d) as [->|Hcd].
  + rewrite IH by lia. f_equal. apply bool_decide_ext. split.
    * intros <-. done.
    * intros [= H]. by apply app_inv_tail in H.
  + f_equal. symmetry. apply bool_decide_eq_false. by intros [= ? _].
Qed.

Lemma palindrome_check_raises (frames : nat) : forall string : list Z,
  string = reverse string ->
  (2 * frames < length string + 2)%nat ->
  Strings.palindrome_check frames string = Strings.RecursionError.
Proof.
induction frames as [|frames IH]; intros string Hpal Hlen; [done|].
simpl. destruct string as [|c rest]; [simpl in Hlen; lia|].
destruct (decide (rest = [])) as [->|Hne].
- simpl. rewrite Z.eqb_refl. apply IH; [done|]. simpl in *. lia.
- destruct (exists_last Hne) as (mid & d & ->).
  assert (List.last (c :: mid ++ [d]) c = d) as ->.
  { rewrite app_comm_cons. apply last_last. }
  simpl tail. rewrite removelast_last.
  rewrite reverse_cons, reverse_app in Hpal. simpl in Hpal.
  injection Hpal as -> Hmid. apply app_inv_tail in Hmid.
  rewrite Z.eqb_refl. apply IH; [done|].
  simpl in Hlen. rewrite length_app in Hlen. simpl in Hlen. lia.
Qed.

(** X14.  With [frames] stack frames left by the recursion limit,
    [palindrome_check] returns True exactly when the string reads the same
    in both directions, provided [len(string) + 2 <= 2 * frames]; on a
    palindrome with [len(string) + 2 > 2 * frames] it raises
    [RecursionError] instead of returning True. *)
Theorem palindrome_check_spec (frames : nat) (string : list Z) :
  ((length string + 2 <= 2 * frames)%nat ->
   Strings.palindrome_check frames string
   = Strings.Returns (bool_decide (string = reverse string)))
  /\ (string = reverse string ->
      (2 * frames < length string + 2)%nat ->
      Strings.palindrome_check frames string = Strings.RecursionError).
Proof.
split; [apply palindrome_check_returns|apply palindrome_check_raises].
Qed.

Lemma palindrome_check_spec_witness :
  Strings.palindrome_check 4 [114; 97; 100; 97; 114] = Strings.Returns true
  /\ Strings.palindrome_check 3 [114; 97; 100; 97; 114]
     = Strings.RecursionError.
Proof.
split.
- rewrite (proj1 (palindrome_check_spec 4 [114; 97; 100; 97; 114]));
    [done|simpl; lia].
- apply (proj2 (palindrome_check_spec 3 [114; 97; 100; 97; 114]));
    [done|simpl; lia].
Defined.

Section Caesar.
Context (ciphered : list Z) (dictionary : list (list Z)).

Let count (shift : Z) : Z :=
  Strings.count_not_in_dict dictionary (Strings.decipher ciphered shift).

Lemma caesar_fold (l : list Z) : forall best_text best_shift best_num,
  exists text shift num,
    fold_left (Strings.caesar_step ciphered dictionary) l
              (best_text, best_shift, best_num)
    = (text, shift, num)
    /\ num <= best_num
    /\ (forall x, x ∈ l -> num <= count x)
    /\ ((text = best_text /\ shift = best_shift /\ num = best_num)
        \/ exists l1 l2,
             l = l1 ++ shift :: l2
             /\ text = Strings.decipher ciphered shift
             /\ num = count shift
             /\ num < best_num
             /\ forall x, x ∈ l1 -> num < count x).
Proof.
induction l as [|x l IH]; intros best_text best_shift best_num.
- exists best_text, best_shift, best_num. simpl.
  split; [done|]. split; [lia|]. split; [by inversion 1|by left].
- simpl. fold (count x). destruct (Z.ltb_spec (count x) best_num) as [Hlt|Hge].
  + destruct (IH (Strings.decipher ciphered x) x (count x))
      as (text & shift & num & Hfold & Hle & Hall & Hbest).
    exists text, shift, num. split; [done|]. split; [lia|]. split.
    * intros y [->|Hy]%elem_of_cons; [done|by apply Hall].
    * right. destruct Hbest as [(-> & -> & ->)
                               |(l1 & l2 & -> & -> & -> & Hlt' & Hl1)].
      -- exists [], l. repeat split; try done. by inversion 1.
      -- exists (x :: l1), l2. repeat split; try done; [lia|].
         intros y [->|Hy]%elem_of_cons; [done|by apply Hl1].
  + destruct (IH best_text best_shift best_num)
      as (text & shift & num & Hfold & Hle & Hall & Hbest).
    exists text, shift, num. split; [done|]. split; [done|]. split.
    * intros y [->|Hy]%elem_of_cons; [lia|by apply Hall].
    * destruct Hbest as [?|(l1 & l2 & -> & -> & -> & Hlt' & Hl1)];
        [by left|right].
      exists (x :: l1), l2. repeat split; try done.
      intros y [->|Hy]%elem_of_cons; [lia|by apply Hl1].
Qed.

Lemma shifts_lookup (i : nat) (x : Z) :
  Strings.shifts !! i = Some x <-> (i < 25)%nat /\ x = Z.of_nat i + 1.
Proof.
unfold Strings.shifts. rewrite list_lookup_fmap, fmap_Some. split.
- intros (k & [-> Hk]%lookup_seq & ->). split; [done|lia].
- intros [Hi ->]. exists (Datatypes.S i). split; [|lia].
  apply lookup_seq. split; [done|lia].
Qed.

Lemma shifts_elem (x : Z) : x ∈ Strings.shifts <-> 1 <= x <= 25.
Proof.
rewrite list_elem_of_lookup. split.
- intros [i [Hi ->]%shifts_lookup]. lia.
- intros Hx. exists (Z.to_nat (x - 1)). apply shifts_lookup. lia.
Qed.

Lemma shifts_before (l1 l2 : list Z) (shift x : Z) :
  Strings.shifts = l1 ++ shift :: l2 -> 1 <= x < shift -> x ∈ l1.
Proof.
intros Hsplit Hx.
assert (Strings.shifts !! length l1 = Some shift) as [Hl ->]%shifts_lookup.
{ rewrite Hsplit. by apply list_lookup_middle. }
assert (Strings.shifts !! Z.to_nat (x - 1) = Some x) as Hlook
  by (apply shifts_lookup; lia).
rewrite Hsplit, lookup_app_l in Hlook by lia.
by apply list_elem_of_lookup_2 in Hlook.
Qed.

End Caesar.

(** X15.  [caesar_dechiper] returns the smallest number of words outside the
    dictionary over the shifts 1 to 25, capped by the number of words of the
    ciphered text.  If no shift gets below that cap, it returns the empty
    text and shift 0; otherwise it returns the first shift that reaches the
    minimum, with the text deciphered by that shift. *)
Theorem caesar_dechiper_spec (ciphered : list Z) (dictionary : list (list Z)) :
  let count shift :=
    Strings.count_not_in_dict dictionary (Strings.decipher ciphered shift) in
  let words := Z.of_nat (length (Strings.split ciphered)) in
  exists text shift num,
    Strings.caesar_dechiper ciphered dictionary = (text, shift, num)
    /\ 0 <= num <= words
    /\ (forall x, 1 <= x <= 25 -> num <= count x)
    /\ ((text = [] /\ shift = 0 /\ num = words)
        \/ (1 <= shift <= 25
            /\ text = Strings.decipher ciphered shift
            /\ num = count shift
            /\ num < words
            /\ forall x, 1 <= x < shift -> num < count x)).
Proof.
intros count words. unfold Strings.caesar_dechiper.
destruct (caesar_fold ciphered dictionary Strings.shifts [] 0 words)
  as (text & shift & num & Hfold & Hle & Hall & Hbest).
exists text, shift, num. split; [done|].
assert (forall x, 0 <= count x) as Hcount
  by (intros x; unfold count, Strings.count_not_in_dict; lia).
split; [|split].
- split; [|done].
  destruct Hbest as [(_ & _ & ->)|(_ & _ & _ & _ & -> & _)];
    [unfold words; lia|apply Hcount].
- intros x Hx. by apply Hall, shifts_elem.
- destruct Hbest as [?|(l1 & l2 & Hsplit & -> & -> & Hlt & Hl1)];
    [by left|right].
  split.
  { apply shifts_elem. rewrite Hsplit.
    apply elem_of_app. right. apply list_elem_of_here. }
  repeat split; try done.
  intros x Hx. apply Hl1. by apply (shifts_before l1 l2 shift).
Qed.

(** ** Properties of the Sokoban heuristics *)

Lemma sokoban_fold_min_spec (l : list Z) : forall x,
  fold_left Z.min l x ∈ x :: l
  /\ forall y, y ∈ x :: l -> fold_left Z.min l x <= y.
Proof.
induction l as [|z l IH]; intros x; simpl.
- split; [apply list_elem_of_here|].
  intros y ->%list_elem_of_singleton. lia.
- destruct (IH (Z.min x z)) as [Hin Hmin]. split.
  + apply elem_of_cons in Hin as [->|Hin].
    * destruct (Z.min_spec x z) as [[_ ->]|[_ ->]];
        [apply list_elem_of_here
        |apply list_elem_of_further, list_elem_of_here].
    * by do 2 apply list_elem_of_further.
  + pose proof (Hmin _ (list_elem_of_here _ _)) as H0.
    intros y [->|[->|Hy]%elem_of_cons]%elem_of_cons; [lia|lia|].
    apply Hmin. by apply list_elem_of_further.
Qed.

Lemma sokoban_py_min_spec (l : list Z) (m : Z) :
  Sokoban.py_min l = Some m <-> m ∈ l /\ forall y, y ∈ l -> m <= y.
Proof.
destruct l as [|x l]; simpl.
- split; [done|]. by intros [?%elem_of_nil _].
- destruct (sokoban_fold_min_spec l x) as [Hin Hmin]. split.
  + by intros [= <-].
  + intros [Hin' Hmin']. f_equal. apply Z.le_antisymm; auto.
Qed.

Lemma sokoban_py_min_perm (l l' : list Z) :
  l ≡ₚ l' -> Sokoban.py_min l = Sokoban.py_min l'.
Proof.
intros Hp. destruct (Sokoban.py_min l) as [m|] eqn:E.
- symmetry. apply sokoban_py_min_spec.
  apply sokoban_py_min_spec in E as [Hin Hmin]. split.
  + by rewrite <- Hp.
  + intros y Hy. apply Hmin. by rewrite Hp.
- destruct l; [|done]. apply Permutation_nil in Hp. by subst.
Qed.

Lemma manhattan_distance_nonneg (p q : Sokoban.Point) :
  0 <= Sokoban.manhattan_distance p q.
Proof. unfold Sokoban.manhattan_distance. lia. Qed.


Lemma sum_nearest_goal_ge (state : Sokoban.SokobanState)
      (l : list Sokoban.Point) : forall result r,
  Sokoban.sum_nearest_goal state l result = inr r -> result <= r.
Proof.
induction l as [|crate l IH]; intros result r; simpl.
- intros [= ->]. lia.
- destruct (Sokoban.py_min _) as [m|] eqn:Hm; [|done].
  intros Hr%IH. apply sokoban_py_min_spec in Hm as [Hin _].
  apply list_elem_of_fmap in Hin as (goal & -> & _).
  pose proof (manhattan_distance_nonneg crate goal). lia.
Qed.

(** X16.  [strong_heuristic] returns infinity exactly when [is_deadlock]
    finds a deadlock; when it returns a number, [weak_heuristic] returns
    a number too, and not a greater one. *)
Theorem strong_heuristic_dominates_weak {Problem : Type} (problem : Problem)
        (state : Sokoban.SokobanState) :
  (Sokoban.strong_heuristic problem state = inr Sokoban.Inf
   <-> Sokoban.is_deadlock state = inr true)
  /\ forall r,
       Sokoban.strong_heuristic problem state = inr (Sokoban.Num r) ->
       exists w, Sokoban.weak_heuristic problem state = inr w /\ w <= r.
Proof.
unfold Sokoban.strong_heuristic, Sokoban.weak_heuristic.
destruct (Sokoban.is_deadlock state) as [e|[]]; [done|done|].
destruct (Sokoban.sum_nearest_goal state _ 0) as [e|result] eqn:Hsum.
{ split; [split; done|done]. }
apply sum_nearest_goal_ge in Hsum.
destruct (Sokoban.py_min _) as [m|]; [|split; [split; done|done]].
split; [split; done|]. intros r [= <-]. exists (m - 1). split; [done|lia].
Qed.

Lemma strong_heuristic_dominates_weak_witness :
  Sokoban.strong_heuristic tt (room_state (2, 2)) = inr (Sokoban.Num 1)
  /\ exists w,
       Sokoban.weak_heuristic tt (room_state (2, 2)) = inr w /\ w <= 1.
Proof.
split; [by vm_compute|].
destruct (strong_heuristic_dominates_weak tt (room_state (2, 2))) as [_ H].
apply H. by vm_compute.
Defined.





Section SokobanOrder.
Context (state state' : Sokoban.SokobanState).
Context (Hlayout : Sokoban.layout state' = Sokoban.layout state).
Context (Hplayer : Sokoban.player state' = Sokoban.player state).
Context (Hcrates : Sokoban.crates state' ≡ₚ Sokoban.crates state).

Lemma nearest_step_bound (crate : Sokoban.Point) (l : list Sokoban.Point) :
  forall st, is_Some (snd st) ->
    is_Some (snd (fold_left (Sokoban.nearest_step crate) l st)).
Proof.
induction l as [|goal l IH]; intros st Hst; simpl; [done|].
apply IH. unfold Sokoban.nearest_step.
destruct (fst st) as [d|]; [|done].
by destruct (Z.ltb _ d).
Qed.

Lemma nearest_bound (crate : Sokoban.Point) :
  Sokoban.goals (Sokoban.layout state) <> [] ->
  is_Some (snd (Sokoban.nearest crate state)).
Proof.
unfold Sokoban.nearest.
destruct (Sokoban.goals (Sokoban.layout state)) as [|goal l]; [done|].
intros _. simpl. by apply nearest_step_bound.
Qed.

Lemma is_adjacent_returns (crate : Sokoban.Point) :
  Sokoban.goals (Sokoban.layout state) <> [] ->
  exists b, Sokoban.is_adjacent_to_wall_and_not_to_goal crate state = inr b.
Proof.
intros [goal Hgoal]%(nearest_bound crate).
unfold Sokoban.is_adjacent_to_wall_and_not_to_goal, Sokoban.wall_check.
rewrite Hgoal.
repeat match goal with
       | |- context [bool_decide ?P] => destruct (bool_decide P)
       | |- context [Z.ltb ?a ?b] => destruct (Z.ltb a b)
       end; by eexists.
Qed.

Lemma is_corner_order (crate : Sokoban.Point) :
  Sokoban.is_corner crate state' = Sokoban.is_corner crate state.
Proof. unfold Sokoban.is_corner. by rewrite Hlayout. Qed.

Lemma is_adjacent_order (crate : Sokoban.Point) :
  Sokoban.is_adjacent_to_wall_and_not_to_goal crate state'
  = Sokoban.is_adjacent_to_wall_and_not_to_goal crate state.
Proof.
unfold Sokoban.is_adjacent_to_wall_and_not_to_goal, Sokoban.nearest.
by rewrite Hlayout.
Qed.

Lemma count_blocked_order (s : list Sokoban.Point) :
  Sokoban.count_blocked state' s = Sokoban.count_blocked state s.
Proof.
unfold Sokoban.count_blocked. generalize 0.
induction s as [|point s IH]; intros count; simpl; [done|].
rewrite IH. f_equal.
rewrite (bool_decide_ext (point ∈ Sokoban.crates state')
                         (point ∈ Sokoban.crates state))
  by (by rewrite Hcrates).
by rewrite Hlayout.
Qed.

Lemma is_blocked_order (crate : Sokoban.Point) :
  Sokoban.is_blocked_by_crates_or_wall crate state'
  = Sokoban.is_blocked_by_crates_or_wall crate state.
Proof.
unfold Sokoban.is_blocked_by_crates_or_wall.
induction (Sokoban.squares crate) as [|s l IH]; simpl; [done|].
by rewrite count_blocked_order, IH.
Qed.

Lemma is_deadlock_from_spec (l : list Sokoban.Point) :
  Sokoban.goals (Sokoban.layout state) <> [] ->
  exists b,
    Sokoban.is_deadlock_from state l = inr b
    /\ (b = true
        <-> exists crate,
              crate ∈ l
              /\ crate ∉ Sokoban.goals (Sokoban.layout state)
              /\ (Sokoban.is_corner crate state = true
                  \/ Sokoban.is_adjacent_to_wall_and_not_to_goal crate state
                     = inr true
                  \/ Sokoban.is_blocked_by_crates_or_wall crate state
                     = true)).
Proof.
intros Hgoals. induction l as [|crate l (b & IH & Hb)]; simpl.
- exists false. split; [done|]. split; [done|].
  by intros (? & ?%elem_of_nil & _).
- assert ((exists c, c ∈ l
             /\ c ∉ Sokoban.goals (Sokoban.layout state)
             /\ (Sokoban.is_corner c state = true
                 \/ Sokoban.is_adjacent_to_wall_and_not_to_goal c state
                    = inr true
                 \/ Sokoban.is_blocked_by_crates_or_wall c state = true))
          -> exists c, c ∈ crate :: l
             /\ c ∉ Sokoban.goals (Sokoban.layout state)
             /\ (Sokoban.is_corner c state = true
                 \/ Sokoban.is_adjacent_to_wall_and_not_to_goal c state
                    = inr true
                 \/ Sokoban.is_blocked_by_crates_or_wall c state = true))
    as Hmono.
  { intros (c & Hc & Hrest). exists c. split; [by apply list_elem_of_further|done]. }
  destruct (bool_decide_reflect (crate ∈ Sokoban.goals (Sokoban.layout state)))
    as [Hin|Hout].
  { exists b. split; [done|]. rewrite Hb. split; [done|].
    intros (c & [->|Hc]%elem_of_cons & Hnot & Hrest); [done|by exists c]. }
  destruct (Sokoban.is_corner crate state) eqn:Hcorner.
  { exists true. split; [done|]. split; [|done]. intros _.
    exists crate. split; [apply list_elem_of_here|]. split; [done|by left]. }
  destruct (is_adjacent_returns crate Hgoals) as [[] Hadj]; rewrite Hadj.
  { exists true. split; [done|]. split; [|done]. intros _.
    exists crate. split; [apply list_elem_of_here|].
    split; [done|by right; left]. }
  destruct (Sokoban.is_blocked_by_crates_or_wall crate state) eqn:Hblocked.
  { exists true. split; [done|]. split; [|done]. intros _.
    exists crate. split; [apply list_elem_of_here|].
    split; [done|by right; right]. }
  exists b. split; [done|]. rewrite Hb. split; [done|].
  intros (c & [->|Hc]%elem_of_cons & Hnot & Hrest); [|by exists c].
  destruct Hrest as [?|[?|?]]; congruence.
Qed.

Lemma is_deadlock_from_order (l : list Sokoban.Point) :
  Sokoban.is_deadlock_from state' l = Sokoban.is_deadlock_from state l.
Proof.
induction l as [|crate l IH]; simpl; [done|].
by rewrite Hlayout, is_corner_order, is_adjacent_order, is_blocked_order, IH.
Qed.

Lemma sum_nearest_goal_order (l : list Sokoban.Point) : forall result,
  Sokoban.sum_nearest_goal state' l result
  = Sokoban.sum_nearest_goal state l result.
Proof.
induction l as [|crate l IH]; intros result; simpl; [done|].
rewrite Hlayout. by destruct (Sokoban.py_min _).
Qed.

Lemma sum_nearest_goal_perm (l l' : list Sokoban.Point) :
  l ≡ₚ l' ->
  forall result,
    Sokoban.sum_nearest_goal state l result
    = Sokoban.sum_nearest_goal state l' result.
Proof.
induction 1 as [|x l l' Hp IH|x y l|l1 l2 l3 Hp1 IH1 Hp2 IH2];
  intros result; simpl.
- done.
- by destruct (Sokoban.py_min _).
- destruct (Sokoban.py_min (map (Sokoban.manhattan_distance y) _)) as [my|],
    (Sokoban.py_min (map (Sokoban.manhattan_distance x) _)) as [mx|];
    try done.
  by replace (result + my + mx) with (result + mx + my) by lia.
- by rewrite IH1, IH2.
Qed.

End SokobanOrder.

(** X18.  When there is at least one goal, [strong_heuristic] and
    [weak_heuristic] do not depend on the order in which the crates of the
    state are iterated over. *)
Theorem sokoban_heuristics_ignore_crate_order {Problem : Type}
        (problem : Problem) (state state' : Sokoban.SokobanState) :
  Sokoban.layout state' = Sokoban.layout state ->
  Sokoban.player state' = Sokoban.player state ->
  Sokoban.crates state' ≡ₚ Sokoban.crates state ->
  Sokoban.goals (Sokoban.layout state) <> [] ->
  Sokoban.strong_heuristic problem state'
  = Sokoban.strong_heuristic problem state
  /\ Sokoban.weak_heuristic problem state'
     = Sokoban.weak_heuristic problem state.
Proof.
intros Hlayout Hplayer Hcrates Hgoals.
assert (Sokoban.py_min (map (Sokoban.manhattan_distance
                               (Sokoban.player state'))
                            (Sokoban.crates state'))
        = Sokoban.py_min (map (Sokoban.manhattan_distance
                                 (Sokoban.player state))
                              (Sokoban.crates state))) as Hmin.
{ rewrite Hplayer. apply sokoban_py_min_perm. by rewrite Hcrates. }
split; [|unfold Sokoban.weak_heuristic; by rewrite Hmin].
unfold Sokoban.strong_heuristic, Sokoban.is_deadlock.
rewrite Hmin.
rewrite (is_deadlock_from_order state state' Hlayout Hcrates).
rewrite (sum_nearest_goal_order state state' Hlayout).
rewrite (sum_nearest_goal_perm state _ _ Hcrates).
destruct (is_deadlock_from_spec state (Sokoban.crates state') Hgoals)
  as (b & -> & Hb).
destruct (is_deadlock_from_spec state (Sokoban.crates state) Hgoals)
  as (b0 & -> & Hb0).
assert (b = b0) as ->; [|done].
apply eq_true_iff_eq. rewrite Hb, Hb0.
split; intros (c & Hc & Hrest); exists c; (split; [|done]).
- by rewrite <- Hcrates.
- by rewrite Hcrates.
Qed.

Lemma sokoban_heuristics_ignore_crate_order_witness :
  let state :=
    {| Sokoban.layout := room_layout; Sokoban.player := (1, 2);
       Sokoban.crates := [(2, 2); (3, 3)] |} in
  let state' :=
    {| Sokoban.layout := room_layout; Sokoban.player := (1, 2);
       Sokoban.crates := [(3, 3); (2, 2)] |} in
  Sokoban.strong_heuristic tt state' = Sokoban.strong_heuristic tt state
  /\ Sokoban.weak_heuristic tt state' = Sokoban.weak_heuristic tt state.
Proof.
intros state state'.
apply (sokoban_heuristics_ignore_crate_order tt state state');
  [reflexivity|reflexivity|apply Permutation_swap|discriminate].
Defined.

(** ** Properties of the snake environment *)

Lemma snake_cells_elem (w h : Z) (p : Snake.Point) :
  p ∈ Snake.cells w h <-> 0 <= fst p < w /\ 0 <= snd p < h.
Proof.
unfold Snake.cells. rewrite list_elem_of_bind. split.
- intros (x & (y & ->%list_elem_of_singleton & Hy%elem_of_seqZ)%list_elem_of_bind
            & Hx%elem_of_seqZ).
  simpl. lia.
- intros [Hx Hy]. exists (fst p). split; [|apply elem_of_seqZ; lia].
  apply list_elem_of_bind. exists (snd p).
  split; [|apply elem_of_seqZ; lia].
  destruct p. apply list_elem_of_here.
Qed.

Lemma snake_cells_nodup (w h : Z) : NoDup (Snake.cells w h).
Proof.
unfold Snake.cells. apply NoDup_bind.
- intros x1 x2 p _ _
    (y1 & ->%list_elem_of_singleton & _)%list_elem_of_bind
    (y2 & [= -> _]%list_elem_of_singleton & _)%list_elem_of_bind.
  done.
- intros x _. apply NoDup_bind.
  + by intros y1 y2 p _ _ ->%list_elem_of_singleton
      [= ->]%list_elem_of_singleton.
  + intros y _. apply NoDup_singleton.
  + apply NoDup_seqZ.
- apply NoDup_seqZ.
Qed.

Lemma snake_bind_length {X Y : Type} (f : X -> list Y) (n : nat)
      (l : list X) :
  (forall x, length (f x) = n) -> length (l ≫= f) = (length l * n)%nat.
Proof.
intros Hf. induction l as [|x l IH]; [done|].
change ((x :: l) ≫= f) with (f x ++ (l ≫= f)).
rewrite length_app, Hf, IH. simpl. lia.
Qed.

Lemma snake_cells_length (w h : Z) :
  0 <= w -> 0 <= h -> Z.of_nat (length (Snake.cells w h)) = w * h.
Proof.
intros Hw Hh. unfold Snake.cells.
rewrite (snake_bind_length _ (Z.to_nat h)).
- rewrite length_seqZ, Nat2Z.inj_mul, !Z2Nat.id by lia. done.
- intros x. rewrite (snake_bind_length _ 1%nat) by done.
  rewrite length_seqZ. lia.
Qed.

Lemma snake_mod_succ_ne (x w : Z) :
  2 <= w -> 0 <= x < w -> (x + 1) mod w <> x.
Proof.
intros Hw Hx. destruct (decide (x + 1 = w)) as [E|Hne].
- rewrite E, Z.mod_same by lia. lia.
- rewrite Z.mod_small by lia. lia.
Qed.

Lemma snake_mod_pred_ne (x w : Z) :
  2 <= w -> 0 <= x < w -> (x - 1) mod w <> x.
Proof.
intros Hw Hx. destruct (decide (x = 0)) as [->|Hne].
- replace (0 - 1) with ((w - 1) + (-1) * w) by lia.
  rewrite Z.mod_add by lia. rewrite Z.mod_small by lia. lia.
- rewrite Z.mod_small by lia. lia.
Qed.

Section SnakeFacts.
Context {Rng : Type}.
Context (choice : Rng -> list Snake.Point -> option (Snake.Point * Rng)).
Context (choice_spec : forall r l, l <> [] ->
           exists p r', choice r l = Some (p, r') /\ p ∈ l).
Implicit Types (self : Snake.SnakeEnv Rng) (p : Snake.Point).

Lemma possible_points_elem self p :
  p ∈ Snake.possible_points self
  <-> Snake.in_grid self p /\ p ∉ Snake.snake self.
Proof.
unfold Snake.possible_points, Snake.range, Snake.in_grid.
rewrite list_elem_of_bind. split.
- intros (x & (y & Hp & Hy%elem_of_seqZ)%list_elem_of_bind & Hx%elem_of_seqZ).
  destruct (bool_decide_reflect ((x, y) ∉ Snake.snake self)) as [Hout|_];
    [|by apply elem_of_nil in Hp].
  apply list_elem_of_singleton in Hp as ->. simpl. split; [lia|done].
- intros [[Hx Hy] Hout]. exists (fst p). split; [|apply elem_of_seqZ; lia].
  apply list_elem_of_bind. exists (snd p).
  split; [|apply elem_of_seqZ; lia].
  destruct p as [x y]. simpl.
  rewrite bool_decide_eq_true_2 by done. apply list_elem_of_here.
Qed.

Lemma free_cell self :
  0 <= Snake.width self -> 0 <= Snake.height self ->
  NoDup (Snake.snake self) ->
  (forall p, p ∈ Snake.snake self -> Snake.in_grid self p) ->
  Z.of_nat (length (Snake.snake self))
  <> Snake.width self * Snake.height self ->
  Snake.possible_points self <> [].
Proof.
intros Hw Hh Hnd Hgrid Hlen Hempty. apply Hlen.
rewrite <- (snake_cells_length _ _ Hw Hh). f_equal.
apply Nat.le_antisymm.
- apply submseteq_length, NoDup_submseteq; [done|].
  intros p Hp. by apply snake_cells_elem, Hgrid.
- apply submseteq_length, NoDup_submseteq; [apply snake_cells_nodup|].
  intros p Hp%snake_cells_elem.
  destruct (decide (p ∈ Snake.snake self)) as [|Hout]; [done|].
  assert (p ∈ Snake.possible_points self) as Hin
    by (by apply possible_points_elem).
  rewrite Hempty in Hin. by apply elem_of_nil in Hin.
Qed.

Lemma generate_random_apple_spec self :
  0 <= Snake.width self -> 0 <= Snake.height self ->
  NoDup (Snake.snake self) ->
  (forall p, p ∈ Snake.snake self -> Snake.in_grid self p) ->
  Z.of_nat (length (Snake.snake self))
  <> Snake.width self * Snake.height self ->
  exists point rng',
    Snake.generate_random_apple choice self
    = Some ({| Snake.rng := rng'; Snake.width := Snake.width self;
               Snake.height := Snake.height self;
               Snake.snake := Snake.snake self;
               Snake.direction := Snake.direction self;
               Snake.apple := Snake.apple self |}, point)
    /\ Snake.in_grid self point /\ point ∉ Snake.snake self.
Proof.
intros Hw Hh Hnd Hgrid Hlen.
destruct (choice_spec (Snake.rng self) (Snake.possible_points self))
  as (point & rng' & Hchoice & Hin); [by apply free_cell|].
exists point, rng'. unfold Snake.generate_random_apple. rewrite Hchoice.
split; [done|]. by apply possible_points_elem.
Qed.

Lemma move_to_spec self (head : Snake.Point) (d : Snake.Direction) :
  2 <= Snake.width self -> 2 <= Snake.height self ->
  Snake.in_grid self head ->
  exists p, Snake.move_to self head d = Some p
            /\ Snake.in_grid self p /\ p <> head.
Proof.
intros Hw Hh [Hx Hy]. destruct head as [x y]. simpl in *.
unfold Snake.move_to, Snake.py_mod, Snake.in_grid. simpl.
destruct (Z.eqb_spec (Snake.width self) 0); [lia|].
destruct (Z.eqb_spec (Snake.height self) 0); [lia|].
destruct d; simpl; eexists; (split; [done|]); simpl.
all: split; [|intros [= E]; revert E;
                by first [apply snake_mod_succ_ne|apply snake_mod_pred_ne]].
all: Z.div_mod_to_equations; lia.
Qed.


Lemma removelast_elem (l : list Snake.Point) p :
  p ∈ removelast l -> p ∈ l.
Proof.
induction l as [|x l IH]; simpl; [done|].
destruct l as [|y l]; [by intros ?%elem_of_nil|].
intros [->|Hp]%elem_of_cons; [apply list_elem_of_here|].
apply list_elem_of_further. by apply IH.
Qed.

Lemma removelast_nodup (l : list Snake.Point) :
  NoDup l -> NoDup (removelast l).
Proof.
induction l as [|x l IH]; simpl; [done|].
destruct l as [|y l]; [intros _; apply NoDup_nil_2|].
intros [Hx Hnd]%NoDup_cons. apply NoDup_cons. split; [|by apply IH].
intros Hin%removelast_elem. done.
Qed.

Lemma removelast_cons_length (x : Snake.Point) (l : list Snake.Point) :
  length (removelast (x :: l)) = length l.
Proof.
revert x. induction l as [|y l IH]; intros x; [done|].
change (length (removelast (x :: y :: l)))
  with (Datatypes.S (length (removelast (y :: l)))).
by rewrite IH.
Qed.

Lemma set_direction_fields self (action : Snake.Direction) :
  Snake.width (Snake.set_direction self action) = Snake.width self
  /\ Snake.height (Snake.set_direction self action) = Snake.height self
  /\ Snake.snake (Snake.set_direction self action) = Snake.snake self
  /\ Snake.apple (Snake.set_direction self action) = Snake.apple self.
Proof. by destruct action. Qed.

Lemma set_direction_ok self (action : Snake.Direction) :
  Snake.snake_ok self -> Snake.snake_ok (Snake.set_direction self action).
Proof.
destruct (set_direction_fields self action) as (Hw & Hh & Hs & Ha).
intros [? ? ? ? Hgrid]. split; rewrite ?Hw, ?Hh, ?Hs; try done.
intros p Hp. unfold Snake.in_grid. rewrite Hw, Hh. by apply Hgrid.
Qed.

Lemma set_direction_apple_ok self (action : Snake.Direction) :
  Snake.apple_ok self -> Snake.apple_ok (Snake.set_direction self action).
Proof.
destruct (set_direction_fields self action) as (Hw & Hh & Hs & Ha).
intros (a & Happle & Hout & Hgrid). exists a.
unfold Snake.in_grid. by rewrite Ha, Hs, Hw, Hh.
Qed.

Lemma move_snake_spec self (action : Snake.Direction) :
  Snake.snake_ok self ->
  exists head rest new_head,
    Snake.snake self = head :: rest
    /\ Snake.move_snake self action = Some new_head
    /\ Snake.in_grid self new_head /\ new_head <> head.
Proof.
intros [Hw Hh Hne Hnd Hgrid]. unfold Snake.move_snake.
destruct (Snake.snake self) as [|head rest] eqn:Hsnake; [done|].
assert (Snake.in_grid self head) as Hhead
  by (apply Hgrid; apply list_elem_of_here).
destruct action;
  match goal with
  | |- context [Snake.move_to self head ?d] =>
      destruct (move_to_spec self head d Hw Hh Hhead) as (p & Hp & ? & ?)
  end; by exists head, rest, p.
Qed.

End SnakeFacts.

(** X19.  While the grid is at least 2 by 2, the snake is not empty, its
    cells are pairwise distinct and inside the grid, and the apple is on a
    free cell of the grid, [step] does not raise for any action, leaves
    the snake non-empty, self-avoiding and inside the grid, grows it by at
    most one cell, and, unless the episode is done, leaves the apple on a
    free cell of the grid. *)
Theorem snake_step_keeps_invariant {Rng : Type}
        (choice : Rng -> list Snake.Point -> option (Snake.Point * Rng))
        (self : Snake.SnakeEnv Rng) (action : Snake.Direction) :
  (forall r l, l <> [] -> exists p r', choice r l = Some (p, r') /\ p ∈ l) ->
  Snake.snake_ok self ->
  Snake.apple_ok self ->
  exists self' reward done,
    Snake.step choice self action
    = Some (self', (Snake.observe self', reward, done))
    /\ Snake.snake_ok self'
    /\ (done = false -> Snake.apple_ok self')
    /\ (length (Snake.snake self) <= length (Snake.snake self')
        <= Datatypes.S (length (Snake.snake self)))%nat.
Proof.
intros choice_spec Hok Happle.
destruct (move_snake_spec self action Hok)
  as (head & rest & new_head & Hsnake & Hmove & Hgrid & Hne).
pose proof Hok as [Hw Hh Hnonempty Hnd Hin].
destruct Happle as (a & Ha & Haout & Hagrid).
unfold Snake.step. rewrite Hmove, Hsnake. simpl tail.
destruct (bool_decide_reflect (new_head ∈ rest)) as [Hbite|Hfree].
{ eexists _, _, _. split; [done|]. split; [by apply set_direction_ok|].
  split; [done|].
  destruct (set_direction_fields self action) as (_ & _ & -> & _).
  rewrite Hsnake. simpl. lia. }
assert (new_head ∉ head :: rest) as Hout.
{ by intros [->|?]%elem_of_cons. }
assert (NoDup (new_head :: head :: rest)) as Hnd1.
{ apply NoDup_cons. split; [done|]. by rewrite <- Hsnake. }
assert (forall p, p ∈ new_head :: head :: rest -> Snake.in_grid self p)
  as Hin1.
{ intros p [->|Hp]%elem_of_cons; [done|]. apply Hin. by rewrite Hsnake. }
destruct (bool_decide_reflect (Some new_head = Snake.apple self))
  as [Heat|Hnoeat].
- destruct (Z.eqb_spec
              (Z.of_nat (length (new_head :: head :: rest)))
              (Snake.width self * Snake.height self)) as [Hfull|Hnotfull];
    simpl negb; cbv iota.
  + eexists _, _, _. split; [done|]. split.
    * apply set_direction_ok. by split.
    * split; [done|].
      destruct (set_direction_fields
                  {| Snake.rng := Snake.rng self;
                     Snake.width := Snake.width self;
                     Snake.height := Snake.height self;
                     Snake.snake := new_head :: head :: rest;
                     Snake.direction := Snake.direction self;
                     Snake.apple := Snake.apple self |} action)
        as (_ & _ & -> & _).
      simpl. lia.
  + destruct (generate_random_apple_spec choice choice_spec
                {| Snake.rng := Snake.rng self;
                   Snake.width := Snake.width self;
                   Snake.height := Snake.height self;
                   Snake.snake := new_head :: head :: rest;
                   Snake.direction := Snake.direction self;
                   Snake.apple := Snake.apple self |})
      as (point & rng' & -> & Hpgrid & Hpout); simpl; try done; try lia.
    eexists _, _, _. split; [done|]. split; [|split].
    * apply set_direction_ok. by split.
    * intros _. apply set_direction_apple_ok. by exists point.
    * match goal with
      | |- context [Snake.set_direction ?s action] =>
          destruct (set_direction_fields s action) as (_ & _ & -> & _)
      end.
      simpl. lia.
- eexists _, _, _. split; [done|]. split; [|split].
  + apply set_direction_ok. split; simpl; try done.
    * by apply removelast_nodup in Hnd1.
    * intros p Hp. apply Hin1. by apply removelast_elem.
  + intros _. apply set_direction_apple_ok. exists a.
    split; [exact Ha|]. split; [|exact Hagrid].
    cbn [Snake.snake].
    intros [->|Hp]%removelast_elem%elem_of_cons; [congruence|].
    apply Haout. by rewrite Hsnake.
  + match goal with
    | |- context [Snake.set_direction ?s action] =>
        destruct (set_direction_fields s action) as (_ & _ & -> & _)
    end.
    cbn [Snake.snake].
    rewrite (removelast_cons_length new_head (head :: rest)). simpl. lia.
Qed.

Lemma first_choice_spec (r : unit) (l : list Snake.Point) :
  l <> [] ->
  exists p r', Snake.first_choice r l = Some (p, r') /\ p ∈ l.
Proof.
destruct l as [|p l]; [done|]. intros _. exists p, r.
split; [done|apply list_elem_of_here].
Qed.

Lemma small_snake_ok : Snake.snake_ok small_snake.
Proof.
split; simpl; try lia; try done.
- apply NoDup_singleton.
- intros p ->%list_elem_of_singleton. unfold Snake.in_grid. simpl. lia.
Qed.

Lemma small_snake_apple_ok : Snake.apple_ok small_snake.
Proof.
exists (0, 1). split; [done|]. split.
- by intros [=]%list_elem_of_singleton.
- unfold Snake.in_grid. simpl. lia.
Qed.

Lemma snake_step_keeps_invariant_witness :
  exists self' reward done,
    Snake.step Snake.first_choice small_snake Snake.NONE
    = Some (self', (Snake.observe self', reward, done))
    /\ Snake.snake_ok self'
    /\ (done = false -> Snake.apple_ok self')
    /\ (length (Snake.snake small_snake) <= length (Snake.snake self')
        <= Datatypes.S (length (Snake.snake small_snake)))%nat.
Proof.
apply (snake_step_keeps_invariant Snake.first_choice small_snake Snake.NONE).
- exact first_choice_spec.
- exact small_snake_ok.
- exact small_snake_apple_ok.
Defined.

(** X20.  On a grid of at least 2 by 2 cells [reset] does not raise: it
    leaves a snake of one cell in the middle of the grid, heading left,
    with the apple on another cell of the grid, and returns the
    observation of that state. *)
Theorem snake_reset_establishes_invariant {Rng : Type}
        (seed : Rng -> Z -> Rng)
        (choice : Rng -> list Snake.Point -> option (Snake.Point * Rng))
        (self : Snake.SnakeEnv Rng) (seed_value : option Z) :
  (forall r l, l <> [] -> exists p r', choice r l = Some (p, r') /\ p ∈ l) ->
  2 <= Snake.width self ->
  2 <= Snake.height self ->
  exists self',
    Snake.reset seed choice self seed_value
    = Some (self', Snake.observe self')
    /\ Snake.snake_ok self'
    /\ Snake.apple_ok self'
    /\ Snake.snake self'
       = [(Snake.width self / 2, Snake.height self / 2)]
    /\ Snake.direction self' = Snake.LEFT
    /\ Snake.width self' = Snake.width self
    /\ Snake.height self' = Snake.height self.
Proof.
intros choice_spec Hw Hh. unfold Snake.reset.
assert (0 <= Snake.width self / 2 < Snake.width self) as Hx
  by (split; [apply Z.div_pos; lia|apply Z.div_lt; lia]).
assert (0 <= Snake.height self / 2 < Snake.height self) as Hy
  by (split; [apply Z.div_pos; lia|apply Z.div_lt; lia]).
match goal with
| |- context [Snake.generate_random_apple choice ?s] =>
    destruct (generate_random_apple_spec choice choice_spec s)
      as (point & rng' & -> & Hpgrid & Hpout)
end; simpl; try lia.
{ apply NoDup_singleton. }
{ by intros p ->%list_elem_of_singleton. }
eexists. split; [done|]. simpl. split; [|split; [|done]].
- split; simpl; try done.
  + apply NoDup_singleton.
  + by intros p ->%list_elem_of_singleton.
- by exists point.
Qed.

Lemma snake_reset_establishes_invariant_witness :
  exists self',
    Snake.reset (fun r _ => r) Snake.first_choice small_snake (Some 7)
    = Some (self', Snake.observe self')
    /\ Snake.snake_ok self'
    /\ Snake.apple_ok self'
    /\ Snake.snake self' = [(3 / 2, 3 / 2)]
    /\ Snake.direction self' = Snake.LEFT
    /\ Snake.width self' = 3
    /\ Snake.height self' = 3.
Proof.
apply (snake_reset_establishes_invariant (fun r _ => r) Snake.first_choice
         small_snake (Some 7)).
- exact first_choice_spec.
- simpl. lia.
- simpl. lia.
Defined.
